(** * Finance Manager v2.6: ledger, calendar, codec and store loader

    A shallow embedding of [src/finance_v2_6.cpp]: the escaped record
    codec, the calendar helpers, the [Account] ledger with its allocation,
    schedule and interest engines, and [Account::loadFromFile].

    Modelling conventions.
    - [double] is modelled by exact rationals [Q]; comparisons with
      [0.0] and [0.000001] become the boolean comparisons of [Q].
    - A [chrono_tp] of this program is always a local midnight; it is
      modelled by its civil date.  [safeLocaltime] is then the projection
      onto year, month and day and [mktime] the normalisation of a broken
      down date whose day (or month) is out of range.
    - [std::map<string, V>] is modelled by an association list kept in
      key order, because the loops of the program visit the entries in
      that order and post transactions as they go.
    - [cerr] and [cout] diagnostics are not part of the state. *)

From Stdlib Require Import Bool List ZArith QArith Lia String Ascii.
From Stdlib Require Import Qfield.
Import ListNotations.

Local Open Scope string_scope.
Local Open Scope Z_scope.

(* ================================================================== *)
(** ** Characters used by the store format *)

Definition backslash : ascii := "\"%char.
Definition pipe : ascii := "|"%char.
Definition newline : ascii := "010"%char.
Definition letter_n : ascii := "n"%char.

(** [string::push_back] *)
Definition push_back (s : string) (c : ascii) : string :=
  s ++ String c EmptyString.

(* ================================================================== *)
(** ** [std::map<string, V>] as an association list in key order *)

Module StrMap.

Section Ops.
Context {V : Type}.

Definition t := list (string * V).

(** [m.find(k)] *)
Fixpoint find (k : string) (m : list (string * V)) : option V :=
  match m with
  | [] => None
  | (k', v) :: r => if String.eqb k k' then Some v else find k r
  end.

(** [m.find(k) != m.end()], also [m.count(k)] *)
Definition mem (k : string) (m : list (string * V)) : bool :=
  match find k m with Some _ => true | None => false end.

(** [m[k] = v]: the entry is replaced, or inserted at its place in key
    order. *)
Fixpoint put (k : string) (v : V) (m : list (string * V)) : list (string * V) :=
  match m with
  | [] => [(k, v)]
  | (k', v') :: r =>
      match String.compare k k' with
      | Lt => (k, v) :: m
      | Eq => (k, v) :: r
      | Gt => (k', v') :: put k v r
      end
  end.

(** [if (m.find(k) == m.end()) m[k] = v;] *)
Definition ensure (k : string) (v : V) (m : list (string * V)) : list (string * V) :=
  if mem k m then m else put k v m.

(** The value read by [m[k]], where [d] is the value-initialised [V]
    that [operator[]] inserts for an absent key. *)
Definition get (d : V) (k : string) (m : list (string * V)) : V :=
  match find k m with Some v => v | None => d end.

Definition keys (m : list (string * V)) : list string := map fst m.
End Ops.

Arguments t : clear implicits.

End StrMap.

(* ================================================================== *)
(** ** Escaped record codec (source lines 255-304) *)

(** [escapeForSave] *)
Fixpoint escapeForSave (s : string) : string :=
  match s with
  | EmptyString => EmptyString
  | String c r =>
      if Ascii.eqb c backslash then String backslash (String backslash (escapeForSave r))
      else if Ascii.eqb c pipe then String backslash (String pipe (escapeForSave r))
      else if Ascii.eqb c newline then String backslash (String letter_n (escapeForSave r))
      else String c (escapeForSave r)
  end.

(** [unescapeLoaded]: the index loop [for (i = 0; i < s.size(); ++i)];
    a backslash that has a successor consumes it. *)
Fixpoint unescapeLoaded (s : string) : string :=
  match s with
  | EmptyString => EmptyString
  | String c r =>
      if Ascii.eqb c backslash then
        match r with
        | EmptyString => String c EmptyString
        | String n r' =>
            if Ascii.eqb n letter_n then String newline (unescapeLoaded r')
            else String n (unescapeLoaded r')
        end
      else String c (unescapeLoaded r)
  end.

(** The scanning loop of [splitEscaped], with its three locals. *)
Fixpoint splitLoop (s : string) (parts : list string) (cur : string) (esc : bool)
  : list string * string :=
  match s with
  | EmptyString => (parts, cur)
  | String c r =>
      if esc then splitLoop r parts (push_back cur c) false
      else if Ascii.eqb c backslash then splitLoop r parts cur true
      else if Ascii.eqb c pipe then splitLoop r (parts ++ [cur]) EmptyString false
      else splitLoop r parts (push_back cur c) false
  end.

(** [splitEscaped]: scan, push the last field, then [unescapeLoaded] on
    every part. *)
Definition splitEscaped (s : string) : list string :=
  let '(parts, cur) := splitLoop s [] EmptyString false in
  map unescapeLoaded (parts ++ [cur]).

(** A record line as [saveToFile] writes it: the escaped fields
    separated by ['|']. *)
Definition joinEscaped (fields : list string) : string :=
  String.concat (String pipe EmptyString) (map escapeForSave fields).

(* ================================================================== *)
(** ** Calendar arithmetic (source lines 153-241) *)

Record Date : Type := mkDate { year : Z; month : Z; day : Z }.

(** Order of time points, read on civil dates. *)
Definition date_ltb (a b : Date) : bool :=
  (year a <? year b)
  || ((year a =? year b)
      && ((month a <? month b) || ((month a =? month b) && (day a <? day b)))).

Definition date_leb (a b : Date) : bool := negb (date_ltb b a).
Definition date_gtb (a b : Date) : bool := date_ltb b a.

Definition date_eqb (a b : Date) : bool :=
  (year a =? year b) && (month a =? month b) && (day a =? day b).

(** [daysInMonth]; the table [mdays] is indexed by [month - 1], which the
    source only does for months 1..12 (outside, the read is undefined
    and modelled by 0). *)
Definition mdays : list Z := [31; 28; 31; 30; 31; 30; 31; 31; 30; 31; 30; 31].

Definition daysInMonth (y m : Z) : Z :=
  if m =? 2 then
    let leap := (Z.rem y 4 =? 0) && (negb (Z.rem y 100 =? 0) || (Z.rem y 400 =? 0)) in
    28 + (if leap then 1 else 0)
  else nth (Z.to_nat (m - 1)) mdays 0.

(** Day number of a civil date (days since 1970-01-01), linear in the
    day field, and its inverse: what [mktime] followed by [localtime]
    computes on the date part. *)
Definition days_from_civil (y m d : Z) : Z :=
  let y' := if m <=? 2 then y - 1 else y in
  let era := y' / 400 in
  let yoe := y' - era * 400 in
  let mp := (m + 9) mod 12 in
  let doy := (153 * mp + 2) / 5 + d - 1 in
  let doe := yoe * 365 + yoe / 4 - yoe / 100 + doy in
  era * 146097 + doe - 719468.

Definition civil_from_days (z : Z) : Date :=
  let z' := z + 719468 in
  let era := z' / 146097 in
  let doe := z' - era * 146097 in
  let yoe := (doe - doe / 1460 + doe / 36524 - doe / 146096) / 365 in
  let doy := doe - (365 * yoe + yoe / 4 - yoe / 100) in
  let mp := (5 * doy + 2) / 153 in
  let d := doy - (153 * mp + 2) / 5 + 1 in
  let m := if mp <? 10 then mp + 3 else mp - 9 in
  mkDate (yoe + era * 400 + (if m <=? 2 then 1 else 0)) m d.

(** [mktime] on a broken-down date at midnight: months outside 1..12
    carry into the year, then days outside the month carry over. *)
Definition mktime (y m d : Z) : Date :=
  let y1 := y + (m - 1) / 12 in
  let m1 := (m - 1) mod 12 + 1 in
  civil_from_days (days_from_civil y1 m1 d).

(** [addDays]: [tm_mday += days], then [mktime].  Dates and intervals
    are unbounded here; the program holds the sum in an [int] and the
    result in a time point of the clock, so the properties of [addDays]
    below are stated for dates within [inClock], where neither
    overflows. *)
Definition addDays (tp : Date) (days : Z) : Date :=
  mktime (year tp) (month tp) (day tp + days).

(** [addMonths]; [/] and [%] of C++ truncate towards zero. *)
Definition addMonths (tp : Date) (months : Z) : Date :=
  let totalMonths := month tp - 1 + months in
  let newYear := year tp + Z.quot totalMonths 12 in
  let newMonth := Z.rem totalMonths 12 + 1 in
  let '(newMonth, newYear) :=
    if newMonth <=? 0 then (newMonth + 12, newYear - 1) else (newMonth, newYear) in
  let last := daysInMonth newYear newMonth in
  let useDay := Z.min (day tp) last in
  mktime newYear newMonth useDay.

(** [nextMonthlyOn] *)
Definition nextMonthlyOn (from : Date) (d : Z) : Date :=
  let curDay := day from in
  if curDay <? d then
    let last := daysInMonth (year from) (month from) in
    let useDay := Z.min d last in
    mktime (year from) (month from) useDay
  else
    let month1 := month from + 1 in
    let '(month1, year1) :=
      if month1 >? 12 then (1, year from + 1) else (month1, year from) in
    let last := daysInMonth year1 month1 in
    let useDay := Z.min d last in
    mktime year1 month1 useDay.

(** [monthsBetweenInclusive] *)
Definition monthsBetweenInclusive (start end_ : Date) : Z :=
  if date_ltb end_ start then 0
  else
    let months := (year end_ - year start) * 12 + (month end_ - month start) in
    let months := if day end_ >=? day start then months + 1 else months in
    Z.max 0 months.

(* ================================================================== *)
(** ** Category names (source lines 310-348), in the "C" locale *)

Definition is_space (c : ascii) : bool :=
  let n := Z.of_nat (nat_of_ascii c) in
  (n =? 32) || ((9 <=? n) && (n <=? 13)).

Definition is_alnum (c : ascii) : bool :=
  let n := Z.of_nat (nat_of_ascii c) in
  ((48 <=? n) && (n <=? 57)) || ((65 <=? n) && (n <=? 90)) || ((97 <=? n) && (n <=? 122)).

Definition to_lower (c : ascii) : ascii :=
  let n := nat_of_ascii c in
  if (65 <=? Z.of_nat n) && (Z.of_nat n <=? 90) then ascii_of_nat (n + 32) else c.

Definition is_empty (s : string) : bool :=
  match s with EmptyString => true | _ => false end.

Fixpoint string_map (f : ascii -> ascii) (s : string) : string :=
  match s with
  | EmptyString => EmptyString
  | String c r => String (f c) (string_map f r)
  end.

Fixpoint string_filter (f : ascii -> bool) (s : string) : string :=
  match s with
  | EmptyString => EmptyString
  | String c r => if f c then String c (string_filter f r) else string_filter f r
  end.

(** Dropping the leading, respectively trailing, white space. *)
Fixpoint trim_front (s : string) : string :=
  match s with
  | EmptyString => EmptyString
  | String c r => if is_space c then trim_front r else s
  end.

Fixpoint trim_back (s : string) : string :=
  match s with
  | EmptyString => EmptyString
  | String c r =>
      let r' := trim_back r in
      if is_space c && is_empty r' then EmptyString else String c r'
  end.

(** [normalizeKey] *)
Definition normalizeKey (s : string) : string :=
  let out := string_map to_lower (trim_back (trim_front s)) in
  if is_empty out then "other" else out.

(** The second loop of [sanitizeDisplayName]: runs of white space become
    one blank. *)
Fixpoint collapse_spaces (s : string) (lastSpace : bool) : string :=
  match s with
  | EmptyString => EmptyString
  | String c r =>
      if is_space c then
        if lastSpace then collapse_spaces r true
        else String " "%char (collapse_spaces r true)
      else String c (collapse_spaces r false)
  end.

(** [sanitizeDisplayName] *)
Definition sanitizeDisplayName (s : string) : string :=
  let tmp := string_filter (fun c => is_alnum c || is_space c) s in
  let out := trim_back (trim_front (collapse_spaces tmp false)) in
  if is_empty out then "Category" else out.

(* ================================================================== *)
(** ** Core data structures (source lines 35-70 and 385-400) *)

Record Transaction : Type := mkTx {
  tx_date : Date;
  tx_amount : Q;        (* positive = income, negative = expense *)
  tx_category : string; (* display name *)
  tx_note : string
}.

Inductive ScheduleType : Type := EveryXDays | MonthlyDay.

Record Schedule : Type := mkSchedule {
  sched_type : ScheduleType;
  param : Z;            (* days interval or day-of-month *)
  sched_amount : Q;
  sched_note : string;
  autoAllocate : bool;
  nextDate : Date;
  sched_category : string
}.

Record InterestEntry : Type := mkInterest {
  categoryNormalized : string;
  ratePct : Q;
  monthly : bool;
  startDate : Date;
  lastAppliedDate : Date
}.

Record Settings : Type := mkSettings {
  autoSave : bool;
  autoProcessOnStartup : bool;
  language : string
}.

Record Account : Type := mkAccount {
  balance : Q;
  txs : list Transaction;
  schedules : list Schedule;
  allocationPct : StrMap.t Q;
  categoryBalances : StrMap.t Q;
  displayNames : StrMap.t string;
  interestMap : StrMap.t InterestEntry;
  settings : Settings
}.

Definition defaultSettings : Settings := mkSettings false false "EN".

(** The constructor [Account()]: four default categories. *)
Definition defaults : list (string * Q) :=
  [("Emergency", 20%Q); ("Entertainment", 10%Q); ("Saving", 20%Q); ("Other", 50%Q)].

Definition newAccount : Account :=
  fold_left
    (fun a p =>
       let nk := normalizeKey (fst p) in
       mkAccount (balance a) (txs a) (schedules a)
         (StrMap.put nk (snd p) (allocationPct a))
         (StrMap.put nk 0%Q (categoryBalances a))
         (StrMap.put nk (fst p) (displayNames a))
         (interestMap a) (settings a))
    defaults
    (mkAccount 0%Q [] [] [] [] [] [] defaultSettings).

(* ================================================================== *)
(** ** Ledger operations (source lines 420-480) *)

(** [ensureCategoryExists] *)
Definition ensureCategoryExists (displayRaw : string) (a : Account) : Account :=
  let display := sanitizeDisplayName displayRaw in
  let nk := normalizeKey display in
  mkAccount (balance a) (txs a) (schedules a)
    (StrMap.ensure nk 0%Q (allocationPct a))
    (StrMap.ensure nk 0%Q (categoryBalances a))
    (StrMap.ensure nk display (displayNames a))
    (interestMap a) (settings a).

(** [addManualTransaction] *)
Definition addManualTransaction (date : Date) (amount : Q) (categoryRaw note : string)
    (a : Account) : Account :=
  let catDisplay := if is_empty categoryRaw then "Other" else sanitizeDisplayName categoryRaw in
  let nk := normalizeKey catDisplay in
  let dn := StrMap.ensure nk catDisplay (displayNames a) in
  let t := mkTx date amount (StrMap.get EmptyString nk dn) note in
  let cb := StrMap.ensure nk 0%Q (categoryBalances a) in
  let cb := StrMap.put nk (StrMap.get 0%Q nk cb + amount)%Q cb in
  mkAccount (balance a + amount)%Q (txs a ++ [t]) (schedules a)
    (allocationPct a) cb dn (interestMap a) (settings a).

(** [setAllocation]: [allocationPct] is cleared and rebuilt. *)
Definition setAllocation (newAlloc : StrMap.t Q) (a : Account) : Account :=
  fold_left
    (fun a p =>
       let dk := sanitizeDisplayName (fst p) in
       let nk := normalizeKey dk in
       mkAccount (balance a) (txs a) (schedules a)
         (StrMap.put nk (snd p) (allocationPct a))
         (StrMap.ensure nk 0%Q (categoryBalances a))
         (StrMap.ensure nk dk (displayNames a))
         (interestMap a) (settings a))
    newAlloc
    (mkAccount (balance a) (txs a) (schedules a) []
       (categoryBalances a) (displayNames a) (interestMap a) (settings a)).

(** The threshold [0.000001] of [allocateAmount]. *)
Definition epsilon : Q := (1 # 1000000)%Q.

(** [totalPct], summed in key order from [0]. *)
Definition totalPct (alloc : StrMap.t Q) : Q :=
  fold_left (fun acc p => (acc + snd p)%Q) alloc 0%Q.

(** One round of the second loop of [allocateAmount]; [displayNames[k]]
    inserts an empty name for an absent key. *)
Definition allocateShare (date : Date) (amount : Q) (note : string) (total : Q)
    (a : Account) (p : string * Q) : Account :=
  let share := (amount * (snd p / total))%Q in
  let cb := StrMap.put (fst p) (StrMap.get 0%Q (fst p) (categoryBalances a) + share)%Q
              (categoryBalances a) in
  let dn := StrMap.ensure (fst p) EmptyString (displayNames a) in
  let catDisplay :=
    if is_empty (StrMap.get EmptyString (fst p) dn) then fst p
    else StrMap.get EmptyString (fst p) dn in
  mkAccount (balance a + share)%Q
    (txs a ++ [mkTx date share catDisplay (note ++ " (auto alloc)")])
    (schedules a) (allocationPct a) cb dn (interestMap a) (settings a).

(** [allocateAmount] *)
Definition allocateAmount (date : Date) (amount : Q) (note : string) (a : Account)
  : Account :=
  let total := totalPct (allocationPct a) in
  if Qle_bool total epsilon then
    let nk := normalizeKey "Other" in
    let dn := StrMap.ensure nk "Other" (displayNames a) in
    let cb := StrMap.put nk (StrMap.get 0%Q nk (categoryBalances a) + amount)%Q
                (categoryBalances a) in
    mkAccount (balance a + amount)%Q
      (txs a ++ [mkTx date amount (StrMap.get EmptyString nk dn)
                   (note ++ " (auto alloc fallback)")])
      (schedules a) (allocationPct a) cb dn (interestMap a) (settings a)
  else
    fold_left (allocateShare date amount note total) (allocationPct a) a.

(* ================================================================== *)
(** ** Schedule processing (source lines 496-525) *)

(** The guard limit of the firing loop. *)
Definition GUARD_LIMIT : nat := Z.to_nat 10000.

(** The validation gate at the top of the loop body over schedules. *)
Definition scheduleSkipped (s : Schedule) : bool :=
  match sched_type s with
  | EveryXDays => param s <=? 0
  | MonthlyDay => (param s <? 1) || (param s >? 31)
  end.

Definition set_nextDate (s : Schedule) (d : Date) : Schedule :=
  mkSchedule (sched_type s) (param s) (sched_amount s) (sched_note s)
    (autoAllocate s) d (sched_category s).

(** One firing: post, then advance [nextDate]. *)
Definition fireOnce (s : Schedule) (a : Account) : Schedule * Account :=
  let a' :=
    if autoAllocate s && negb (Qle_bool (sched_amount s) 0) then
      allocateAmount (nextDate s) (sched_amount s) ("Scheduled: " ++ sched_note s) a
    else
      let cat := if is_empty (sched_category s) then "Other" else sched_category s in
      addManualTransaction (nextDate s) (sched_amount s) cat
        ("Scheduled: " ++ sched_note s) a in
  let next :=
    match sched_type s with
    | EveryXDays => addDays (nextDate s) (param s)
    | MonthlyDay => nextMonthlyOn (nextDate s) (param s)
    end in
  (set_nextDate s next, a').

(** [while (s.nextDate <= upTo && guard < 10000)], by recursion on the
    number of rounds the guard still allows. *)
Fixpoint fireLoop (left : nat) (upTo : Date) (s : Schedule) (a : Account)
  : Schedule * Account :=
  match left with
  | O => (s, a)
  | S left' =>
      if date_leb (nextDate s) upTo then
        let '(s', a') := fireOnce s a in fireLoop left' upTo s' a'
      else (s, a)
  end.

Definition processSchedule (upTo : Date) (s : Schedule) (a : Account)
  : Schedule * Account :=
  if scheduleSkipped s then (s, a) else fireLoop GUARD_LIMIT upTo s a.

(** The loop [for (auto &s : schedules)]: every schedule is updated in
    place while the ledger is threaded through. *)
Fixpoint processScheduleList (upTo : Date) (ss : list Schedule) (a : Account)
  : list Schedule * Account :=
  match ss with
  | [] => ([], a)
  | s :: r =>
      let '(s', a') := processSchedule upTo s a in
      let '(r', a'') := processScheduleList upTo r a' in
      (s' :: r', a'')
  end.

Definition set_schedules (a : Account) (ss : list Schedule) : Account :=
  mkAccount (balance a) (txs a) ss (allocationPct a) (categoryBalances a)
    (displayNames a) (interestMap a) (settings a).

(** [processSchedulesUpTo] *)
Definition processSchedulesUpTo (upTo : Date) (a : Account) : Account :=
  let '(ss, a') := processScheduleList upTo (schedules a) a in
  set_schedules a' ss.

(* ================================================================== *)
(** ** Interest application (source lines 542-603) *)

(** The balance of category [nk] in the working list up to [applyDate]. *)
Definition categoryBalanceAt (nk : string) (applyDate : Date)
    (workingTxs : list Transaction) : Q :=
  fold_left
    (fun bal t =>
       if String.eqb (normalizeKey (tx_category t)) nk then
         if date_leb (tx_date t) applyDate then (bal + tx_amount t)%Q else bal
       else bal)
    workingTxs 0%Q.

Definition interestNote (ie : InterestEntry) : string :=
  "Interest (" ++ (if monthly ie then "monthly" else "annual/converted to monthly") ++ ")".

(** The body of the month loop for month index [m]; the state is the
    account and the working transaction list. *)
Definition interestMonth (ie : InterestEntry) (fromDate : Date) (monthlyRate : Q) (m : Z)
    (st : Account * list Transaction) : Account * list Transaction :=
  let '(a, workingTxs) := st in
  let applyDate := addMonths fromDate m in
  let nk := categoryNormalized ie in
  let bal := categoryBalanceAt nk applyDate workingTxs in
  if Qle_bool bal 0 then st
  else
    let interest := (bal * monthlyRate)%Q in
    if negb (Qeq_bool interest 0) then
      let display :=
        if StrMap.mem nk (displayNames a) then StrMap.get EmptyString nk (displayNames a)
        else nk in
      let itx := mkTx applyDate interest display (interestNote ie) in
      (mkAccount (balance a + interest)%Q (txs a ++ [itx]) (schedules a)
         (allocationPct a)
         (StrMap.put nk (StrMap.get 0%Q nk (categoryBalances a) + interest)%Q
            (categoryBalances a))
         (displayNames a) (interestMap a) (settings a),
       (workingTxs ++ [itx])%list)
    else st.

(** [for (int m = 0; m < months; ++m)], with [n] rounds left. *)
Fixpoint interestMonths (n : nat) (ie : InterestEntry) (fromDate : Date) (monthlyRate : Q)
    (m : Z) (st : Account * list Transaction) : Account * list Transaction :=
  match n with
  | O => st
  | S n' =>
      interestMonths n' ie fromDate monthlyRate (m + 1)
        (interestMonth ie fromDate monthlyRate m st)
  end.

Definition set_lastAppliedDate (ie : InterestEntry) (d : Date) : InterestEntry :=
  mkInterest (categoryNormalized ie) (ratePct ie) (monthly ie) (startDate ie) d.

(** [fromDate]: the later of [lastAppliedDate] and [startDate]. *)
Definition interestFrom (ie : InterestEntry) : Date :=
  if date_ltb (lastAppliedDate ie) (startDate ie) then startDate ie
  else lastAppliedDate ie.

(** Whether the loop body gets past its two [continue]s. *)
Definition interestProcessed (upTo : Date) (ie : InterestEntry) : bool :=
  negb (date_gtb (startDate ie) upTo)
  && negb (monthsBetweenInclusive (interestFrom ie) upTo <=? 0).

(** The body of the loop over [interestMap] for one entry. *)
Definition interestRule (upTo : Date) (ie : InterestEntry)
    (st : Account * list Transaction) : InterestEntry * (Account * list Transaction) :=
  if date_gtb (startDate ie) upTo then (ie, st)
  else
    let fromDate := interestFrom ie in
    let months := monthsBetweenInclusive fromDate upTo in
    if months <=? 0 then (ie, st)
    else
      let monthlyRate :=
        if monthly ie then (ratePct ie / 100)%Q else ((ratePct ie / 100) / 12)%Q in
      let st' := interestMonths (Z.to_nat months) ie fromDate monthlyRate 0 st in
      let last := addMonths fromDate months in
      let last := if date_gtb last upTo then upTo else last in
      (set_lastAppliedDate ie last, st').

Fixpoint interestRules (upTo : Date) (m : StrMap.t InterestEntry)
    (st : Account * list Transaction)
  : StrMap.t InterestEntry * (Account * list Transaction) :=
  match m with
  | [] => ([], st)
  | (k, ie) :: r =>
      let '(ie', st') := interestRule upTo ie st in
      let '(r', st'') := interestRules upTo r st' in
      ((k, ie') :: r', st'')
  end.

Definition set_interestMap (a : Account) (im : StrMap.t InterestEntry) : Account :=
  mkAccount (balance a) (txs a) (schedules a) (allocationPct a) (categoryBalances a)
    (displayNames a) im (settings a).

(** [applyInterestUpTo] *)
Definition applyInterestUpTo (upTo : Date) (a : Account) : Account :=
  match interestMap a with
  | [] => a
  | _ =>
      let '(im, (a', _)) := interestRules upTo (interestMap a) (a, txs a) in
      set_interestMap a' im
  end.

(* ================================================================== *)
(** ** Text to number and date conversions used by the loader

    [std::stod], [std::stoi] and [get_time] are library routines; they are
    modelled on the decimal spellings.  [stod] covers optional white
    space, a sign, digits with an optional fraction and an optional
    decimal exponent, and ignores what follows (the hexadecimal, [inf]
    and [nan] spellings are outside the model).  [None] stands for the
    exception the source catches. *)

Definition digit_of (c : ascii) : option Z :=
  let n := Z.of_nat (nat_of_ascii c) in
  if (48 <=? n) && (n <=? 57) then Some (n - 48) else None.

(** Reads a run of digits: the value accumulated, the number of digits
    read, and the rest of the text. *)
Fixpoint read_digits (s : string) (acc : Z) (count : Z) : Z * Z * string :=
  match s with
  | EmptyString => (acc, count, s)
  | String c r =>
      match digit_of c with
      | Some d => read_digits r (10 * acc + d) (count + 1)
      | None => (acc, count, s)
      end
  end.

(** An optional sign: [true] for a minus. *)
Definition read_sign (s : string) : bool * string :=
  match s with
  | String c r =>
      if Ascii.eqb c "-"%char then (true, r)
      else if Ascii.eqb c "+"%char then (false, r)
      else (false, s)
  | EmptyString => (false, s)
  end.

(** The exponent part, when one is present and well formed. *)
Definition read_exponent (s : string) : Z :=
  match s with
  | String c r =>
      if Ascii.eqb c "e"%char || Ascii.eqb c "E"%char then
        let '(neg, r1) := read_sign r in
        let '(e, n, _) := read_digits r1 0 0 in
        if n =? 0 then 0 else if neg then - e else e
      else 0
  | EmptyString => 0
  end.

Definition stod (s : string) : option Q :=
  let '(neg, r0) := read_sign (trim_front s) in
  let '(ip, n1, r1) := read_digits r0 0 0 in
  let '(mant, n2, r2) :=
    match r1 with
    | String c r =>
        if Ascii.eqb c "."%char then
          let '(v, n, r') := read_digits r ip 0 in (v, n, r')
        else (ip, 0, r1)
    | EmptyString => (ip, 0, r1)
    end in
  if n1 + n2 =? 0 then None
  else
    let q := (inject_Z mant / Qpower 10 n2 * Qpower 10 (read_exponent r2))%Q in
    Some (if neg then (- q)%Q else q).

Definition INT_MIN : Z := - 2147483648.
Definition INT_MAX : Z := 2147483647.

Definition stoi (s : string) : option Z :=
  let '(neg, r0) := read_sign (trim_front s) in
  let '(v, n, _) := read_digits r0 0 0 in
  if n =? 0 then None
  else
    let v := if neg then - v else v in
    if (INT_MIN <=? v) && (v <=? INT_MAX) then Some v else None.

(** Exactly [k] digits at the head of the text. *)
Fixpoint read_fixed (k : nat) (s : string) (acc : Z) : option (Z * string) :=
  match k with
  | O => Some (acc, s)
  | S k' =>
      match s with
      | String c r =>
          match digit_of c with
          | Some d => read_fixed k' r (10 * acc + d)
          | None => None
          end
      | EmptyString => None
      end
  end.

Definition expect (c : ascii) (s : string) : option string :=
  match s with
  | String c' r => if Ascii.eqb c c' then Some r else None
  | EmptyString => None
  end.

(** [tryParseDate] on the spelling [YYYY-MM-DD]: [get_time] checks the
    month against 1..12 and the day against 1..31, [mktime] then
    normalises the date.  [get_time] also reads texts with leading white
    space or with fewer digits in a group; these are outside the model,
    which accepts a part of what the program accepts and returns on it
    what the program returns. *)
Definition tryParseDate (s : string) : option Date :=
  match read_fixed 4 s 0 with
  | Some (y, r1) =>
      match expect "-"%char r1 with
      | Some r2 =>
          match read_fixed 2 r2 0 with
          | Some (m, r3) =>
              match expect "-"%char r3 with
              | Some r4 =>
                  match read_fixed 2 r4 0 with
                  | Some (d, _) =>
                      if (1 <=? m) && (m <=? 12) && (1 <=? d) && (d <=? 31)
                      then Some (mktime y m d) else None
                  | None => None
                  end
              | None => None
              end
          | None => None
          end
      | None => None
      end
  | None => None
  end.

(* ================================================================== *)
(** ** The store loader (source lines 704-878) *)

(** The files that can be opened, each as the lines [getline] yields. *)
Definition FileSystem : Type := string -> option (list string).

(** [std::filesystem::path(filename).filename()]: what follows the last
    ['/']. *)
Fixpoint path_filename_from (s cur : string) : string :=
  match s with
  | EmptyString => cur
  | String c r =>
      if Ascii.eqb c "/"%char then path_filename_from r EmptyString
      else path_filename_from r (push_back cur c)
  end.

Definition path_filename (s : string) : string := path_filename_from s EmptyString.

(** The two attempts at opening the store: the given path, then the bare
    file name in the working directory when it differs. *)
Definition openStore (fs : FileSystem) (filename : string) : option (list string) :=
  match fs filename with
  | Some ls => Some ls
  | None =>
      let base := path_filename filename in
      if negb (String.eqb base filename) then fs base else None
  end.

Inductive Section_ : Type := NoSec | SettingsSec | InterestSec | Alloc | Cats | Scheds | Txs.

(** The locals of [loadFromFile] next to the account being filled. *)
Record LoadState : Type := mkLoad {
  ld_sec : Section_;
  ld_acc : Account;
  savedBalance : Q;
  hadSavedBalance : bool
}.

Definition is_true_flag (s : string) : bool := String.eqb s "1" || String.eqb s "true".

(** [line.rfind("BALANCE ", 0) == 0] *)
Definition has_balance_prefix (line : string) : bool := String.prefix "BALANCE " line.

(** The [key|value] split of a settings line: the scan of [splitEscaped]
    without the final unescaping. *)
Definition splitRaw (line : string) : list string :=
  let '(parts, cur) := splitLoop line [] EmptyString false in (parts ++ [cur])%list.

Definition loadSettingsLine (line : string) (st : Settings) : Settings :=
  match splitRaw line with
  | key :: val :: _ =>
      if String.eqb key "AUTO_SAVE" then
        mkSettings (is_true_flag val) (autoProcessOnStartup st) (language st)
      else if String.eqb key "AUTO_PROCESS_STARTUP" then
        mkSettings (autoSave st) (is_true_flag val) (language st)
      else if String.eqb key "LANGUAGE" then
        mkSettings (autoSave st) (autoProcessOnStartup st) val
      else st
  | _ => st
  end.

Definition loadInterestLine (today : Date) (line : string) (a : Account) : Account :=
  match splitEscaped line with
  | display :: p1 :: p2 :: p3 :: p4 :: _ =>
      match stod p1 with
      | None => a
      | Some rate =>
          let startd := match tryParseDate p3 with Some d => d | None => today end in
          let lastd := match tryParseDate p4 with Some d => d | None => startd end in
          let nk := normalizeKey display in
          let ie := mkInterest nk rate (is_true_flag p2) startd lastd in
          mkAccount (balance a) (txs a) (schedules a) (allocationPct a)
            (categoryBalances a) (StrMap.ensure nk display (displayNames a))
            (StrMap.put nk ie (interestMap a)) (settings a)
      end
  | _ => a
  end.

Definition loadAllocLine (line : string) (a : Account) : Account :=
  match splitEscaped line with
  | display :: p1 :: _ =>
      match stod p1 with
      | None => a
      | Some v =>
          let nk := normalizeKey display in
          mkAccount (balance a) (txs a) (schedules a)
            (StrMap.put nk v (allocationPct a)) (categoryBalances a)
            (StrMap.ensure nk display (displayNames a)) (interestMap a) (settings a)
      end
  | _ => a
  end.

Definition loadCategoryLine (line : string) (a : Account) : Account :=
  match splitEscaped line with
  | display :: p1 :: _ =>
      match stod p1 with
      | None => a
      | Some v =>
          let nk := normalizeKey display in
          mkAccount (balance a) (txs a) (schedules a) (allocationPct a)
            (StrMap.put nk v (categoryBalances a))
            (StrMap.ensure nk display (displayNames a)) (interestMap a) (settings a)
      end
  | _ => a
  end.

Definition loadScheduleLine (line : string) (a : Account) : Account :=
  match splitEscaped line with
  | p0 :: p1 :: p2 :: p3 :: p4 :: p5 :: p6 :: _ =>
      let ty := if String.eqb p0 "E" then EveryXDays else MonthlyDay in
      match stoi p1 with
      | None => a
      | Some prm =>
          match stod p2 with
          | None => a
          | Some amt =>
              match tryParseDate p4 with
              | None => a
              | Some nd =>
                  let s := mkSchedule ty prm amt p6 (is_true_flag p3) nd p5 in
                  if scheduleSkipped s then a
                  else set_schedules a (schedules a ++ [s])
              end
          end
      end
  | _ => a
  end.

Definition loadTxLine (line : string) (a : Account) : Account :=
  match splitEscaped line with
  | p0 :: p1 :: p2 :: p3 :: _ =>
      match tryParseDate p0 with
      | None => a
      | Some dt =>
          match stod p1 with
          | None => a
          | Some amt =>
              let t := mkTx dt amt p2 p3 in
              let nk := normalizeKey p2 in
              mkAccount (balance a) (txs a ++ [t]) (schedules a) (allocationPct a)
                (categoryBalances a) (StrMap.ensure nk p2 (displayNames a))
                (interestMap a) (settings a)
          end
      end
  | _ => a
  end.

Definition set_settings (a : Account) (st : Settings) : Account :=
  mkAccount (balance a) (txs a) (schedules a) (allocationPct a) (categoryBalances a)
    (displayNames a) (interestMap a) st.

(** The body of [while (getline(ifs, line))]. *)
Definition loadLine (today : Date) (l : LoadState) (line : string) : LoadState :=
  let enter sec := mkLoad sec (ld_acc l) (savedBalance l) (hadSavedBalance l) in
  let keep a := mkLoad (ld_sec l) a (savedBalance l) (hadSavedBalance l) in
  if String.eqb line "SETTINGS" then enter SettingsSec
  else if String.eqb line "INTERESTS" then enter InterestSec
  else if String.eqb line "ALLOCATIONS" then enter Alloc
  else if String.eqb line "CATEGORIES" then enter Cats
  else if String.eqb line "SCHEDULES" then enter Scheds
  else if String.eqb line "TXS" then enter Txs
  else if has_balance_prefix line then
    match stod (String.substring 8 (String.length line - 8) line) with
    | Some v => mkLoad (ld_sec l) (ld_acc l) v true
    | None => l
    end
  else
    match ld_sec l with
    | NoSec => l
    | SettingsSec => keep (set_settings (ld_acc l) (loadSettingsLine line (settings (ld_acc l))))
    | InterestSec => keep (loadInterestLine today line (ld_acc l))
    | Alloc => keep (loadAllocLine line (ld_acc l))
    | Cats => keep (loadCategoryLine line (ld_acc l))
    | Scheds => keep (loadScheduleLine line (ld_acc l))
    | Txs => keep (loadTxLine line (ld_acc l))
    end.

(** The first reconciliation loop: category sums from the transactions,
    with the display names completed on the way. *)
Definition recomputeStep (st : StrMap.t Q * StrMap.t string) (t : Transaction)
  : StrMap.t Q * StrMap.t string :=
  let '(rc, dn) := st in
  let nk := normalizeKey (tx_category t) in
  let rc := StrMap.ensure nk 0%Q rc in
  let rc := StrMap.put nk (StrMap.get 0%Q nk rc + tx_amount t)%Q rc in
  (rc, StrMap.ensure nk (tx_category t) dn).

(** The loop over [allocationPct] that completes the two other maps. *)
Definition completeStep (st : StrMap.t string * StrMap.t Q) (p : string * Q)
  : StrMap.t string * StrMap.t Q :=
  let '(dn, cb) := st in
  (StrMap.ensure (fst p) (fst p) dn, StrMap.ensure (fst p) 0%Q cb).

(** [computedBalance]: the amounts added up in log order from [0.0]. *)
Definition sumAmounts (l : list Transaction) : Q :=
  fold_left (fun acc t => (acc + tx_amount t)%Q) l 0%Q.

(** What [loadFromFile] does after the file is closed. *)
Definition reconcile (l : LoadState) : Account :=
  let a := ld_acc l in
  let '(recomputedCats, dn) := fold_left recomputeStep (txs a) ([], displayNames a) in
  let recomputedCats :=
    fold_left (fun rc p => StrMap.ensure (fst p) (snd p) rc) (categoryBalances a)
      recomputedCats in
  let '(dn, cb) := fold_left completeStep (allocationPct a) (dn, recomputedCats) in
  let computedBalance := sumAmounts (txs a) in
  let bal :=
    if Qeq_bool computedBalance 0 && hadSavedBalance l then savedBalance l
    else computedBalance in
  mkAccount bal (txs a) (schedules a) (allocationPct a) cb dn (interestMap a) (settings a).

(** The state right after a successful open: every container cleared
    and the settings reset; [balance] is only assigned at the end. *)
Definition loadStart (a : Account) : LoadState :=
  mkLoad NoSec (mkAccount (balance a) [] [] [] [] [] [] defaultSettings) 0%Q false.

(** [loadFromFile]: the result flag and the account afterwards.  [today]
    is the clock reading used for an unreadable interest start date. *)
Definition loadFromFile (fs : FileSystem) (today : Date) (filename : string) (a : Account)
  : bool * Account :=
  match openStore fs filename with
  | None => (false, a)
  | Some lines => (true, reconcile (fold_left (loadLine today) lines (loadStart a)))
  end.

(* ================================================================== *)
(** ** Scenarios and properties referred to by the theorems *)

(** An account with every container empty. *)
Definition emptyAccount : Account := mkAccount 0%Q [] [] [] [] [] [] defaultSettings.

(** A note with a backslash, and the record line holding it. *)
Definition pathNote : string := "C:\temp".

Definition multilineNote : string := String "a"%char (String newline (String "b"%char EmptyString)).

(** A store whose two transactions cancel out, with a stored total. *)
Definition cancellingStore : list string :=
  ["BALANCE 50.0000000000"; "TXS";
   "2024-01-01|100.0000000000|Other|in"; "2024-01-02|-100.0000000000|Other|out"].

Definition cancellingFs : FileSystem :=
  fun p => if String.eqb p "finance_save.txt" then Some cancellingStore else None.

(** A store with a single interest line. *)
Definition interestOnlyFs : FileSystem :=
  fun p =>
    if String.eqb p "finance_save.txt"
    then Some ["INTERESTS"; "Bonds|1|1|2024-01-01|2024-01-01"] else None.

(** No file can be opened. *)
Definition noFiles : FileSystem := fun _ => None.

(** One income of 100 in "Other" and a monthly 1% rule on it, started
    and last applied on 2024-01-01. *)
Definition interestScenario : Account :=
  set_interestMap
    (addManualTransaction (mkDate 2024 1 1) 100%Q "Other" "Initial income" emptyAccount)
    [("other", mkInterest "other" 1%Q true (mkDate 2024 1 1) (mkDate 2024 1 1))].

(** The same ledger with a second rule that only starts in 2025. *)
Definition twoRuleScenario : Account :=
  set_interestMap interestScenario
    [("other", mkInterest "other" 1%Q true (mkDate 2024 1 1) (mkDate 2024 1 1));
     ("saving", mkInterest "saving" 1%Q true (mkDate 2025 1 1) (mkDate 2025 1 1))].

(** A monthly schedule on day 31, posted directly, due on 2024-01-31. *)
Definition monthEndSchedule : Schedule :=
  mkSchedule MonthlyDay 31 10%Q "rent" false (mkDate 2024 1 31) "Other".

Definition monthEndScenario : Account := set_schedules newAccount [monthEndSchedule].

(** The total balance agrees with the transaction log. *)
Definition reconciled (a : Account) : Prop := (balance a == sumAmounts (txs a))%Q.

(** The total balance is the sum of the log amounts as the code adds
    them up: from [0.0], one amount after the other in log order.  The
    equality is that of the two computations, not of their values, so it
    does not rest on the additions being exact. *)
Definition balanceIsLogSum (a : Account) : Prop := balance a = sumAmounts (txs a).

(** A field without backslash and without newline. *)
Definition plainChar (c : ascii) : bool :=
  negb (Ascii.eqb c backslash) && negb (Ascii.eqb c newline).

Fixpoint plainField (s : string) : bool :=
  match s with
  | EmptyString => true
  | String c r => plainChar c && plainField r
  end.

(** One step of the running total. *)
Definition addAmount (acc : Q) (t : Transaction) : Q := (acc + tx_amount t)%Q.

(** [a'] has the log of [a] followed by [added], and its balance is the
    balance of [a] with the added amounts added one after the other, as
    the code does. *)
Definition posted (a a' : Account) (added : list Transaction) : Prop :=
  txs a' = (txs a ++ added)%list /\ balance a' = fold_left addAmount added (balance a).

(** The three category maps have the same keys. *)
Definition categoryMapsAgree (a : Account) : Prop :=
  forall k : string,
    StrMap.mem k (displayNames a) = StrMap.mem k (categoryBalances a)
    /\ StrMap.mem k (categoryBalances a) = StrMap.mem k (allocationPct a).

(** Every key of [allocationPct] has a display name and a balance. *)
Definition allocationKeysCovered (a : Account) : Prop :=
  forall k : string,
    StrMap.mem k (allocationPct a) = true ->
    StrMap.mem k (displayNames a) = true /\ StrMap.mem k (categoryBalances a) = true.

(** Every key of [categoryBalances] has a display name. *)
Definition balancesNamed (a : Account) : Prop :=
  forall k : string,
    StrMap.mem k (categoryBalances a) = true -> StrMap.mem k (displayNames a) = true.

(** The category of every interest rule has a display name. *)
Definition rulesNamed (a : Account) : Prop :=
  Forall (fun p => StrMap.mem (categoryNormalized (snd p)) (displayNames a) = true)
    (interestMap a).

(** The keys of the category maps are nested: allocation keys within
    balance keys within display names, interest categories included. *)
Definition categoryKeysNested (a : Account) : Prop :=
  allocationKeysCovered a /\ balancesNamed a /\ rulesNamed a.

(** From [a] to [a'], the display names and the balance keys only grow,
    every new balance key has a display name, and the interest rules are
    the same. *)
Definition categoriesGrow (a a' : Account) : Prop :=
  (forall k, StrMap.mem k (displayNames a) = true -> StrMap.mem k (displayNames a') = true)
  /\ (forall k, StrMap.mem k (categoryBalances a) = true ->
                StrMap.mem k (categoryBalances a') = true)
  /\ (forall k, StrMap.mem k (categoryBalances a') = true ->
                StrMap.mem k (categoryBalances a) = true
                \/ StrMap.mem k (displayNames a') = true)
  /\ interestMap a' = interestMap a.

(** An operation that keeps the allocation map and lets the two other
    maps grow with named keys only. *)
Definition ledgerStep (a a' : Account) : Prop :=
  allocationPct a' = allocationPct a /\ categoriesGrow a a'.

(** What every record line keeps while the store is read. *)
Definition namesKept (a : Account) : Prop := balancesNamed a /\ rulesNamed a.

(** The name under which [allocateAmount] posts the share of key [k]. *)
Definition displayOrKey (k : string) (dn : StrMap.t string) : string :=
  if is_empty (StrMap.get EmptyString k dn) then k else StrMap.get EmptyString k dn.

(** Months are within 1..12, as in every date [mktime] returns. *)
Definition monthInRange (d : Date) : Prop := 1 <= month d <= 12.

(** What [applyInterestUpTo] leaves in a rule: the last-applied date of a
    processed rule is moved and capped at the target date. *)
Definition advanceRule (upTo : Date) (ie : InterestEntry) : InterestEntry :=
  if interestProcessed upTo ie then
    let fromDate := interestFrom ie in
    let last := addMonths fromDate (monthsBetweenInclusive fromDate upTo) in
    set_lastAppliedDate ie (if date_gtb last upTo then upTo else last)
  else ie.

(* ================================================================== *)
(** ** Further notions used by the properties of the code *)

(** What the scan of [splitEscaped] makes of an escaped newline: the
    letter after the backslash. *)
Definition newlineToN (c : ascii) : ascii := if Ascii.eqb c newline then letter_n else c.

(** Every character of the string passes the test. *)
Fixpoint string_forallb (f : ascii -> bool) (s : string) : bool :=
  match s with
  | EmptyString => true
  | String c r => f c && string_forallb f r
  end.

(** No white space at either end. *)
Definition trimmed (s : string) : Prop := trim_front s = s /\ trim_back s = s.
(** A letter, a digit or a blank. *)
Definition alnum_or_blank (c : ascii) : bool := is_alnum c || Ascii.eqb c " "%char.

(** A calendar date: month 1..12 and day within the month. *)
Definition validDateb (d : Date) : bool :=
  (1 <=? month d) && (month d <=? 12)
  && (1 <=? day d) && (day d <=? daysInMonth (year d) (month d)).

Definition validDate (d : Date) : Prop := validDateb d = true.

(** The day number [mktime] gives a date. *)
Definition dayNumber (d : Date) : Z := days_from_civil (year d) (month d) (day d).

(** The Gregorian leap-year rule. *)
Definition leapYear (y : Z) : Prop := y mod 4 = 0 /\ (y mod 100 <> 0 \/ y mod 400 = 0).

(** Days of the year before month [m], and the day number of January 1. *)
Definition monthOffset (y m : Z) : Z :=
  nth (Z.to_nat (m - 1)) [0; 31; 59; 90; 120; 151; 181; 212; 243; 273; 304; 334] 0
  + (if (3 <=? m) && (daysInMonth y 2 =? 29) then 1 else 0).

Definition yearStart (y : Z) : Z := days_from_civil y 1 1.

(** The dates the clock holds wherever the program is built: [mktime] of
    the Microsoft runtime refuses dates before 1970 and a 32-bit
    [time_t] ends on 2038-01-19, so the day numbers (days since
    1970-01-01) 1 .. 24854 are safe everywhere.  On them [tm_mday + days]
    is far inside [int]. *)
Definition CLOCK_DAYS : Z := 24854.

Definition clockDay (z : Z) : Prop := 1 <= z <= CLOCK_DAYS.

Definition inClock (d : Date) : Prop := clockDay (dayNumber d).

(** The position of a month on the line of all months. *)
Definition monthIndex (d : Date) : Z := year d * 12 + month d.

(** The character of a decimal digit. *)
Definition digit_char (n : Z) : ascii := ascii_of_nat (Z.to_nat (48 + n)).

(** The decimal digits of a non-negative number, most significant first;
    [fuel] bounds the number of digits (an [int] has at most ten). *)
Fixpoint decimal_digits (fuel : nat) (n : Z) (acc : string) : string :=
  match fuel with
  | O => acc
  | S fuel' =>
      let acc' := String (digit_char (n mod 10)) acc in
      if n <? 10 then acc' else decimal_digits fuel' (n / 10) acc'
  end.

Definition decimal (n : Z) : string :=
  if n <? 0 then String "-"%char (decimal_digits 12 (- n) EmptyString)
  else decimal_digits 12 n EmptyString.

(** Two digits with a leading zero, as [%m] and [%d] print. *)
Definition two_digits (n : Z) : string :=
  String (digit_char (n / 10)) (String (digit_char (n mod 10)) EmptyString).

(** [toDateString]: [strftime] with ["%Y-%m-%d"]; the year is printed in
    plain decimal, which is four digits for the years 1000..9999. *)
Definition toDateString (tp : Date) : string :=
  decimal (year tp) ++ "-" ++ two_digits (month tp) ++ "-" ++ two_digits (day tp).

(** The sum of the log amounts posted under the category key [k]. *)
Definition categorySum (k : string) (l : list Transaction) : Q :=
  fold_left
    (fun acc t =>
       if String.eqb (normalizeKey (tx_category t)) k then (acc + tx_amount t)%Q else acc)
    l 0%Q.

(** Every category balance is the sum of the transactions of its key. *)
Definition balancesMatchLog (a : Account) : Prop :=
  forall k : string,
    (StrMap.get 0%Q k (categoryBalances a) == categorySum k (txs a))%Q.

(** Every display name normalises to the key it is stored under. *)
Definition namesNormalised (a : Account) : Prop :=
  forall k v, StrMap.find k (displayNames a) = Some v -> normalizeKey v = k.

(** The category maps are nested, named consistently, and agree with the
    log. *)
Definition ledgerConsistent (a : Account) : Prop :=
  categoryKeysNested a /\ namesNormalised a /\ balancesMatchLog a.

(** The key under which [setAllocation] and [ensureCategoryExists] file
    a raw category name. *)
Definition categoryKey (raw : string) : string := normalizeKey (sanitizeDisplayName raw).

(** Two schedules that differ at most in [nextDate]. *)
Definition sameScheduleRule (s s' : Schedule) : Prop :=
  sched_type s' = sched_type s /\ param s' = param s
  /\ sched_amount s' = sched_amount s /\ sched_note s' = sched_note s
  /\ autoAllocate s' = autoAllocate s /\ sched_category s' = sched_category s.

(** The next date of the schedule is within the clock, and so is the
    latest date one more firing can reach from a date that is due: a
    firing moves a day-interval schedule by [param] days and a monthly
    one by at most 31 days. *)
Definition scheduleInClock (upTo : Date) (s : Schedule) : Prop :=
  inClock (nextDate s)
  /\ dayNumber upTo
     + match sched_type s with EveryXDays => param s | MonthlyDay => 31 end
     <= CLOCK_DAYS.

(** The schedule is past the validation gate and due at [upTo]. *)
Definition scheduleDue (upTo : Date) (s : Schedule) : bool :=
  negb (scheduleSkipped s) && date_leb (nextDate s) upTo.

(** The most transactions one firing can post. *)
Definition postsPerFiring (a : Account) : nat := Nat.max 1 (List.length (allocationPct a)).

(** How often a day-interval schedule is due up to a date: once for its
    next date and once more for every whole interval that fits. *)
Definition firingsDue (upTo : Date) (s : Schedule) : Z :=
  if date_leb (nextDate s) upTo
  then (dayNumber upTo - dayNumber (nextDate s)) / param s + 1
  else 0.

(** A schedule of the day-interval kind that the loop can bring up to
    date within its guard and within the clock. *)
Definition dayScheduleInGuard (upTo : Date) (s : Schedule) : Prop :=
  sched_type s = EveryXDays /\ validDate (nextDate s)
  /\ scheduleInClock upTo s
  /\ firingsDue upTo s <= Z.of_nat GUARD_LIMIT.

(** A weekly posting of 50 to "Other", due from 2024-01-01. *)
Definition weeklySchedule : Schedule :=
  mkSchedule EveryXDays 7 50%Q "Pocket money" false (mkDate 2024 1 1) "Other".

Definition weeklyScenario : Account := set_schedules newAccount [weeklySchedule].

(** What an interest transaction of rule [ie] looks like when interest
    is applied up to [upTo]. *)
Definition interestPosting (upTo : Date) (ie : InterestEntry) (t : Transaction) : Prop :=
  tx_note t = interestNote ie
  /\ validDate (tx_date t)
  /\ date_leb (interestFrom ie) (tx_date t) = true
  /\ date_leb (tx_date t) upTo = true
  /\ ~ (tx_amount t == 0)%Q
  /\ ((0 <= ratePct ie)%Q -> (0 < tx_amount t)%Q).

(** The monthly rate of a rule, as [applyInterestUpTo] computes it. *)
Definition monthlyRateOf (ie : InterestEntry) : Q :=
  if monthly ie then (ratePct ie / 100)%Q else ((ratePct ie / 100) / 12)%Q.

(** The dates of a rule are calendar dates. *)
Definition ruleDatesValid (ie : InterestEntry) : Prop :=
  validDate (startDate ie) /\ validDate (lastAppliedDate ie).

Definition set_balance (q : Q) (a : Account) : Account :=
  mkAccount q (txs a) (schedules a) (allocationPct a) (categoryBalances a)
    (displayNames a) (interestMap a) (settings a).

Definition set_ld_balance (q : Q) (l : LoadState) : LoadState :=
  mkLoad (ld_sec l) (set_balance q (ld_acc l)) (savedBalance l) (hadSavedBalance l).

(** Whether the log has a transaction under the category key [k]. *)
Definition hasTransactions (k : string) (l : list Transaction) : bool :=
  existsb (fun t => String.eqb (normalizeKey (tx_category t)) k) l.

(** What a store that was read leaves in the account: schedules that
    pass the validation gate, calendar dates throughout, and interest
    rules stored under the key of their category. *)
Definition wellLoaded (today : Date) (a : Account) : Prop :=
  Forall (fun s => scheduleSkipped s = false /\ validDate (nextDate s)) (schedules a)
  /\ Forall (fun t => validDate (tx_date t)) (txs a)
  /\ Forall
       (fun p =>
          categoryNormalized (snd p) = fst p
          /\ (validDate today ->
              validDate (startDate (snd p)) /\ validDate (lastAppliedDate (snd p))))
       (interestMap a).

(** A store with every section: the [CATEGORIES] section holds a stale
    balance for "Saving", whose two transactions add up to 150. *)
Definition fullStore : list string :=
  ["BALANCE 150.0000000000"; "SETTINGS"; "AUTO_SAVE|1";
   "INTERESTS"; "Saving|1|1|2024-01-01|2024-01-01";
   "ALLOCATIONS"; "Saving|100";
   "CATEGORIES"; "Saving|999"; "Other|5";
   "SCHEDULES"; "E|7|50|0|2024-02-01|Other|Pocket money"; "M|40|50|0|2024-02-01|Other|Bad day";
   "TXS"; "2024-01-01|100|Saving|in"; "2024-01-02|50|Saving|in"].

Definition fullFs : FileSystem :=
  fun p => if String.eqb p "finance_save.txt" then Some fullStore else None.

(* ================================================================== *)
(** * Properties *)

(** ** Association lists as maps *)

Module StrMapFacts.
Import StrMap.

Section Facts.
Context {V : Type}.
Implicit Types (m : list (string * V)) (k : string) (v : V).

Lemma find_put k k' v m :
  find k' (put k v m) = if String.eqb k' k then Some v else find k' m.
Proof.
  induction m as [|[k0 v0] r IH]; simpl.
  - reflexivity.
  - destruct (String.compare k k0) eqn:C; simpl.
    + apply String.compare_eq_iff in C; subst k0.
      destruct (String.eqb k' k); reflexivity.
    + destruct (String.eqb k' k) eqn:E; [reflexivity|]. reflexivity.
    + rewrite IH.
      destruct (String.eqb k' k0) eqn:E0; [|reflexivity].
      destruct (String.eqb k' k) eqn:E; [|reflexivity].
      apply String.eqb_eq in E0, E; subst.
      pose proof (String.compare_antisym k0 k0) as A; rewrite C in A; discriminate.
Qed.

Lemma mem_put k k' v m : mem k' (put k v m) = String.eqb k' k || mem k' m.
Proof.
  unfold mem; rewrite find_put; destruct (String.eqb k' k); reflexivity.
Qed.

Lemma mem_ensure k k' v m : mem k' (ensure k v m) = String.eqb k' k || mem k' m.
Proof.
  unfold ensure; destruct (mem k m) eqn:M.
  - destruct (String.eqb k' k) eqn:E; [|reflexivity].
    apply String.eqb_eq in E; subst; simpl; exact M.
  - apply mem_put.
Qed.

Lemma mem_put_mono k k' v m : mem k' m = true -> mem k' (put k v m) = true.
Proof. intros H; rewrite mem_put, H; apply orb_true_r. Qed.

Lemma mem_ensure_mono k k' v m : mem k' m = true -> mem k' (ensure k v m) = true.
Proof. intros H; rewrite mem_ensure, H; apply orb_true_r. Qed.

Lemma mem_put_same k v m : mem k (put k v m) = true.
Proof. rewrite mem_put, String.eqb_refl; reflexivity. Qed.

Lemma mem_ensure_same k v m : mem k (ensure k v m) = true.
Proof. rewrite mem_ensure, String.eqb_refl; reflexivity. Qed.

Lemma mem_cons k k0 v0 m : mem k ((k0, v0) :: m) = String.eqb k k0 || mem k m.
Proof. unfold mem; simpl; destruct (String.eqb k k0); reflexivity. Qed.

Lemma Forall_put (P : string * V -> Prop) k v m :
  P (k, v) -> Forall P m -> Forall P (put k v m).
Proof.
  intros Hk; induction 1 as [|[k0 v0] r H0 Hr IH]; simpl.
  - constructor; [exact Hk | constructor].
  - destruct (String.compare k k0).
    + constructor; assumption.
    + constructor; [exact Hk | constructor; assumption].
    + constructor; assumption.
Qed.

End Facts.

(** Reading a name with the empty default does not see the empty names
    that [operator[]] inserts. *)
Lemma get_ensure_empty k k' (m : list (string * string)) :
  get EmptyString k' (ensure k EmptyString m) = get EmptyString k' m.
Proof.
  unfold ensure, get; destruct (mem k m) eqn:M; [reflexivity|].
  rewrite find_put; destruct (String.eqb k' k) eqn:E; [|reflexivity].
  apply String.eqb_eq in E; subst k'.
  unfold mem in M; destruct (find k m); [discriminate|reflexivity].
Qed.

Lemma find_map_values {A B : Type} (f : A -> B) k (m : list (string * A)) :
  find k (map (fun p => (fst p, f (snd p))) m) = option_map f (find k m).
Proof.
  induction m as [|[k0 v0] r IH]; simpl; [reflexivity|].
  destruct (String.eqb k k0); [reflexivity|exact IH].
Qed.

(** Maps with the same keys in the same order have the same members. *)
Lemma mem_same_keys {A B : Type} k (m1 : list (string * A)) (m2 : list (string * B)) :
  keys m1 = keys m2 -> mem k m1 = mem k m2.
Proof.
  revert m2; induction m1 as [|[k1 v1] r1 IH]; intros [|[k2 v2] r2] H;
    try discriminate H; [reflexivity|].
  simpl in H; inversion H; subst.
  rewrite !mem_cons, (IH r2); [reflexivity|assumption].
Qed.

End StrMapFacts.

(* ================================================================== *)
(** ** The escaped record codec *)

(** Escaping never leaves a bare delimiter: the scan alone recovers the
    fields of a pipe-only text. *)
Example splitEscaped_pipe_field :
  splitEscaped (joinEscaped ["a|b"; "c"]) = ["a|b"; "c"].
Proof. reflexivity. Qed.

Lemma append_nil_r (s : string) : s ++ EmptyString = s.
Proof. induction s as [|c r IH]; simpl; [reflexivity | rewrite IH; reflexivity]. Qed.

Lemma push_back_append (cur : string) (c : ascii) (r : string) :
  push_back cur c ++ r = cur ++ String c r.
Proof.
  unfold push_back; induction cur as [|c0 cur IH]; simpl;
    [reflexivity | rewrite IH; reflexivity].
Qed.

(** The scan reads an escaped plain field back into [cur]: the only
    escapes in it are those of the delimiter. *)
Lemma splitLoop_plain_field (f rest : string) :
  plainField f = true ->
  forall parts cur,
    splitLoop (escapeForSave f ++ rest) parts cur false
    = splitLoop rest parts (cur ++ f) false.
Proof.
  induction f as [|c f IH]; intros P parts cur; simpl.
  - rewrite append_nil_r; reflexivity.
  - simpl in P. apply andb_true_iff in P; destruct P as [Pc Pf].
    unfold plainChar in Pc. apply andb_true_iff in Pc; destruct Pc as [Pb Pn].
    apply negb_true_iff in Pb, Pn. rewrite Pb.
    destruct (Ascii.eqb c pipe) eqn:Ep.
    + apply Ascii.eqb_eq in Ep; subst c. simpl.
      rewrite (IH Pf), push_back_append; reflexivity.
    + rewrite Pn; simpl. rewrite Pb, Ep.
      rewrite (IH Pf), push_back_append; reflexivity.
Qed.

Lemma unescapeLoaded_plain (f : string) : plainField f = true -> unescapeLoaded f = f.
Proof.
  induction f as [|c f IH]; intros P; simpl; [reflexivity|].
  simpl in P. apply andb_true_iff in P; destruct P as [Pc Pf].
  unfold plainChar in Pc. apply andb_true_iff in Pc; destruct Pc as [Pb _].
  apply negb_true_iff in Pb. rewrite Pb, (IH Pf); reflexivity.
Qed.

Lemma splitLoop_plain_fields (fs : list string) :
  forall f parts,
    forallb plainField (f :: fs) = true ->
    let '(ps, cur) := splitLoop (joinEscaped (f :: fs)) parts EmptyString false in
    (ps ++ [cur] = parts ++ f :: fs)%list.
Proof.
  induction fs as [|g gs IH]; intros f parts P.
  - simpl in P. rewrite andb_true_r in P.
    unfold joinEscaped; simpl.
    rewrite <- (append_nil_r (escapeForSave f)), (splitLoop_plain_field f _ P).
    reflexivity.
  - cbn [forallb] in P. apply andb_true_iff in P; destruct P as [Pf Pg].
    unfold joinEscaped. cbn [map String.concat].
    rewrite (splitLoop_plain_field f _ Pf). cbn [append splitLoop].
    change (Ascii.eqb pipe backslash) with false.
    change (Ascii.eqb pipe pipe) with true. cbv iota.
    specialize (IH g (parts ++ [f])%list Pg). unfold joinEscaped in IH.
    cbn [map] in IH.
    destruct (splitLoop _ (parts ++ [f])%list EmptyString false) as [ps cur].
    rewrite IH, <- app_assoc; reflexivity.
Qed.

(** Where the round trip does hold: fields without backslash and
    without newline (the delimiter is allowed). *)
Lemma splitEscaped_roundtrip_plain (fields : list string) :
  fields <> [] ->
  forallb plainField fields = true ->
  splitEscaped (joinEscaped fields) = fields.
Proof.
  destruct fields as [|f fs]; [intros H; contradiction H; reflexivity|].
  intros _ P. unfold splitEscaped.
  pose proof (splitLoop_plain_fields fs f [] P) as H.
  destruct (splitLoop _ [] EmptyString false) as [ps cur].
  rewrite H; simpl app.
  clear H. revert P. generalize (f :: fs). intros l.
  induction l as [|x l IH]; intros P; simpl; [reflexivity|].
  simpl in P. apply andb_true_iff in P; destruct P as [Px Pl].
  rewrite (unescapeLoaded_plain x Px), (IH Pl); reflexivity.
Qed.

(** C1 (code at the failing input).  The round trip
    [splitEscaped (join (map escapeForSave fields)) = fields] does not
    hold for a field with a backslash or a newline: the scan of
    [splitEscaped] already removes the escaping backslashes, and the
    [unescapeLoaded] pass that follows unescapes a second time.  The note
    [C:\temp] comes back as [C:temp], and a note with a newline comes
    back with the letter [n] in its place. *)
Theorem splitEscaped_roundtrip_fails :
  splitEscaped (joinEscaped [pathNote]) = ["C:temp"]
  /\ splitEscaped (joinEscaped [pathNote]) <> [pathNote]
  /\ splitEscaped (joinEscaped [multilineNote]) = ["anb"]
  /\ splitEscaped (joinEscaped [multilineNote]) <> [multilineNote].
Proof.
  repeat split; try reflexivity; vm_compute; discriminate.
Qed.

(* ================================================================== *)
(** ** Calendar *)

Lemma date_leb_refl (d : Date) : date_leb d d = true.
Proof.
  unfold date_leb, date_ltb.
  rewrite !Z.ltb_irrefl, !Z.eqb_refl; reflexivity.
Qed.

Lemma date_leb_of_not_gtb (a b : Date) : date_gtb a b = false -> date_leb a b = true.
Proof. unfold date_gtb, date_leb; intros ->; reflexivity. Qed.

Lemma date_ltb_spec (a b : Date) :
  date_ltb a b = true <->
  year a < year b
  \/ (year a = year b /\ (month a < month b \/ (month a = month b /\ day a < day b))).
Proof.
  unfold date_ltb.
  rewrite !orb_true_iff, !andb_true_iff, !orb_true_iff, !andb_true_iff,
    !Z.ltb_lt, !Z.eqb_eq.
  tauto.
Qed.

Lemma date_ltb_false (a b : Date) :
  date_ltb a b = false <->
  year b < year a
  \/ (year a = year b /\ (month b < month a \/ (month a = month b /\ day b <= day a))).
Proof.
  rewrite <- Bool.not_true_iff_false, date_ltb_spec. lia.
Qed.

Example addMonths_clamps_leap : addMonths (mkDate 2024 1 31) 1 = mkDate 2024 2 29.
Proof. reflexivity. Qed.

Example addMonths_clamps_common : addMonths (mkDate 2023 1 31) 1 = mkDate 2023 2 28.
Proof. reflexivity. Qed.

Example monthsBetweenInclusive_same_day :
  monthsBetweenInclusive (mkDate 2024 1 1) (mkDate 2024 1 1) = 1.
Proof. reflexivity. Qed.

(** When the start is not after the end, and months are in range, at
    least one month is counted. *)
Lemma monthsBetweenInclusive_pos (s e : Date) :
  monthInRange s -> monthInRange e -> date_leb s e = true ->
  0 < monthsBetweenInclusive s e.
Proof.
  unfold monthInRange, monthsBetweenInclusive, date_leb.
  intros Hs He Hle. apply negb_true_iff in Hle. rewrite Hle.
  apply date_ltb_false in Hle.
  destruct (day e >=? day s) eqn:D.
  - lia.
  - rewrite Z.geb_leb in D. apply Z.leb_gt in D. lia.
Qed.

(** C6 (code at the failing input).  [nextMonthlyOn] is meant to return
    a date strictly after [fromDate], but from the last day of a month
    shorter than the target day it returns [fromDate] itself: the test
    [curDay < day] holds (29 < 31), and this month's occurrence clamped
    to the month length is day 29 again. *)
Theorem nextMonthlyOn_not_strictly_later :
  nextMonthlyOn (mkDate 2024 2 29) 31 = mkDate 2024 2 29
  /\ date_ltb (mkDate 2024 2 29) (nextMonthlyOn (mkDate 2024 2 29) 31) = false.
Proof. split; reflexivity. Qed.

(* ================================================================== *)
(** ** Schedules *)

(** C5 (code at the failing input).  The month-end schedule (day 31,
    due 2024-01-31) processed up to 2024-04-30 should fire on 01-31,
    02-29, 03-31 and 04-30.  The code fires on 01-31 and then on 02-29
    over and over, because [nextMonthlyOn] does not move past 02-29: the
    loop only stops at the guard limit, with 10000 transactions posted
    and the next occurrence still 2024-02-29, not after the target. *)
Theorem processSchedulesUpTo_month_end_stuck :
  let a' := processSchedulesUpTo (mkDate 2024 4 30) monthEndScenario in
  Z.of_nat (List.length (txs a')) = 10000
  /\ map tx_date (firstn 4 (txs a'))
     = [mkDate 2024 1 31; mkDate 2024 2 29; mkDate 2024 2 29; mkDate 2024 2 29]
  /\ map nextDate (schedules a') = [mkDate 2024 2 29]
  /\ forallb (fun s => date_gtb (nextDate s) (mkDate 2024 4 30)) (schedules a') = false.
Proof. vm_compute. repeat split. Qed.

(* ================================================================== *)
(** ** Interest *)

(** C3 (code at the failing input).  In the scenario (100 in "Other" on
    2024-01-01, a monthly 1% rule started and last applied on
    2024-01-01, target 2024-03-01) two interest postings are expected,
    in February and March.  The code counts three months from the
    anchor and applies the first one on the anchor date itself: it posts
    1 on 2024-01-01, 1.01 on 2024-02-01 and 1.0201 on 2024-03-01. *)
Theorem applyInterestUpTo_posts_on_anchor :
  let a' := applyInterestUpTo (mkDate 2024 3 1) interestScenario in
  map (fun t => (tx_date t, Qred (tx_amount t))) (txs a')
  = [(mkDate 2024 1 1, 100%Q);
     (mkDate 2024 1 1, 1%Q);
     (mkDate 2024 2 1, (101 # 100)%Q);
     (mkDate 2024 3 1, (10201 # 10000)%Q)]
  /\ map (fun t => tx_note t) (skipn 1 (txs a'))
     = ["Interest (monthly)"; "Interest (monthly)"; "Interest (monthly)"]
  /\ monthsBetweenInclusive (mkDate 2024 1 1) (mkDate 2024 3 1) = 3.
Proof. vm_compute. repeat split. Qed.

(* ================================================================== *)
(** ** The loader *)

(** The balance the loader settles on, and when it agrees with the log. *)
Lemma reconcile_balance (l : LoadState) :
  txs (reconcile l) = txs (ld_acc l)
  /\ balance (reconcile l)
     = if Qeq_bool (sumAmounts (txs (ld_acc l))) 0 && hadSavedBalance l
       then savedBalance l else sumAmounts (txs (ld_acc l)).
Proof.
  unfold reconcile.
  destruct (fold_left recomputeStep _ _) as [rc dn].
  destruct (fold_left completeStep _ _) as [dn' cb'].
  split; reflexivity.
Qed.

Lemma reconcile_reconciled (l : LoadState) :
  hadSavedBalance l = false \/ ~ (sumAmounts (txs (ld_acc l)) == 0)%Q ->
  reconciled (reconcile l).
Proof.
  intros H. unfold reconciled.
  destruct (reconcile_balance l) as [T B]. rewrite T, B.
  destruct (Qeq_bool (sumAmounts (txs (ld_acc l))) 0) eqn:E; simpl.
  - destruct H as [H | H].
    + rewrite H; reflexivity.
    + exfalso; apply H, Qeq_bool_iff, E.
  - reflexivity.
Qed.

(** C2 (code at the failing input).  With transactions in the store the
    total must be their sum and the stored [BALANCE] discarded.  The
    code keeps the stored value whenever the recomputed sum is zero, so
    for two transactions +100 and -100 and a stored [BALANCE 50] it ends
    with balance 50 although the log sums to 0. *)
Theorem loadFromFile_keeps_stale_balance :
  let r := loadFromFile cancellingFs (mkDate 2024 6 1) "finance_save.txt" emptyAccount in
  fst r = true
  /\ map (fun t => Qred (tx_amount t)) (txs (snd r)) = [100%Q; (-100)%Q]
  /\ Qred (balance (snd r)) = 50%Q
  /\ Qred (sumAmounts (txs (snd r))) = 0%Q
  /\ ~ reconciled (snd r).
Proof.
  vm_compute. repeat split. discriminate.
Qed.

(** C10.  When neither the given path nor the bare file name in the
    working directory can be opened, [loadFromFile] returns [false] and
    the account is exactly as before: no field is cleared or reset. *)
Theorem loadFromFile_unopenable_unchanged :
  forall (fs : FileSystem) (today : Date) (filename : string) (a : Account),
    fs filename = None ->
    (path_filename filename = filename \/ fs (path_filename filename) = None) ->
    loadFromFile fs today filename a = (false, a).
Proof.
  intros fs today filename a Hopen Hlegacy.
  unfold loadFromFile, openStore. rewrite Hopen.
  destruct (String.eqb (path_filename filename) filename) eqn:E; simpl.
  - reflexivity.
  - destruct Hlegacy as [Hsame | Hnone].
    + rewrite Hsame, String.eqb_refl in E; discriminate.
    + rewrite Hnone; reflexivity.
Qed.

Lemma loadFromFile_unopenable_unchanged_witness :
  noFiles "data/save/finance_save.txt" = None
  /\ (path_filename "data/save/finance_save.txt" = "data/save/finance_save.txt"
      \/ noFiles (path_filename "data/save/finance_save.txt") = None)
  /\ loadFromFile noFiles (mkDate 2024 6 1) "data/save/finance_save.txt" interestScenario
     = (false, interestScenario).
Proof.
  split; [reflexivity|]. split; [right; reflexivity|].
  apply (loadFromFile_unopenable_unchanged noFiles (mkDate 2024 6 1)
           "data/save/finance_save.txt" interestScenario).
  - reflexivity.
  - right; reflexivity.
Defined.

(* ================================================================== *)
(** ** The log accounts for the balance *)

Lemma posted_refl a : posted a a [].
Proof. split; [symmetry; apply app_nil_r | reflexivity]. Qed.

Lemma posted_trans a b c l1 l2 :
  posted a b l1 -> posted b c l2 -> posted a c (l1 ++ l2).
Proof.
  intros [T1 B1] [T2 B2]; split.
  - rewrite T2, T1, app_assoc; reflexivity.
  - rewrite B2, B1, fold_left_app; reflexivity.
Qed.

(** Posting keeps the total in step with the log: both add the same
    amounts in the same order. *)
Lemma posted_log_sum a a' added :
  posted a a' added -> balanceIsLogSum a -> balanceIsLogSum a'.
Proof.
  unfold balanceIsLogSum; intros [T B] R.
  rewrite T, B, R. unfold sumAmounts. rewrite fold_left_app. reflexivity.
Qed.

Lemma addManualTransaction_posted date amount cat note a :
  exists added, posted a (addManualTransaction date amount cat note a) added.
Proof. eexists; split; reflexivity. Qed.

Lemma allocateShares_posted date amount note total l a :
  exists added,
    posted a (fold_left (allocateShare date amount note total) l a) added.
Proof.
  revert a; induction l as [|p l IH]; intros a; simpl.
  - exists []; apply posted_refl.
  - destruct (IH (allocateShare date amount note total a p)) as [l2 H2].
    eexists; eapply posted_trans; [|exact H2].
    split; reflexivity.
Qed.

Lemma allocateAmount_posted date amount note a :
  exists added, posted a (allocateAmount date amount note a) added.
Proof.
  unfold allocateAmount.
  destruct (Qle_bool (totalPct (allocationPct a)) epsilon).
  - eexists; split; reflexivity.
  - apply allocateShares_posted.
Qed.

Lemma fireOnce_posted s a :
  exists added, posted a (snd (fireOnce s a)) added.
Proof.
  unfold fireOnce; simpl.
  destruct (autoAllocate s && negb (Qle_bool (sched_amount s) 0)).
  - apply allocateAmount_posted.
  - apply addManualTransaction_posted.
Qed.

Lemma fireLoop_posted n upTo s a :
  exists added, posted a (snd (fireLoop n upTo s a)) added.
Proof.
  revert s a; induction n as [|n IH]; intros s a; cbn [fireLoop].
  - exists []; apply posted_refl.
  - destruct (date_leb (nextDate s) upTo).
    + destruct (fireOnce_posted s a) as [l1 H1].
      destruct (fireOnce s a) as [s' a'] eqn:F; simpl in H1.
      destruct (IH s' a') as [l2 H2].
      exists (l1 ++ l2)%list; eapply posted_trans; eassumption.
    + exists []; apply posted_refl.
Qed.

Lemma processSchedule_posted upTo s a :
  exists added, posted a (snd (processSchedule upTo s a)) added.
Proof.
  unfold processSchedule; destruct (scheduleSkipped s).
  - exists []; apply posted_refl.
  - apply fireLoop_posted.
Qed.

Lemma processScheduleList_posted upTo ss a :
  exists added, posted a (snd (processScheduleList upTo ss a)) added.
Proof.
  revert a; induction ss as [|s r IH]; intros a; cbn [processScheduleList].
  - exists []; apply posted_refl.
  - destruct (processSchedule_posted upTo s a) as [l1 H1].
    destruct (processSchedule upTo s a) as [s' a'] eqn:P; simpl in H1.
    destruct (IH a') as [l2 H2].
    destruct (processScheduleList upTo r a') as [r' a''] eqn:PL; simpl in *.
    eexists; eapply posted_trans; eassumption.
Qed.

Lemma processSchedulesUpTo_posted upTo a :
  exists added, posted a (processSchedulesUpTo upTo a) added.
Proof.
  unfold processSchedulesUpTo.
  destruct (processScheduleList_posted upTo (schedules a) a) as [l H].
  destruct (processScheduleList upTo (schedules a) a) as [ss a'] eqn:P; simpl in H.
  exists l; exact H.
Qed.

Lemma interestMonth_posted ie fromDate rate m a w :
  exists added, posted a (fst (interestMonth ie fromDate rate m (a, w))) added.
Proof.
  unfold interestMonth.
  destruct (Qle_bool _ 0); [exists []; apply posted_refl|].
  destruct (negb (Qeq_bool _ 0)); [|exists []; apply posted_refl].
  eexists; split; reflexivity.
Qed.

Lemma interestMonths_posted n ie fromDate rate m a w :
  exists added, posted a (fst (interestMonths n ie fromDate rate m (a, w))) added.
Proof.
  revert m a w; induction n as [|n IH]; intros m a w; cbn [interestMonths].
  - exists []; apply posted_refl.
  - destruct (interestMonth_posted ie fromDate rate m a w) as [l1 H1].
    destruct (interestMonth ie fromDate rate m (a, w)) as [a1 w1]; simpl in H1.
    destruct (IH (m + 1) a1 w1) as [l2 H2].
    eexists; eapply posted_trans; eassumption.
Qed.

Lemma interestRule_posted upTo ie a w :
  exists added, posted a (fst (snd (interestRule upTo ie (a, w)))) added.
Proof.
  unfold interestRule.
  destruct (date_gtb (startDate ie) upTo); [exists []; apply posted_refl|].
  destruct (_ <=? 0); [exists []; apply posted_refl|].
  simpl; apply interestMonths_posted.
Qed.

Lemma interestRules_posted upTo im a w :
  exists added, posted a (fst (snd (interestRules upTo im (a, w)))) added.
Proof.
  revert a w; induction im as [|[k ie] r IH]; intros a w; cbn [interestRules].
  - exists []; apply posted_refl.
  - destruct (interestRule_posted upTo ie a w) as [l1 H1].
    destruct (interestRule upTo ie (a, w)) as [ie' [a1 w1]]; simpl in H1.
    destruct (IH a1 w1) as [l2 H2].
    destruct (interestRules upTo r (a1, w1)) as [r' st'']; simpl in *.
    eexists; eapply posted_trans; eassumption.
Qed.

Lemma applyInterestUpTo_posted upTo a :
  exists added, posted a (applyInterestUpTo upTo a) added.
Proof.
  unfold applyInterestUpTo.
  destruct (interestMap a) as [|e r] eqn:IM; [exists []; apply posted_refl|].
  destruct (interestRules_posted upTo (e :: r) a (txs a)) as [l H].
  destruct (interestRules upTo (e :: r) (a, txs a)) as [im [a' w']]; simpl in H.
  exists l; exact H.
Qed.



(* ================================================================== *)
(** ** Allocation *)

(** What one share posting looks like for the entry [p]. *)
Lemma allocateShares_txs date amount note total dn0 l :
  forall a,
    (forall k, StrMap.get EmptyString k (displayNames a) = StrMap.get EmptyString k dn0) ->
    exists added,
      txs (fold_left (allocateShare date amount note total) l a) = (txs a ++ added)%list
      /\ Forall2
           (fun p t =>
              tx_date t = date
              /\ tx_amount t = (amount * (snd p / total))%Q
              /\ tx_category t = displayOrKey (fst p) dn0)
           l added.
Proof.
  induction l as [|p l IH]; intros a Hdn; simpl.
  - exists []; split; [symmetry; apply app_nil_r | constructor].
  - destruct (IH (allocateShare date amount note total a p)) as [added [HT HF]].
    + intros k; cbn [allocateShare displayNames].
      rewrite StrMapFacts.get_ensure_empty; apply Hdn.
    + eexists; split.
      * rewrite HT; cbn [allocateShare txs]; rewrite <- app_assoc; reflexivity.
      * constructor; [|exact HF].
        cbn [tx_date tx_amount tx_category]; repeat split.
        unfold displayOrKey.
        rewrite !StrMapFacts.get_ensure_empty, !Hdn; reflexivity.
Qed.

(** The shares of a list of entries add up to the amount times the
    fraction of the total that the entries hold. *)
Lemma sum_of_shares amount total l added :
  Forall2 (fun (p : string * Q) t => tx_amount t = (amount * (snd p / total))%Q) l added ->
  forall b c,
    (fold_left addAmount added b
     == b + amount * ((fold_left (fun acc p => acc + snd p) l c - c) / total))%Q.
Proof.
  induction 1 as [|p t l added Hpt HF IH]; intros b c; simpl.
  - unfold Qdiv; ring.
  - rewrite (IH (addAmount b t) (c + snd p)%Q).
    unfold addAmount; rewrite Hpt; unfold Qdiv; ring.
Qed.

(** C7.  For a positive amount and allocation percentages whose sum
    exceeds the threshold, [allocateAmount] appends exactly one
    transaction per allocation entry, in key order, each dated as asked
    and of amount [amount * (percent / totalPct)], and these shares add
    up to the amount (in exact rational arithmetic). *)
Theorem allocateAmount_splits_whole_amount :
  forall (a : Account) (date : Date) (amount : Q) (note : string),
    (0 < amount)%Q ->
    (epsilon < totalPct (allocationPct a))%Q ->
    exists added : list Transaction,
      txs (allocateAmount date amount note a) = (txs a ++ added)%list
      /\ Forall2
           (fun p t =>
              tx_date t = date
              /\ tx_amount t = (amount * (snd p / totalPct (allocationPct a)))%Q
              /\ tx_category t = displayOrKey (fst p) (displayNames a))
           (allocationPct a) added
      /\ (sumAmounts added == amount)%Q.
Proof.
  intros a date amount note Hpos Htotal.
  unfold allocateAmount.
  destruct (Qle_bool (totalPct (allocationPct a)) epsilon) eqn:E.
  - apply Qle_bool_iff in E. exfalso. apply (Qlt_not_le _ _ Htotal E).
  - destruct (allocateShares_txs date amount note (totalPct (allocationPct a))
                (displayNames a) (allocationPct a) a (fun k => eq_refl))
      as [added [HT HF]].
    exists added; split; [exact HT|]; split; [exact HF|].
    assert (HF' : Forall2
              (fun (p : string * Q) t =>
                 tx_amount t = (amount * (snd p / totalPct (allocationPct a)))%Q)
              (allocationPct a) added).
    { eapply Forall2_impl; [|exact HF]. intros p t [_ [H _]]; exact H. }
    pose proof (sum_of_shares _ _ _ _ HF' 0%Q 0%Q) as S.
    unfold sumAmounts; fold addAmount. rewrite S.
    fold (totalPct (allocationPct a)).
    assert (Hnz : ~ (totalPct (allocationPct a) == 0)%Q).
    { intros Z0. rewrite Z0 in Htotal. revert Htotal. unfold epsilon.
      apply Qle_not_lt. unfold Qle; simpl; lia. }
    field. exact Hnz.
Qed.

Lemma allocateAmount_splits_whole_amount_witness :
  (0 < 100)%Q
  /\ (epsilon < totalPct (allocationPct newAccount))%Q
  /\ exists added : list Transaction,
      txs (allocateAmount (mkDate 2024 1 1) 100%Q "Salary" newAccount)
      = (txs newAccount ++ added)%list
      /\ Forall2
           (fun p t =>
              tx_date t = mkDate 2024 1 1
              /\ tx_amount t = (100 * (snd p / totalPct (allocationPct newAccount)))%Q
              /\ tx_category t = displayOrKey (fst p) (displayNames newAccount))
           (allocationPct newAccount) added
      /\ (sumAmounts added == 100)%Q.
Proof.
  split; [reflexivity|]. split; [reflexivity|].
  apply (allocateAmount_splits_whole_amount newAccount (mkDate 2024 1 1) 100%Q "Salary");
    reflexivity.
Defined.

Import StrMapFacts.

(* ================================================================== *)
(** ** Interest rules after an application *)

Lemma interestRule_advance upTo ie st :
  fst (interestRule upTo ie st) = advanceRule upTo ie.
Proof.
  unfold interestRule, advanceRule, interestProcessed.
  destruct (date_gtb (startDate ie) upTo); [reflexivity|].
  destruct (monthsBetweenInclusive (interestFrom ie) upTo <=? 0); reflexivity.
Qed.

Lemma interestRules_advance upTo im st :
  fst (interestRules upTo im st)
  = map (fun p => (fst p, advanceRule upTo (snd p))) im.
Proof.
  revert st; induction im as [|[k ie] r IH]; intros st; cbn [interestRules].
  - reflexivity.
  - pose proof (interestRule_advance upTo ie st) as H1.
    destruct (interestRule upTo ie st) as [ie' st']; simpl in H1.
    pose proof (IH st') as H2.
    destruct (interestRules upTo r st') as [r' st'']; simpl in *.
    rewrite H1, H2; reflexivity.
Qed.

Lemma applyInterestUpTo_interestMap upTo a :
  interestMap (applyInterestUpTo upTo a)
  = map (fun p => (fst p, advanceRule upTo (snd p))) (interestMap a).
Proof.
  unfold applyInterestUpTo.
  destruct (interestMap a) as [|e r] eqn:IM; [rewrite IM; reflexivity|].
  pose proof (interestRules_advance upTo (e :: r) (a, txs a)) as H.
  destruct (interestRules upTo (e :: r) (a, txs a)) as [im [a' w']]; simpl in H.
  exact H.
Qed.

Lemma advanceRule_capped upTo ie :
  interestProcessed upTo ie = true ->
  date_leb (lastAppliedDate (advanceRule upTo ie)) upTo = true.
Proof.
  unfold advanceRule; intros ->; cbn [set_lastAppliedDate lastAppliedDate].
  destruct (date_gtb _ upTo) eqn:G.
  - apply date_leb_refl.
  - apply date_leb_of_not_gtb, G.
Qed.

Lemma interestFrom_cases ie :
  (interestFrom ie = startDate ie /\ date_ltb (lastAppliedDate ie) (startDate ie) = true)
  \/ (interestFrom ie = lastAppliedDate ie
      /\ date_ltb (lastAppliedDate ie) (startDate ie) = false).
Proof.
  unfold interestFrom; destruct (date_ltb (lastAppliedDate ie) (startDate ie)); auto.
Qed.

(** A rule that has started and was last applied no later than the
    target date is processed. *)
Lemma interestProcessed_due upTo ie :
  monthInRange (startDate ie) -> monthInRange (lastAppliedDate ie) -> monthInRange upTo ->
  date_leb (startDate ie) upTo = true ->
  date_leb (lastAppliedDate ie) upTo = true ->
  interestProcessed upTo ie = true.
Proof.
  intros Ms Ml Mu Hs Hl. unfold interestProcessed, date_gtb.
  unfold date_leb in Hs; rewrite Hs; simpl.
  apply negb_true_iff, Z.leb_gt.
  destruct (interestFrom_cases ie) as [[-> _] | [-> _]];
    apply monthsBetweenInclusive_pos; assumption.
Qed.

(** A rule that starts after the target date, or was last applied after
    it, is not processed. *)
Lemma interestProcessed_not_due upTo ie :
  date_gtb (startDate ie) upTo = true \/ date_gtb (lastAppliedDate ie) upTo = true ->
  interestProcessed upTo ie = false.
Proof.
  unfold interestProcessed.
  destruct (date_gtb (startDate ie) upTo) eqn:Gs; [reflexivity|].
  intros [H | Gl]; [discriminate H|]. simpl.
  apply negb_false_iff, Z.leb_le.
  assert (F : date_ltb upTo (interestFrom ie) = true).
  { destruct (interestFrom_cases ie) as [[-> L] | [-> _]]; [|exact Gl].
    unfold date_gtb in *.
    apply date_ltb_spec in L, Gl. apply date_ltb_false in Gs.
    exfalso; lia. }
  unfold monthsBetweenInclusive; rewrite F; lia.
Qed.

(** C4 (as amended).  After [applyInterestUpTo d], every interest rule
    that had started and was last applied no later than [d] has a
    last-applied date no later than [d]; a rule that starts after [d],
    or was last applied after [d], is left unchanged.  So each rule
    either ends with a last-applied date no later than [d] or is not
    touched. *)
Theorem applyInterestUpTo_last_applied_capped :
  forall (a : Account) (d : Date) (k : string) (ie : InterestEntry),
    StrMap.find k (interestMap a) = Some ie ->
    exists ie' : InterestEntry,
      StrMap.find k (interestMap (applyInterestUpTo d a)) = Some ie'
      /\ (monthInRange (startDate ie) -> monthInRange (lastAppliedDate ie) ->
          monthInRange d ->
          date_leb (startDate ie) d = true -> date_leb (lastAppliedDate ie) d = true ->
          date_leb (lastAppliedDate ie') d = true)
      /\ (date_gtb (startDate ie) d = true \/ date_gtb (lastAppliedDate ie) d = true ->
          ie' = ie)
      /\ (date_leb (lastAppliedDate ie') d = true \/ ie' = ie).
Proof.
  intros a d k ie Hfind.
  exists (advanceRule d ie); split; [|split; [|split]].
  - rewrite applyInterestUpTo_interestMap, find_map_values, Hfind; reflexivity.
  - intros Ms Ml Md Hs Hl.
    apply advanceRule_capped, interestProcessed_due; assumption.
  - intros H. unfold advanceRule. rewrite (interestProcessed_not_due d ie H); reflexivity.
  - destruct (interestProcessed d ie) eqn:P.
    + left; apply advanceRule_capped, P.
    + right; unfold advanceRule; rewrite P; reflexivity.
Qed.

Lemma applyInterestUpTo_last_applied_capped_witness :
  StrMap.find "other" (interestMap twoRuleScenario)
  = Some (mkInterest "other" 1%Q true (mkDate 2024 1 1) (mkDate 2024 1 1))
  /\ exists ie' : InterestEntry,
      StrMap.find "other" (interestMap (applyInterestUpTo (mkDate 2024 3 1) twoRuleScenario))
      = Some ie'
      /\ date_leb (lastAppliedDate ie') (mkDate 2024 3 1) = true.
Proof.
  split; [reflexivity|].
  destruct (applyInterestUpTo_last_applied_capped twoRuleScenario (mkDate 2024 3 1) "other"
              (mkInterest "other" 1%Q true (mkDate 2024 1 1) (mkDate 2024 1 1)) eq_refl)
    as [ie' [Hf [Hdue _]]].
  exists ie'; split; [exact Hf|].
  apply Hdue; unfold monthInRange; simpl; try lia; reflexivity.
Defined.

(** C4 (counterexample).  With target 2024-03-01, the rule that only
    starts in 2025 keeps its last-applied date 2025-01-01, which is after
    the target; and a second call with the same target posts one more
    interest transaction and raises the total balance. *)
Lemma applyInterestUpTo_not_settled :
  let d := mkDate 2024 3 1 in
  let a1 := applyInterestUpTo d twoRuleScenario in
  let a2 := applyInterestUpTo d a1 in
  (exists ie, StrMap.find "saving" (interestMap a1) = Some ie
              /\ date_leb (lastAppliedDate ie) d = false)
  /\ List.length (txs a2) = S (List.length (txs a1))
  /\ txs a2 <> txs a1
  /\ ~ (balance a2 == balance a1)%Q.
Proof.
  cbv zeta. split; [|split; [|split]].
  - exists (mkInterest "saving" 1%Q true (mkDate 2025 1 1) (mkDate 2025 1 1)).
    split; vm_compute; reflexivity.
  - vm_compute; reflexivity.
  - intros H. apply (f_equal (@List.length _)) in H. vm_compute in H. discriminate H.
  - vm_compute. discriminate.
Qed.

(* ================================================================== *)
(** ** The category maps *)

Lemma categoriesGrow_refl a : categoriesGrow a a.
Proof. split; [|split; [|split]]; auto. Qed.

Lemma categoriesGrow_trans a b c :
  categoriesGrow a b -> categoriesGrow b c -> categoriesGrow a c.
Proof.
  intros [D1 [C1 [N1 I1]]] [D2 [C2 [N2 I2]]]; split; [|split; [|split]].
  - intros k H; apply D2, D1, H.
  - intros k H; apply C2, C1, H.
  - intros k H. destruct (N2 k H) as [Hb | Hc]; [|right; exact Hc].
    destruct (N1 k Hb) as [Ha | Hd]; [left; exact Ha | right; apply D2, Hd].
  - congruence.
Qed.

Lemma categoriesGrow_named a a' :
  categoriesGrow a a' -> balancesNamed a -> balancesNamed a'.
Proof.
  intros [D [_ [N _]]] B k H.
  destruct (N k H) as [Hc | Hd]; [apply D, B, Hc | exact Hd].
Qed.

Lemma rulesNamed_grow (dn dn' : StrMap.t string) (im : StrMap.t InterestEntry) :
  (forall k, StrMap.mem k dn = true -> StrMap.mem k dn' = true) ->
  Forall (fun p => StrMap.mem (categoryNormalized (snd p)) dn = true) im ->
  Forall (fun p => StrMap.mem (categoryNormalized (snd p)) dn' = true) im.
Proof. intros D; apply Forall_impl; intros p; apply D. Qed.

Lemma categoriesGrow_rules a a' :
  categoriesGrow a a' -> rulesNamed a -> rulesNamed a'.
Proof.
  intros [D [_ [_ I]]] R; unfold rulesNamed; rewrite I.
  eapply rulesNamed_grow; eassumption.
Qed.

Lemma categoriesGrow_covered a a' :
  categoriesGrow a a' -> allocationPct a' = allocationPct a ->
  allocationKeysCovered a -> allocationKeysCovered a'.
Proof.
  intros [D [C _]] A H k Hk. rewrite A in Hk.
  destruct (H k Hk) as [H1 H2]; split; [apply D, H1 | apply C, H2].
Qed.

Lemma categoriesGrow_nested a a' :
  categoriesGrow a a' -> allocationPct a' = allocationPct a ->
  categoryKeysNested a -> categoryKeysNested a'.
Proof.
  intros G A [H1 [H2 H3]]; split; [|split].
  - eapply categoriesGrow_covered; eassumption.
  - eapply categoriesGrow_named; eassumption.
  - eapply categoriesGrow_rules; eassumption.
Qed.

Lemma ledgerStep_refl a : ledgerStep a a.
Proof. split; [reflexivity | apply categoriesGrow_refl]. Qed.

Lemma ledgerStep_trans a b c : ledgerStep a b -> ledgerStep b c -> ledgerStep a c.
Proof.
  intros [A1 G1] [A2 G2]; split; [congruence | eapply categoriesGrow_trans; eassumption].
Qed.

Lemma ledgerStep_nested a a' : ledgerStep a a' -> categoryKeysNested a -> categoryKeysNested a'.
Proof. intros [A G]; apply categoriesGrow_nested; assumption. Qed.

(** The shape shared by the postings: one key [nk] is put into
    [categoryBalances] and ensured in [displayNames]. *)
Lemma ledgerStep_post (a a' : Account) (nk : string) :
  allocationPct a' = allocationPct a ->
  interestMap a' = interestMap a ->
  (forall k, StrMap.mem k (displayNames a') = String.eqb k nk || StrMap.mem k (displayNames a)) ->
  (forall k, StrMap.mem k (categoryBalances a')
             = String.eqb k nk || StrMap.mem k (categoryBalances a)) ->
  ledgerStep a a'.
Proof.
  intros A I D C; split; [exact A|]; split; [|split; [|split]].
  - intros k H; rewrite D, H; apply orb_true_r.
  - intros k H; rewrite C, H; apply orb_true_r.
  - intros k H; rewrite C in H; rewrite D.
    destruct (String.eqb k nk); [right; reflexivity | left; exact H].
  - exact I.
Qed.

Lemma addManualTransaction_step date amount cat note a :
  ledgerStep a (addManualTransaction date amount cat note a).
Proof.
  unfold addManualTransaction.
  match goal with |- context [StrMap.ensure ?nk _ (displayNames a)] =>
    apply (ledgerStep_post _ _ nk) end;
    cbn [allocationPct interestMap displayNames categoryBalances]; try reflexivity.
  - intros k; apply mem_ensure.
  - intros k; rewrite mem_put, mem_ensure. destruct (String.eqb k _); reflexivity.
Qed.

Lemma allocateShare_step date amount note total a p :
  ledgerStep a (allocateShare date amount note total a p).
Proof.
  unfold allocateShare. apply (ledgerStep_post _ _ (fst p));
    cbn [allocationPct interestMap displayNames categoryBalances]; try reflexivity.
  - intros k; apply mem_ensure.
  - intros k; apply mem_put.
Qed.

Lemma allocateShares_step date amount note total l a :
  ledgerStep a (fold_left (allocateShare date amount note total) l a).
Proof.
  revert a; induction l as [|p l IH]; intros a; simpl.
  - apply ledgerStep_refl.
  - eapply ledgerStep_trans; [apply allocateShare_step | apply IH].
Qed.

Lemma allocateAmount_step date amount note a :
  ledgerStep a (allocateAmount date amount note a).
Proof.
  unfold allocateAmount.
  destruct (Qle_bool (totalPct (allocationPct a)) epsilon).
  - apply (ledgerStep_post _ _ (normalizeKey "Other"));
      cbn [allocationPct interestMap displayNames categoryBalances]; try reflexivity.
    + intros k; apply mem_ensure.
    + intros k; apply mem_put.
  - apply allocateShares_step.
Qed.

Lemma fireOnce_step s a : ledgerStep a (snd (fireOnce s a)).
Proof.
  unfold fireOnce; simpl.
  destruct (autoAllocate s && negb (Qle_bool (sched_amount s) 0)).
  - apply allocateAmount_step.
  - apply addManualTransaction_step.
Qed.

Lemma fireLoop_step n upTo s a : ledgerStep a (snd (fireLoop n upTo s a)).
Proof.
  revert s a; induction n as [|n IH]; intros s a; cbn [fireLoop].
  - apply ledgerStep_refl.
  - destruct (date_leb (nextDate s) upTo); [|apply ledgerStep_refl].
    pose proof (fireOnce_step s a) as H1.
    destruct (fireOnce s a) as [s' a']; simpl in H1.
    eapply ledgerStep_trans; [exact H1 | apply IH].
Qed.

Lemma processScheduleList_step upTo ss a :
  ledgerStep a (snd (processScheduleList upTo ss a)).
Proof.
  revert a; induction ss as [|s r IH]; intros a; cbn [processScheduleList].
  - apply ledgerStep_refl.
  - assert (H1 : ledgerStep a (snd (processSchedule upTo s a))).
    { unfold processSchedule; destruct (scheduleSkipped s);
        [apply ledgerStep_refl | apply fireLoop_step]. }
    destruct (processSchedule upTo s a) as [s' a']; simpl in H1.
    pose proof (IH a') as H2.
    destruct (processScheduleList upTo r a') as [r' a'']; simpl in *.
    eapply ledgerStep_trans; eassumption.
Qed.

Lemma processSchedulesUpTo_step upTo a : ledgerStep a (processSchedulesUpTo upTo a).
Proof.
  unfold processSchedulesUpTo.
  pose proof (processScheduleList_step upTo (schedules a) a) as H.
  destruct (processScheduleList upTo (schedules a) a) as [ss a']; simpl in H.
  exact H.
Qed.

(** Interest is posted under the category of the rule, which must have
    a display name for the new balance key to be named. *)
Lemma interestMonth_step ie fromDate rate m a w :
  StrMap.mem (categoryNormalized ie) (displayNames a) = true ->
  ledgerStep a (fst (interestMonth ie fromDate rate m (a, w))).
Proof.
  intros Hn. unfold interestMonth.
  destruct (Qle_bool _ 0); [apply ledgerStep_refl|].
  destruct (negb (Qeq_bool _ 0)); [|apply ledgerStep_refl].
  apply (ledgerStep_post _ _ (categoryNormalized ie));
    cbn [fst allocationPct interestMap displayNames categoryBalances]; try reflexivity.
  - intros k. destruct (String.eqb k (categoryNormalized ie)) eqn:E; [|reflexivity].
    apply String.eqb_eq in E; subst k; exact Hn.
  - intros k; apply mem_put.
Qed.

Lemma interestMonths_step n ie fromDate rate m a w :
  StrMap.mem (categoryNormalized ie) (displayNames a) = true ->
  ledgerStep a (fst (interestMonths n ie fromDate rate m (a, w))).
Proof.
  revert m a w; induction n as [|n IH]; intros m a w Hn; cbn [interestMonths].
  - apply ledgerStep_refl.
  - pose proof (interestMonth_step ie fromDate rate m a w Hn) as H1.
    destruct (interestMonth ie fromDate rate m (a, w)) as [a1 w1]; simpl in H1.
    eapply ledgerStep_trans; [exact H1 | apply IH].
    destruct H1 as [_ [D _]]; apply D, Hn.
Qed.

Lemma interestRule_step upTo ie a w :
  StrMap.mem (categoryNormalized ie) (displayNames a) = true ->
  ledgerStep a (fst (snd (interestRule upTo ie (a, w)))).
Proof.
  intros Hn. unfold interestRule.
  destruct (date_gtb (startDate ie) upTo); [apply ledgerStep_refl|].
  destruct (_ <=? 0); [apply ledgerStep_refl|].
  simpl; apply interestMonths_step, Hn.
Qed.

Lemma interestRules_step upTo im a w :
  Forall (fun p => StrMap.mem (categoryNormalized (snd p)) (displayNames a) = true) im ->
  ledgerStep a (fst (snd (interestRules upTo im (a, w)))).
Proof.
  revert a w; induction im as [|[k ie] r IH]; intros a w Hn; cbn [interestRules].
  - apply ledgerStep_refl.
  - inversion Hn as [|p l Hie Hr]; subst; simpl in Hie.
    pose proof (interestRule_step upTo ie a w Hie) as H1.
    destruct (interestRule upTo ie (a, w)) as [ie' [a1 w1]]; simpl in H1.
    assert (Hr1 : Forall (fun p => StrMap.mem (categoryNormalized (snd p))
                                     (displayNames a1) = true) r).
    { destruct H1 as [_ [D _]]; eapply rulesNamed_grow; eassumption. }
    pose proof (IH a1 w1 Hr1) as H2.
    destruct (interestRules upTo r (a1, w1)) as [r' st'']; simpl in *.
    eapply ledgerStep_trans; eassumption.
Qed.

Lemma advanceRule_category upTo ie :
  categoryNormalized (advanceRule upTo ie) = categoryNormalized ie.
Proof. unfold advanceRule; destruct (interestProcessed upTo ie); reflexivity. Qed.

Lemma applyInterestUpTo_nested upTo a :
  categoryKeysNested a -> categoryKeysNested (applyInterestUpTo upTo a).
Proof.
  intros N. pose proof N as [_ [_ R]].
  unfold applyInterestUpTo.
  destruct (interestMap a) as [|e r] eqn:IM; [exact N|].
  unfold rulesNamed in R; rewrite IM in R.
  pose proof (interestRules_step upTo (e :: r) a (txs a) R) as H.
  pose proof (interestRules_advance upTo (e :: r) (a, txs a)) as Him.
  destruct (interestRules upTo (e :: r) (a, txs a)) as [im [a' w']].
  cbn [fst snd] in H, Him.
  destruct (ledgerStep_nested _ _ H N) as [N1 [N2 N3]].
  split; [exact N1|]; split; [exact N2|].
  unfold rulesNamed; cbn [set_interestMap interestMap displayNames].
  rewrite Him, Forall_map.
  destruct H as [_ [D _]].
  eapply Forall_impl; [|exact R]. intros p Hp; cbn [snd].
  rewrite advanceRule_category; apply D, Hp.
Qed.

(** [setAllocation] covers the keys it puts, whatever the state before. *)
Lemma setAllocation_covered newAlloc a : allocationKeysCovered (setAllocation newAlloc a).
Proof.
  unfold setAllocation.
  match goal with |- allocationKeysCovered (fold_left ?f _ ?a0) =>
    assert (H0 : allocationKeysCovered a0) by (intros k Hk; discriminate Hk);
    generalize dependent a0; set (step := f) end.
  induction newAlloc as [|p l IH]; intros a0 H0; simpl; [exact H0|].
  apply IH. intros k Hk. subst step; cbn [allocationPct displayNames categoryBalances] in *.
  rewrite mem_put in Hk. rewrite !mem_ensure.
  destruct (String.eqb k _); [split; reflexivity|].
  simpl in *. apply H0, Hk.
Qed.

Lemma setAllocation_grows newAlloc a : categoriesGrow a (setAllocation newAlloc a).
Proof.
  unfold setAllocation.
  match goal with |- categoriesGrow a (fold_left ?f _ ?a0) =>
    assert (H0 : categoriesGrow a a0) by (split; [|split; [|split]]; auto);
    generalize dependent a0; set (step := f) end.
  induction newAlloc as [|p l IH]; intros a0 H0; simpl; [exact H0|].
  apply IH. eapply categoriesGrow_trans; [exact H0|].
  subst step; split; [|split; [|split]];
    cbn [interestMap displayNames categoryBalances]; [| | |reflexivity].
  - intros k H; apply mem_ensure_mono, H.
  - intros k H; apply mem_ensure_mono, H.
  - intros k H; rewrite mem_ensure in H; rewrite mem_ensure.
    destruct (String.eqb k _); [right; reflexivity | left; exact H].
Qed.

Lemma setAllocation_nested newAlloc a :
  categoryKeysNested a -> categoryKeysNested (setAllocation newAlloc a).
Proof.
  intros [_ [B R]]; split; [|split].
  - apply setAllocation_covered.
  - eapply categoriesGrow_named; [apply setAllocation_grows | exact B].
  - eapply categoriesGrow_rules; [apply setAllocation_grows | exact R].
Qed.

(** *** The loader establishes the nesting *)

Lemma namesKept_grow a a' :
  categoriesGrow a a' -> namesKept a -> namesKept a'.
Proof.
  intros G [B R]; split;
    [eapply categoriesGrow_named | eapply categoriesGrow_rules]; eassumption.
Qed.

Lemma loadInterestLine_kept today line a :
  namesKept a -> namesKept (loadInterestLine today line a).
Proof.
  intros [B R]; unfold loadInterestLine.
  destruct (splitEscaped line) as [|display [|p1 [|p2 [|p3 [|p4 rest]]]]];
    try (split; assumption).
  destruct (stod p1) as [rate|]; [|split; assumption].
  split.
  - intros k Hk; cbn [categoryBalances displayNames] in *.
    apply mem_ensure_mono, B, Hk.
  - unfold rulesNamed; cbn [interestMap displayNames].
    apply Forall_put.
    + cbn [snd categoryNormalized]; apply mem_ensure_same.
    + eapply rulesNamed_grow; [|exact R]. intros k Hk; apply mem_ensure_mono, Hk.
Qed.

Lemma loadAllocLine_grows line a : categoriesGrow a (loadAllocLine line a).
Proof.
  unfold loadAllocLine.
  destruct (splitEscaped line) as [|display [|p1 rest]]; try apply categoriesGrow_refl.
  destruct (stod p1); [|apply categoriesGrow_refl].
  split; [|split; [|split]]; cbn [interestMap displayNames categoryBalances]; auto.
  intros k H; apply mem_ensure_mono, H.
Qed.

Lemma loadCategoryLine_grows line a : categoriesGrow a (loadCategoryLine line a).
Proof.
  unfold loadCategoryLine.
  destruct (splitEscaped line) as [|display [|p1 rest]]; try apply categoriesGrow_refl.
  destruct (stod p1); [|apply categoriesGrow_refl].
  split; [|split; [|split]]; cbn [interestMap displayNames categoryBalances]; auto.
  - intros k H; apply mem_ensure_mono, H.
  - intros k H; apply mem_put_mono, H.
  - intros k H; rewrite mem_put in H; rewrite mem_ensure.
    destruct (String.eqb k _); [right; reflexivity | left; exact H].
Qed.

Lemma loadScheduleLine_grows line a : categoriesGrow a (loadScheduleLine line a).
Proof.
  unfold loadScheduleLine.
  destruct (splitEscaped line) as [|p0 [|p1 [|p2 [|p3 [|p4 [|p5 [|p6 rest]]]]]]];
    try apply categoriesGrow_refl.
  destruct (stoi p1); [|apply categoriesGrow_refl].
  destruct (stod p2); [|apply categoriesGrow_refl].
  destruct (tryParseDate p4); [|apply categoriesGrow_refl].
  destruct (scheduleSkipped _); [apply categoriesGrow_refl|].
  split; [|split; [|split]]; cbn [set_schedules interestMap displayNames categoryBalances];
    auto.
Qed.

Lemma loadTxLine_grows line a : categoriesGrow a (loadTxLine line a).
Proof.
  unfold loadTxLine.
  destruct (splitEscaped line) as [|p0 [|p1 [|p2 [|p3 rest]]]];
    try apply categoriesGrow_refl.
  destruct (tryParseDate p0); [|apply categoriesGrow_refl].
  destruct (stod p1); [|apply categoriesGrow_refl].
  split; [|split; [|split]]; cbn [interestMap displayNames categoryBalances]; auto.
  intros k H; apply mem_ensure_mono, H.
Qed.

Lemma loadLine_kept today l line :
  namesKept (ld_acc l) -> namesKept (ld_acc (loadLine today l line)).
Proof.
  intros K; unfold loadLine.
  repeat match goal with
         | |- context [if ?b then _ else _] => destruct b; [exact K|]
         end.
  destruct (has_balance_prefix line).
  - destruct (stod _); exact K.
  - destruct (ld_sec l); cbn [ld_acc].
    + exact K.
    + exact K.
    + apply loadInterestLine_kept, K.
    + eapply namesKept_grow; [apply loadAllocLine_grows | exact K].
    + eapply namesKept_grow; [apply loadCategoryLine_grows | exact K].
    + eapply namesKept_grow; [apply loadScheduleLine_grows | exact K].
    + eapply namesKept_grow; [apply loadTxLine_grows | exact K].
Qed.

Lemma loadLines_kept today lines l :
  namesKept (ld_acc l) -> namesKept (ld_acc (fold_left (loadLine today) lines l)).
Proof.
  revert l; induction lines as [|line r IH]; intros l K; simpl.
  - exact K.
  - apply IH, loadLine_kept, K.
Qed.

(** The first reconciliation loop: names grow, and every recomputed key
    is named. *)
Lemma recomputeStep_named (l : list Transaction) :
  forall rc dn rc' dn',
    fold_left recomputeStep l (rc, dn) = (rc', dn') ->
    (forall k, StrMap.mem k dn = true -> StrMap.mem k dn' = true)
    /\ (forall k, StrMap.mem k rc' = true ->
                  StrMap.mem k rc = true \/ StrMap.mem k dn' = true).
Proof.
  induction l as [|t l IH]; intros rc dn rc' dn' F; simpl in F.
  - inversion F; subst; split; auto.
  - destruct (IH _ _ _ _ F) as [D N]; split.
    + intros k H; apply D, mem_ensure_mono, H.
    + intros k H. destruct (N k H) as [H1 | H1]; [|right; exact H1].
      rewrite mem_put, mem_ensure in H1.
      destruct (String.eqb k (normalizeKey (tx_category t))) eqn:E.
      * right. apply String.eqb_eq in E; subst k. apply D, mem_ensure_same.
      * left; exact H1.
Qed.

(** The second loop: stored balances fill the keys without recomputed
    sum. *)
Lemma keepStored_keys (cb : StrMap.t Q) :
  forall (rc : StrMap.t Q) k,
    StrMap.mem k (fold_left (fun rc p => StrMap.ensure (fst p) (snd p) rc) cb rc) = true ->
    StrMap.mem k rc = true \/ StrMap.mem k cb = true.
Proof.
  induction cb as [|[k0 v0] cb IH]; intros rc k H; simpl in H.
  - left; exact H.
  - rewrite mem_cons. destruct (IH _ _ H) as [H1 | H1].
    + rewrite mem_ensure in H1; cbn [fst] in H1.
      destruct (String.eqb k k0); [right; reflexivity | left; exact H1].
    + right; rewrite H1; apply orb_true_r.
Qed.

(** The last loop of the loader covers every key of the allocation map
    and names every balance key it adds. *)
Lemma completeStep_covers (l : StrMap.t Q) :
  forall dn cb dn' cb',
    fold_left completeStep l (dn, cb) = (dn', cb') ->
    (forall k, StrMap.mem k dn = true -> StrMap.mem k dn' = true)
    /\ (forall k, StrMap.mem k cb = true -> StrMap.mem k cb' = true)
    /\ (forall k, StrMap.mem k l = true ->
                  StrMap.mem k dn' = true /\ StrMap.mem k cb' = true)
    /\ (forall k, StrMap.mem k cb' = true ->
                  StrMap.mem k cb = true \/ StrMap.mem k dn' = true).
Proof.
  induction l as [|[k0 v0] l IH]; intros dn cb dn' cb' F; simpl in F.
  - inversion F; subst. split; [|split; [|split]]; auto; intros k H; discriminate H.
  - destruct (IH _ _ _ _ F) as [D [C [K N]]].
    split; [|split; [|split]].
    + intros k H; apply D, mem_ensure_mono, H.
    + intros k H; apply C, mem_ensure_mono, H.
    + intros k H. rewrite mem_cons in H. destruct (String.eqb k k0) eqn:E.
      * apply String.eqb_eq in E; subst k0.
        split; [apply D | apply C]; apply mem_ensure_same.
      * apply K, H.
    + intros k H. destruct (N k H) as [H1 | H1]; [|right; exact H1].
      rewrite mem_ensure in H1; cbn [fst] in H1.
      destruct (String.eqb k k0) eqn:E.
      * right. apply String.eqb_eq in E; subst k0. apply D, mem_ensure_same.
      * left; exact H1.
Qed.

Lemma reconcile_nested l : namesKept (ld_acc l) -> categoryKeysNested (reconcile l).
Proof.
  intros [B R]; unfold reconcile.
  destruct (fold_left recomputeStep _ _) as [rc dn] eqn:F1.
  destruct (recomputeStep_named _ _ _ _ _ F1) as [D1 N1].
  destruct (fold_left completeStep _ _) as [dn' cb'] eqn:F2.
  destruct (completeStep_covers _ _ _ _ _ F2) as [D2 [_ [K N2]]].
  split; [|split].
  - intros k Hk; cbn [allocationPct displayNames categoryBalances] in *.
    apply K, Hk.
  - intros k Hk; cbn [displayNames categoryBalances] in *.
    destruct (N2 k Hk) as [H | H]; [|exact H].
    apply D2. destruct (keepStored_keys _ _ _ H) as [H1 | H1].
    + destruct (N1 k H1) as [H2 | H2]; [discriminate H2 | exact H2].
    + apply D1, B, H1.
  - unfold rulesNamed; cbn [interestMap displayNames].
    eapply rulesNamed_grow; [|exact R]. intros k Hk; apply D2, D1, Hk.
Qed.

Lemma loadFromFile_nested fs today filename a :
  categoryKeysNested a -> categoryKeysNested (snd (loadFromFile fs today filename a)).
Proof.
  intros H; unfold loadFromFile.
  destruct (openStore fs filename); cbn [snd]; [|exact H].
  apply reconcile_nested, loadLines_kept.
  split; [intros k Hk; discriminate Hk | constructor].
Qed.

(** C8 (as amended).  Each ledger-mutating operation -- posting a manual
    transaction, allocation, setting allocations, schedule processing,
    interest application, load -- preserves the nesting of the category
    keys: every key of [allocationPct] has an entry in [categoryBalances]
    and in [displayNames], every key of [categoryBalances] has an entry
    in [displayNames], and the category of every interest rule has an
    entry in [displayNames]. *)
Theorem ledger_operations_keep_category_keys_nested :
  forall a : Account,
    categoryKeysNested a ->
    (forall date amount cat note,
        categoryKeysNested (addManualTransaction date amount cat note a))
    /\ (forall date amount note, categoryKeysNested (allocateAmount date amount note a))
    /\ (forall newAlloc, categoryKeysNested (setAllocation newAlloc a))
    /\ (forall upTo, categoryKeysNested (processSchedulesUpTo upTo a))
    /\ (forall upTo, categoryKeysNested (applyInterestUpTo upTo a))
    /\ (forall fs today filename,
        categoryKeysNested (snd (loadFromFile fs today filename a))).
Proof.
  intros a H.
  split; [|split; [|split; [|split; [|split]]]]; intros.
  - eapply ledgerStep_nested; [apply addManualTransaction_step | exact H].
  - eapply ledgerStep_nested; [apply allocateAmount_step | exact H].
  - apply setAllocation_nested, H.
  - eapply ledgerStep_nested; [apply processSchedulesUpTo_step | exact H].
  - apply applyInterestUpTo_nested, H.
  - apply loadFromFile_nested, H.
Qed.

Lemma newAccount_nested : categoryKeysNested newAccount.
Proof.
  split; [|split].
  - intros k Hk.
    rewrite (mem_same_keys k (displayNames newAccount) (allocationPct newAccount) eq_refl).
    rewrite (mem_same_keys k (categoryBalances newAccount) (allocationPct newAccount) eq_refl).
    split; exact Hk.
  - intros k Hk.
    rewrite (mem_same_keys k (displayNames newAccount) (categoryBalances newAccount) eq_refl).
    exact Hk.
  - constructor.
Qed.

Lemma ledger_operations_keep_category_keys_nested_witness :
  categoryKeysNested newAccount
  /\ ((forall date amount cat note,
          categoryKeysNested (addManualTransaction date amount cat note newAccount))
      /\ (forall date amount note,
             categoryKeysNested (allocateAmount date amount note newAccount))
      /\ (forall newAlloc, categoryKeysNested (setAllocation newAlloc newAccount))
      /\ (forall upTo, categoryKeysNested (processSchedulesUpTo upTo newAccount))
      /\ (forall upTo, categoryKeysNested (applyInterestUpTo upTo newAccount))
      /\ (forall fs today filename,
             categoryKeysNested (snd (loadFromFile fs today filename newAccount)))).
Proof.
  split.
  - exact newAccount_nested.
  - apply (ledger_operations_keep_category_keys_nested newAccount).
    exact newAccount_nested.
Defined.

(** C8 (counterexample).  The three maps of a fresh account have the
    same keys.  After a manual transaction in a new category, the key
    [food] is in [displayNames] and [categoryBalances] but not in
    [allocationPct]; after loading a store with a single interest line,
    the key [bonds] is in [displayNames] only. *)
Lemma category_maps_disagree :
  categoryMapsAgree newAccount
  /\ ~ categoryMapsAgree
         (addManualTransaction (mkDate 2024 1 1) 5%Q "Food" "lunch" newAccount)
  /\ ~ categoryMapsAgree
         (snd (loadFromFile interestOnlyFs (mkDate 2024 6 1) "finance_save.txt" newAccount)).
Proof.
  split; [|split].
  - intros k; split; apply mem_same_keys; reflexivity.
  - intros H. destruct (H "food") as [_ H2]. vm_compute in H2. discriminate H2.
  - intros H. destruct (H "bonds") as [H1 _]. vm_compute in H1. discriminate H1.
Qed.

(* ================================================================== *)
(** ** More on the codec *)

(** X1.  [unescapeLoaded] undoes [escapeForSave] on every string. *)
Lemma unescapeLoaded_escapeForSave (s : string) : unescapeLoaded (escapeForSave s) = s.
Proof.
  induction s as [|c r IH]; simpl; [reflexivity|].
  destruct (Ascii.eqb c backslash) eqn:Eb.
  - apply Ascii.eqb_eq in Eb; subst c. simpl. rewrite IH; reflexivity.
  - destruct (Ascii.eqb c pipe) eqn:Ep.
    + apply Ascii.eqb_eq in Ep; subst c. simpl. rewrite IH; reflexivity.
    + destruct (Ascii.eqb c newline) eqn:En.
      * apply Ascii.eqb_eq in En; subst c. simpl. rewrite IH; reflexivity.
      * simpl. rewrite Eb, IH; reflexivity.
Qed.


Lemma splitLoop_escaped_field (f rest : string) :
  forall parts cur,
    splitLoop (escapeForSave f ++ rest) parts cur false
    = splitLoop rest parts (cur ++ string_map newlineToN f) false.
Proof.
  induction f as [|c f IH]; intros parts cur; simpl.
  - rewrite append_nil_r; reflexivity.
  - unfold newlineToN at 1.
    destruct (Ascii.eqb c backslash) eqn:Eb.
    + apply Ascii.eqb_eq in Eb; subst c. simpl.
      rewrite IH, push_back_append; reflexivity.
    + destruct (Ascii.eqb c pipe) eqn:Ep.
      * apply Ascii.eqb_eq in Ep; subst c. simpl.
        rewrite IH, push_back_append; reflexivity.
      * destruct (Ascii.eqb c newline) eqn:En.
        -- simpl. rewrite IH, push_back_append; reflexivity.
        -- simpl. rewrite Eb, Ep, IH, push_back_append; reflexivity.
Qed.

Lemma splitLoop_escaped_fields (fs : list string) :
  forall f parts,
    let '(ps, cur) := splitLoop (joinEscaped (f :: fs)) parts EmptyString false in
    (ps ++ [cur] = parts ++ map (string_map newlineToN) (f :: fs))%list.
Proof.
  induction fs as [|g gs IH]; intros f parts.
  - unfold joinEscaped; simpl.
    rewrite <- (append_nil_r (escapeForSave f)), splitLoop_escaped_field.
    reflexivity.
  - unfold joinEscaped. cbn [map String.concat].
    rewrite splitLoop_escaped_field. cbn [append splitLoop].
    change (Ascii.eqb pipe backslash) with false.
    change (Ascii.eqb pipe pipe) with true. cbv iota.
    specialize (IH g (parts ++ [string_map newlineToN f])%list). unfold joinEscaped in IH.
    cbn [map] in IH.
    destruct (splitLoop _ (parts ++ [_])%list EmptyString false) as [ps cur].
    rewrite IH, <- app_assoc; reflexivity.
Qed.

(** X2.  A joined record is never split in the wrong place: for any
    non-empty list of fields, [splitEscaped] returns as many fields as
    were joined, each being the original with its newlines turned into
    the letter n and then unescaped once more. *)
Theorem splitEscaped_joinEscaped (fields : list string) :
  fields <> [] ->
  splitEscaped (joinEscaped fields)
  = map (fun f => unescapeLoaded (string_map newlineToN f)) fields
  /\ List.length (splitEscaped (joinEscaped fields)) = List.length fields.
Proof.
  destruct fields as [|f fs]; [intros H; contradiction H; reflexivity|].
  intros _.
  assert (E : splitEscaped (joinEscaped (f :: fs))
              = map (fun f => unescapeLoaded (string_map newlineToN f)) (f :: fs)).
  { unfold splitEscaped.
    pose proof (splitLoop_escaped_fields fs f []) as H.
    destruct (splitLoop _ [] EmptyString false) as [ps cur].
    rewrite H, app_nil_l, map_map; reflexivity. }
  split; [exact E|]. rewrite E, length_map; reflexivity.
Qed.

Lemma splitEscaped_joinEscaped_witness :
  let fields := ["a|b"; multilineNote; pathNote] in
  fields <> []
  /\ splitEscaped (joinEscaped fields)
     = map (fun f => unescapeLoaded (string_map newlineToN f)) fields
  /\ List.length (splitEscaped (joinEscaped fields)) = List.length fields.
Proof.
  cbv zeta. split; [discriminate|].
  apply (splitEscaped_joinEscaped ["a|b"; multilineNote; pathNote]). discriminate.
Defined.

(* ================================================================== *)
(** ** Category names *)

Lemma to_lower_idem (c : ascii) : to_lower (to_lower c) = to_lower c.
Proof. destruct c as [[] [] [] [] [] [] [] []]; reflexivity. Qed.

Lemma is_space_to_lower (c : ascii) : is_space (to_lower c) = is_space c.
Proof. destruct c as [[] [] [] [] [] [] [] []]; reflexivity. Qed.

Lemma is_empty_string_map f s : is_empty (string_map f s) = is_empty s.
Proof. destruct s; reflexivity. Qed.

Lemma trim_front_lower s :
  trim_front (string_map to_lower s) = string_map to_lower (trim_front s).
Proof.
  induction s as [|c r IH]; simpl; [reflexivity|].
  rewrite is_space_to_lower; destruct (is_space c); [exact IH | reflexivity].
Qed.

Lemma trim_back_lower s :
  trim_back (string_map to_lower s) = string_map to_lower (trim_back s).
Proof.
  induction s as [|c r IH]; simpl; [reflexivity|].
  rewrite IH, is_space_to_lower, is_empty_string_map.
  destruct (is_space c && is_empty (trim_back r)); reflexivity.
Qed.

Lemma trim_back_idem s : trim_back (trim_back s) = trim_back s.
Proof.
  induction s as [|c r IH]; simpl; [reflexivity|].
  destruct (is_space c && is_empty (trim_back r)) eqn:E; [reflexivity|].
  simpl; rewrite IH, E; reflexivity.
Qed.

Lemma trim_front_length s : (String.length (trim_front s) <= String.length s)%nat.
Proof.
  induction s as [|c r IH]; simpl; [lia|].
  destruct (is_space c); simpl; lia.
Qed.

(** A string left alone by [trim_front] is empty or starts with a
    character that is not white space. *)
Lemma trim_front_fixed s :
  trim_front s = s <->
  match s with EmptyString => True | String c _ => is_space c = false end.
Proof.
  destruct s as [|c r]; simpl; [tauto|].
  destruct (is_space c) eqn:E; split; intros H; try reflexivity; try discriminate H.
  pose proof (trim_front_length r) as L. rewrite H in L; simpl in L; lia.
Qed.

Lemma trim_front_idem s : trim_front (trim_front s) = trim_front s.
Proof.
  induction s as [|c r IH]; simpl; [reflexivity|].
  destruct (is_space c) eqn:E; [exact IH|]. simpl; rewrite E; reflexivity.
Qed.

Lemma trim_front_trim_back s : trim_front s = s -> trim_front (trim_back s) = trim_back s.
Proof.
  intros H. apply trim_front_fixed in H. destruct s as [|c r]; [reflexivity|].
  simpl. rewrite H; simpl. rewrite H; reflexivity.
Qed.

Lemma trimmed_trim s : trimmed (trim_back (trim_front s)).
Proof.
  split; [apply trim_front_trim_back, trim_front_idem | apply trim_back_idem].
Qed.

Lemma string_map_lower_idem s :
  string_map to_lower (string_map to_lower s) = string_map to_lower s.
Proof.
  induction s as [|c r IH]; simpl; [reflexivity|]. rewrite to_lower_idem, IH; reflexivity.
Qed.

(** X3.  [normalizeKey] is idempotent and never returns the empty
    string: a key is its own key. *)
Theorem normalizeKey_idempotent (s : string) :
  normalizeKey (normalizeKey s) = normalizeKey s /\ normalizeKey s <> EmptyString.
Proof.
  assert (C : normalizeKey s = "other"
              \/ (normalizeKey s = string_map to_lower (trim_back (trim_front s))
                  /\ is_empty (normalizeKey s) = false)).
  { unfold normalizeKey.
    destruct (is_empty (string_map to_lower (trim_back (trim_front s)))) eqn:E; auto. }
  destruct C as [C | [C E]].
  - rewrite C; split; [reflexivity | intros H; discriminate H].
  - split; [|intros H; rewrite H in E; discriminate E].
    rewrite C in E |- *. unfold normalizeKey.
    destruct (trimmed_trim s) as [T1 T2].
    rewrite trim_front_lower, trim_back_lower, T1, T2, string_map_lower_idem, E.
    reflexivity.
Qed.

Lemma string_forallb_filter f s : string_forallb f (string_filter f s) = true.
Proof.
  induction s as [|c r IH]; simpl; [reflexivity|].
  destruct (f c) eqn:E; simpl; [rewrite E|]; exact IH.
Qed.

Lemma string_forallb_impl (f g : ascii -> bool) s :
  (forall c, f c = true -> g c = true) ->
  string_forallb f s = true -> string_forallb g s = true.
Proof.
  intros I; induction s as [|c r IH]; simpl; [reflexivity|].
  intros H; apply andb_true_iff in H; destruct H as [H1 H2].
  rewrite (I c H1), (IH H2); reflexivity.
Qed.

Lemma collapse_spaces_chars s b :
  string_forallb (fun c => is_alnum c || is_space c) s = true ->
  string_forallb alnum_or_blank (collapse_spaces s b) = true.
Proof.
  revert b; induction s as [|c r IH]; intros b H; simpl; [reflexivity|].
  simpl in H; apply andb_true_iff in H; destruct H as [H1 H2].
  destruct (is_space c) eqn:E.
  - destruct b; simpl; auto.
  - simpl. rewrite (IH false H2), andb_true_r.
    unfold alnum_or_blank. rewrite orb_false_r in H1. rewrite H1; reflexivity.
Qed.

Lemma trim_front_chars f s :
  string_forallb f s = true -> string_forallb f (trim_front s) = true.
Proof.
  induction s as [|c r IH]; simpl; [auto|].
  intros H; destruct (is_space c); [|exact H].
  apply andb_true_iff in H; apply IH, H.
Qed.

Lemma trim_back_chars f s :
  string_forallb f s = true -> string_forallb f (trim_back s) = true.
Proof.
  induction s as [|c r IH]; simpl; [auto|].
  intros H; apply andb_true_iff in H; destruct H as [H1 H2].
  destruct (is_space c && is_empty (trim_back r)); simpl; [reflexivity|].
  rewrite H1, (IH H2); reflexivity.
Qed.

(** X4.  A sanitized display name is never empty, has no white space at
    either end, and consists of letters, digits and blanks only. *)
Theorem sanitizeDisplayName_clean (s : string) :
  sanitizeDisplayName s <> EmptyString
  /\ trimmed (sanitizeDisplayName s)
  /\ string_forallb alnum_or_blank (sanitizeDisplayName s) = true.
Proof.
  unfold sanitizeDisplayName.
  destruct (is_empty (trim_back (trim_front (collapse_spaces _ false)))) eqn:E.
  - split; [intros H; discriminate H|]. split; [split; reflexivity | reflexivity].
  - split; [intros H; rewrite H in E; discriminate E|].
    split; [apply trimmed_trim|].
    apply trim_back_chars, trim_front_chars, collapse_spaces_chars, string_forallb_filter.
Qed.

(* ================================================================== *)
(** ** Calendar arithmetic: day numbers and civil dates *)

Lemma validDate_spec (d : Date) :
  validDate d <-> 1 <= month d <= 12 /\ 1 <= day d <= daysInMonth (year d) (month d).
Proof.
  unfold validDate, validDateb.
  rewrite !andb_true_iff, !Z.leb_le. tauto.
Qed.

Ltac month_cases m H :=
  assert (m = 1 \/ m = 2 \/ m = 3 \/ m = 4 \/ m = 5 \/ m = 6 \/ m = 7 \/ m = 8
          \/ m = 9 \/ m = 10 \/ m = 11 \/ m = 12) as H by lia;
  repeat (destruct H as [H | H]); subst m.

(** Evaluates the closed month-start terms [(153 * mp + 2) / 5]. *)
Ltac month_starts :=
  repeat match goal with
         | |- context [(153 * ?a + 2) / 5] =>
             let v := eval vm_compute in ((153 * a + 2) / 5) in
             progress change ((153 * a + 2) / 5) with v
         end.

(** Evaluates [daysInMonth y m] for a closed month other than February. *)
Ltac month_length_in H :=
  match type of H with
  | context [daysInMonth ?y ?m] =>
      let v := eval vm_compute in (nth (Z.to_nat (m - 1)) mdays 0) in
      change (daysInMonth y m) with v in H
  end.

Lemma daysInMonth_february (y : Z) :
  (leapYear y -> daysInMonth y 2 = 29) /\ (~ leapYear y -> daysInMonth y 2 = 28).
Proof.
  unfold daysInMonth, leapYear; simpl.
  assert (E4 : (Z.rem y 4 =? 0) = (y mod 4 =? 0)).
  { apply eq_true_iff_eq; rewrite !Z.eqb_eq; Z.to_euclidean_division_equations; lia. }
  assert (E100 : (Z.rem y 100 =? 0) = (y mod 100 =? 0)).
  { apply eq_true_iff_eq; rewrite !Z.eqb_eq; Z.to_euclidean_division_equations; lia. }
  assert (E400 : (Z.rem y 400 =? 0) = (y mod 400 =? 0)).
  { apply eq_true_iff_eq; rewrite !Z.eqb_eq; Z.to_euclidean_division_equations; lia. }
  rewrite E4, E100, E400.
  destruct (Z.eqb_spec (y mod 4) 0), (Z.eqb_spec (y mod 100) 0),
    (Z.eqb_spec (y mod 400) 0); simpl; split; intros H; try reflexivity;
    try (exfalso; lia); try (exfalso; apply H; lia).
Qed.

Lemma daysInMonth_february_cases (y : Z) :
  (leapYear y /\ daysInMonth y 2 = 29) \/ (~ leapYear y /\ daysInMonth y 2 = 28).
Proof.
  destruct (daysInMonth_february y) as [A B].
  assert (D : leapYear y \/ ~ leapYear y) by (unfold leapYear; lia).
  destruct D as [D | D]; [left | right]; auto.
Qed.

Lemma daysInMonth_range (y m : Z) :
  1 <= m <= 12 -> 28 <= daysInMonth y m <= 31.
Proof.
  intros Hm.
  destruct (daysInMonth_february_cases y) as [[_ F] | [_ F]];
    month_cases m H; try (rewrite F; lia); vm_compute; split; discriminate.
Qed.

(** X5.  [daysInMonth] is 28..31 for the months 1..12, and February has
    29 days exactly in the Gregorian leap years. *)
Theorem daysInMonth_bounds (y m : Z) :
  1 <= m <= 12 ->
  28 <= daysInMonth y m <= 31
  /\ (daysInMonth y 2 = 29 <-> leapYear y).
Proof.
  intros Hm. split; [apply daysInMonth_range; exact Hm|].
  destruct (daysInMonth_february_cases y) as [[L F] | [L F]]; rewrite F; split;
    intros; try assumption; try reflexivity; try lia. contradiction.
Qed.

Lemma daysInMonth_bounds_witness :
  1 <= 2 <= 12
  /\ 28 <= daysInMonth 2024 2 <= 31
  /\ (daysInMonth 2024 2 = 29 <-> leapYear 2024).
Proof.
  split; [lia|]. apply (daysInMonth_bounds 2024 2); lia.
Defined.

(** *** From a date to its day number and back *)

Lemma year_of_era (yoe doy : Z) :
  0 <= yoe <= 399 -> 0 <= doy <= 365 ->
  (doy = 365 -> yoe mod 4 = 3 /\ (yoe mod 100 <> 99 \/ yoe = 399)) ->
  let doe := 365 * yoe + yoe / 4 - yoe / 100 + doy in
  (doe - doe / 1460 + doe / 36524 - doe / 146096) / 365 = yoe
  /\ 0 <= doe <= 146096.
Proof.
  intros Hy Hd Hl doe. subst doe.
  split; Z.to_euclidean_division_equations; lia.
Qed.

Lemma day_of_era (doe : Z) :
  0 <= doe <= 146096 ->
  let yoe := (doe - doe / 1460 + doe / 36524 - doe / 146096) / 365 in
  let doy := doe - (365 * yoe + yoe / 4 - yoe / 100) in
  0 <= yoe <= 399 /\ 0 <= doy <= 365
  /\ (doy = 365 -> yoe mod 4 = 3 /\ (yoe mod 100 <> 99 \/ yoe = 399)).
Proof.
  intros H yoe doy. subst doy yoe.
  Z.to_euclidean_division_equations; lia.
Qed.

(** The month and day read off the day of the March-based year. *)
Lemma month_of_day (mp d : Z) :
  0 <= mp <= 11 -> 1 <= d ->
  (153 * mp + 2) / 5 + d - 1 < (153 * (mp + 1) + 2) / 5 ->
  let doy := (153 * mp + 2) / 5 + d - 1 in
  (5 * doy + 2) / 153 = mp.
Proof.
  intros Hm Hd Hlt doy; subst doy.
  Z.to_euclidean_division_equations; lia.
Qed.

Lemma day_of_year_bounds (y m dd : Z) :
  1 <= m <= 12 -> 1 <= dd <= daysInMonth y m ->
  let mp := (m + 9) mod 12 in
  let doy := (153 * mp + 2) / 5 + dd - 1 in
  0 <= doy <= 365
  /\ doy < (153 * (mp + 1) + 2) / 5
  /\ (doy = 365 -> leapYear y /\ m = 2).
Proof.
  intros Hm Hd mp doy; subst doy mp.
  destruct (Z.eq_dec m 2) as [-> | N].
  - change ((153 * ((2 + 9) mod 12) + 2) / 5) with 337.
    change ((153 * ((2 + 9) mod 12 + 1) + 2) / 5) with 367.
    destruct (daysInMonth_february_cases y) as [[L F] | [L F]]; rewrite F in Hd;
      unfold leapYear in *; repeat split; lia.
  - month_cases m H; try (contradiction N; reflexivity);
      month_length_in Hd; month_starts; unfold leapYear; repeat split; lia.
Qed.

Lemma civil_from_days_dayNumber (d : Date) :
  validDate d -> civil_from_days (dayNumber d) = d.
Proof.
  intros V. apply validDate_spec in V. destruct d as [y m dd]; simpl in V.
  destruct V as [Hm Hd].
  destruct (day_of_year_bounds y m dd Hm Hd) as [Hdoy [Hnext Hlast]].
  unfold dayNumber, days_from_civil, civil_from_days; cbn [year month day].
  set (y' := if m <=? 2 then y - 1 else y) in *.
  set (era := y' / 400). set (yoe := y' - era * 400).
  set (mp := (m + 9) mod 12) in *.
  set (doy := (153 * mp + 2) / 5 + dd - 1) in *.
  assert (Hyoe : 0 <= yoe <= 399) by (subst yoe era; Z.to_euclidean_division_equations; lia).
  assert (Hmp : 0 <= mp <= 11 /\ (m = if mp <? 10 then mp + 3 else mp - 9)).
  { subst mp. month_cases m H; vm_compute; repeat split; discriminate. }
  destruct Hmp as [Hmp Hm'].
  assert (Hleap : doy = 365 -> yoe mod 4 = 3 /\ (yoe mod 100 <> 99 \/ yoe = 399)).
  { intros E. destruct (Hlast E) as [L ->]. subst yoe era y'. simpl.
    unfold leapYear in L. Z.to_euclidean_division_equations; lia. }
  destruct (year_of_era yoe doy Hyoe Hdoy Hleap) as [Ey Hdoe].
  replace (yoe * 365) with (365 * yoe) by ring.
  set (doe := 365 * yoe + yoe / 4 - yoe / 100 + doy) in *.
  assert (Eera : (era * 146097 + doe - 719468 + 719468) / 146097 = era)
    by (Z.to_euclidean_division_equations; lia).
  rewrite Eera.
  replace (era * 146097 + doe - 719468 + 719468 - era * 146097) with doe by ring.
  rewrite Ey.
  replace (doe - (365 * yoe + yoe / 4 - yoe / 100)) with doy by (subst doe; ring).
  assert (Emp : (5 * doy + 2) / 153 = mp).
  { subst doy. apply month_of_day; [exact Hmp | lia | exact Hnext]. }
  rewrite Emp, <- Hm'.
  f_equal.
  - subst yoe y'. destruct (m <=? 2); lia.
  - subst doy; ring.
Qed.

(** *** From a day number to its date and back *)

Lemma civil_from_days_valid_dayNumber (z : Z) :
  validDate (civil_from_days z) /\ dayNumber (civil_from_days z) = z.
Proof.
  unfold civil_from_days, dayNumber.
  set (z' := z + 719468). set (era := z' / 146097). set (doe := z' - era * 146097).
  assert (Hdoe : 0 <= doe <= 146096)
    by (subst doe era; Z.to_euclidean_division_equations; lia).
  destruct (day_of_era doe Hdoe) as [Hyoe [Hdoy Hleap]].
  set (yoe := (doe - doe / 1460 + doe / 36524 - doe / 146096) / 365) in *.
  set (doy := doe - (365 * yoe + yoe / 4 - yoe / 100)) in *.
  set (mp := (5 * doy + 2) / 153).
  assert (Hmp : mp = 0 \/ mp = 1 \/ mp = 2 \/ mp = 3 \/ mp = 4 \/ mp = 5 \/ mp = 6
                \/ mp = 7 \/ mp = 8 \/ mp = 9 \/ mp = 10 \/ mp = 11)
    by (subst mp; Z.to_euclidean_division_equations; lia).
  assert (Hrange : (153 * mp + 2) / 5 <= doy < (153 * (mp + 1) + 2) / 5)
    by (subst mp; Z.to_euclidean_division_equations; lia).
  cbn [year month day].
  set (m := if mp <? 10 then mp + 3 else mp - 9).
  set (d := doy - (153 * mp + 2) / 5 + 1).
  set (y := yoe + era * 400 + (if m <=? 2 then 1 else 0)).
  assert (Hfeb : mp = 11 -> d = 29 -> leapYear y).
  { intros E1 E2. subst d. rewrite E1 in E2.
    change ((153 * 11 + 2) / 5) with 337 in E2.
    assert (E365 : doy = 365) by lia. destruct (Hleap E365) as [L1 L2].
    subst y m. rewrite E1. cbn [Z.ltb Z.leb Z.compare Pos.compare Pos.compare_cont Z.sub Z.opp
    Z.add Z.pos_sub Pos.pred_double Z.double Z.succ_double Z.pred_double].
    unfold leapYear. Z.to_euclidean_division_equations; lia. }
  split.
  - apply validDate_spec; cbn [year month day]. fold m; fold y.
    repeat (destruct Hmp as [Hmp | Hmp]);
      try (subst d m; rewrite Hmp in *; month_starts;
           match goal with
           | H : _ <= doy < _ |- _ => revert H; month_starts; intros H
           end;
           cbn [Z.ltb Z.compare Pos.compare Pos.compare_cont Z.add Z.sub Z.opp
                Z.pos_sub Pos.pred_double Pos.add Pos.succ Z.double Z.succ_double
                Z.pred_double];
           match goal with
           | |- context [daysInMonth ?yy ?mm] =>
               let v := eval vm_compute in (nth (Z.to_nat (mm - 1)) mdays 0) in
               change (daysInMonth yy mm) with v
           end; lia).
    (* February *)
    assert (Em : m = 2) by (subst m; rewrite Hmp; reflexivity).
    rewrite Em. assert (Hd : 1 <= d <= 29).
    { subst d. rewrite Hmp in *. revert Hrange. month_starts. lia. }
    destruct (daysInMonth_february_cases y) as [[L F] | [L F]]; rewrite F; [lia|].
    assert (d <> 29) by (intros E; apply L, Hfeb; assumption). lia.
  - cbn [year month day]. fold m; fold d; fold y.
    unfold days_from_civil.
    assert (Ey' : (if m <=? 2 then y - 1 else y) = yoe + era * 400)
      by (subst y; destruct (m <=? 2); lia).
    rewrite Ey'.
    assert (Eera : (yoe + era * 400) / 400 = era)
      by (Z.to_euclidean_division_equations; lia).
    rewrite Eera.
    replace (yoe + era * 400 - era * 400) with yoe by ring.
    assert (Emp : (m + 9) mod 12 = mp).
    { subst m. repeat (destruct Hmp as [Hmp | Hmp]); rewrite Hmp; reflexivity. }
    rewrite Emp. subst d doy doe z'. ring.
Qed.

(** *** The order of dates is the order of day numbers *)

Lemma yearStart_mono (a b : Z) : a <= b -> yearStart a <= yearStart b.
Proof.
  intros H. unfold yearStart, days_from_civil. cbn [Z.leb Z.compare Pos.compare Pos.compare_cont].
  change ((1 + 9) mod 12) with 10. change ((153 * 10 + 2) / 5) with 306.
  Z.to_euclidean_division_equations; lia.
Qed.

Lemma yearStart_next (y : Z) :
  yearStart (y + 1) = yearStart y + monthOffset y 12 + 31.
Proof.
  unfold yearStart, days_from_civil, monthOffset.
  cbn [Z.leb Z.compare Pos.compare Pos.compare_cont].
  change ((1 + 9) mod 12) with 10. change ((153 * 10 + 2) / 5) with 306.
  change (nth (Z.to_nat (12 - 1)) [0; 31; 59; 90; 120; 151; 181; 212; 243; 273; 304; 334] 0)
    with 334.
  change (3 <=? 12) with true; cbn [andb].
  destruct (daysInMonth_february_cases y) as [[L F] | [L F]]; rewrite F;
    unfold leapYear in L; cbn [Z.eqb Pos.eqb];
    Z.to_euclidean_division_equations; lia.
Qed.

Lemma dayNumber_in_year (y m d : Z) :
  1 <= m <= 12 ->
  dayNumber (mkDate y m d) = yearStart y + monthOffset y m + d - 1.
Proof.
  intros Hm. unfold dayNumber, yearStart, days_from_civil, monthOffset; cbn [year month day].
  change (1 <=? 2) with true. cbv iota.
  change ((1 + 9) mod 12) with 10. change ((153 * 10 + 2) / 5) with 306.
  destruct (daysInMonth_february_cases y) as [[L F] | [L F]]; rewrite F;
    unfold leapYear in L; cbn [Z.eqb Pos.eqb];
    month_cases m H;
    cbn [Z.leb Z.compare Pos.compare Pos.compare_cont andb];
    match goal with
    | |- context [(?mm + 9) mod 12] =>
        let v := eval vm_compute in ((mm + 9) mod 12) in
        change ((mm + 9) mod 12) with v
    end;
    month_starts;
    match goal with
    | |- context [nth ?i ?l 0] =>
        let v := eval vm_compute in (nth i l 0) in change (nth i l 0) with v
    end;
    Z.to_euclidean_division_equations; lia.
Qed.

Lemma monthOffset_next (y m : Z) :
  1 <= m <= 11 -> monthOffset y (m + 1) = monthOffset y m + daysInMonth y m.
Proof.
  intros Hm. unfold monthOffset.
  destruct (Z.eq_dec m 2) as [-> | N].
  - destruct (daysInMonth_february_cases y) as [[L F] | [L F]]; rewrite F; reflexivity.
  - destruct (daysInMonth_february_cases y) as [[L F] | [L F]]; rewrite F;
      month_cases m H; try (contradiction N; reflexivity); try (exfalso; lia);
      reflexivity.
Qed.

Lemma monthOffset_mono (y : Z) (n : nat) :
  forall m, 1 <= m -> m + Z.of_nat n <= 12 ->
            monthOffset y m <= monthOffset y (m + Z.of_nat n)
            /\ (n <> O -> monthOffset y m + daysInMonth y m <= monthOffset y (m + Z.of_nat n)).
Proof.
  induction n as [|n IH]; intros m H1 H2.
  - rewrite Z.add_0_r; split; [lia | intros N; contradiction N; reflexivity].
  - replace (m + Z.of_nat (S n)) with ((m + 1) + Z.of_nat n) by lia.
    destruct (IH (m + 1)) as [A _]; [lia | lia |].
    rewrite (monthOffset_next y m) in A by lia.
    pose proof (daysInMonth_range y m ltac:(lia)) as B.
    split; [lia | intros _; exact A].
Qed.

Lemma dayNumber_lt (a b : Date) :
  validDate a -> validDate b -> date_ltb a b = true -> dayNumber a < dayNumber b.
Proof.
  intros Va Vb L. apply validDate_spec in Va, Vb. apply date_ltb_spec in L.
  destruct a as [ya ma da], b as [yb mb db]; cbn [year month day] in *.
  destruct Va as [Ma Da], Vb as [Mb Db].
  rewrite !dayNumber_in_year by assumption.
  destruct L as [Ly | [Ey [Lm | [Em Ld]]]].
  - (* an earlier year *)
    pose proof (yearStart_mono (ya + 1) yb ltac:(lia)) as Y.
    rewrite yearStart_next in Y.
    destruct (monthOffset_mono ya (Z.to_nat (12 - ma)) ma) as [O1 O2]; try lia.
    destruct (monthOffset_mono yb (Z.to_nat (mb - 1)) 1) as [O3 _]; try lia.
    replace (ma + Z.of_nat (Z.to_nat (12 - ma))) with 12 in * by lia.
    replace (1 + Z.of_nat (Z.to_nat (mb - 1))) with mb in * by lia.
    change (monthOffset yb 1) with 0 in O3.
    destruct (Z.eq_dec ma 12) as [-> | N].
    + change (daysInMonth ya 12) with 31 in Da. lia.
    + assert (Z.to_nat (12 - ma) <> O) by lia. specialize (O2 ltac:(assumption)). lia.
  - (* the same year, an earlier month *)
    subst yb.
    destruct (monthOffset_mono ya (Z.to_nat (mb - ma)) ma) as [_ O2]; try lia.
    replace (ma + Z.of_nat (Z.to_nat (mb - ma))) with mb in * by lia.
    assert (Z.to_nat (mb - ma) <> O) by lia. specialize (O2 ltac:(assumption)). lia.
  - subst yb mb. lia.
Qed.

Lemma date_ltb_total (a b : Date) :
  date_ltb a b = false -> a = b \/ date_ltb b a = true.
Proof.
  intros H. apply date_ltb_false in H. rewrite date_ltb_spec.
  destruct a as [ya ma da], b as [yb mb db]; cbn [year month day] in *.
  destruct (Z.eq_dec ya yb), (Z.eq_dec ma mb), (Z.eq_dec da db);
    try (left; congruence); right; lia.
Qed.

Lemma date_ltb_dayNumber (a b : Date) :
  validDate a -> validDate b -> date_ltb a b = (dayNumber a <? dayNumber b).
Proof.
  intros Va Vb. destruct (date_ltb a b) eqn:L.
  - symmetry; apply Z.ltb_lt, dayNumber_lt; assumption.
  - symmetry; apply Z.ltb_ge.
    destruct (date_ltb_total a b L) as [-> | G]; [lia|].
    pose proof (dayNumber_lt b a Vb Va G). lia.
Qed.

Lemma date_leb_dayNumber (a b : Date) :
  validDate a -> validDate b -> date_leb a b = (dayNumber a <=? dayNumber b).
Proof.
  intros Va Vb. unfold date_leb. rewrite (date_ltb_dayNumber b a Vb Va).
  destruct (Z.ltb_spec (dayNumber b) (dayNumber a)), (Z.leb_spec (dayNumber a) (dayNumber b));
    try reflexivity; lia.
Qed.

(* ================================================================== *)
(** ** [mktime], [addDays], [addMonths] and [nextMonthlyOn] on calendar dates *)

Lemma mktime_calendar (y m d : Z) :
  validDate (mkDate y m d) -> mktime y m d = mkDate y m d.
Proof.
  intros V. pose proof V as V'. apply validDate_spec in V'; cbn [year month day] in V'.
  unfold mktime.
  replace (y + (m - 1) / 12) with y by (Z.to_euclidean_division_equations; lia).
  replace ((m - 1) mod 12 + 1) with m by (Z.to_euclidean_division_equations; lia).
  apply (civil_from_days_dayNumber (mkDate y m d) V).
Qed.

Lemma mktime_valid (y m d : Z) : validDate (mktime y m d).
Proof. apply civil_from_days_valid_dayNumber. Qed.

Lemma days_from_civil_day (y m d n : Z) :
  days_from_civil y m (d + n) = days_from_civil y m d + n.
Proof. unfold days_from_civil; ring. Qed.

Lemma addDays_dayNumber (tp : Date) (n : Z) :
  validDate tp ->
  validDate (addDays tp n) /\ dayNumber (addDays tp n) = dayNumber tp + n.
Proof.
  intros V. apply validDate_spec in V. destruct V as [Hm _].
  unfold addDays, mktime.
  replace (year tp + (month tp - 1) / 12) with (year tp)
    by (Z.to_euclidean_division_equations; lia).
  replace ((month tp - 1) mod 12 + 1) with (month tp)
    by (Z.to_euclidean_division_equations; lia).
  rewrite days_from_civil_day.
  destruct (civil_from_days_valid_dayNumber
              (days_from_civil (year tp) (month tp) (day tp) + n)) as [A B].
  split; [exact A | exact B].
Qed.

Lemma dayNumber_inj (a b : Date) :
  validDate a -> validDate b -> dayNumber a = dayNumber b -> a = b.
Proof.
  intros Va Vb E.
  rewrite <- (civil_from_days_dayNumber a Va), <- (civil_from_days_dayNumber b Vb), E.
  reflexivity.
Qed.

Lemma addDays_later (tp : Date) (n : Z) :
  validDate tp -> date_ltb tp (addDays tp n) = (0 <? n).
Proof.
  intros V. destruct (addDays_dayNumber tp n V) as [Vn Dn].
  rewrite (date_ltb_dayNumber tp (addDays tp n) V Vn), Dn.
  destruct (Z.ltb_spec (dayNumber tp) (dayNumber tp + n)), (Z.ltb_spec 0 n);
    try reflexivity; lia.
Qed.

Lemma addDays_zero (tp : Date) : validDate tp -> addDays tp 0 = tp.
Proof.
  intros V. destruct (addDays_dayNumber tp 0 V) as [V0 D0].
  apply dayNumber_inj; [assumption | assumption | lia].
Qed.

Lemma addDays_add (tp : Date) (a b : Z) :
  validDate tp -> addDays (addDays tp a) b = addDays tp (a + b).
Proof.
  intros V.
  destruct (addDays_dayNumber tp a V) as [Va Da].
  destruct (addDays_dayNumber tp (a + b) V) as [Vab Dab].
  destruct (addDays_dayNumber (addDays tp a) b Va) as [Vb Db].
  apply dayNumber_inj; [assumption | assumption | lia].
Qed.

(** X6.  On a calendar date within the clock, and for a number of days
    that stays within the clock, [addDays] adds without overflow and
    moves the day number by exactly [n]: adding 0 days changes nothing,
    two additions compose, and the result is later than the date exactly
    when [n] is positive. *)
Theorem addDays_calendar (tp : Date) (a b : Z) :
  validDate tp -> inClock tp ->
  clockDay (dayNumber tp + a) -> clockDay (dayNumber tp + a + b) ->
  INT_MIN <= day tp + a <= INT_MAX
  /\ (validDate (addDays tp a) /\ inClock (addDays tp a)
      /\ dayNumber (addDays tp a) = dayNumber tp + a)
  /\ addDays tp 0 = tp
  /\ (INT_MIN <= day (addDays tp a) + b <= INT_MAX
      /\ addDays (addDays tp a) b = addDays tp (a + b)
      /\ inClock (addDays (addDays tp a) b))
  /\ date_ltb tp (addDays tp a) = (0 <? a).
Proof.
  intros V C Ca Cab.
  destruct (addDays_dayNumber tp a V) as [Va Da].
  destruct (addDays_dayNumber (addDays tp a) b Va) as [Vb Db].
  pose proof V as V'. pose proof Va as Va'.
  apply validDate_spec in V', Va'. destruct V' as [Hm Hd], Va' as [Hma Hda].
  pose proof (daysInMonth_range (year tp) (month tp) Hm) as B.
  pose proof (daysInMonth_range (year (addDays tp a)) (month (addDays tp a)) Hma) as Ba.
  unfold inClock, clockDay, CLOCK_DAYS, INT_MIN, INT_MAX in *.
  split; [lia|]. split; [split; [exact Va | split; [lia | exact Da]]|].
  split; [apply addDays_zero; exact V|].
  split; [split; [lia | split; [apply addDays_add; exact V | lia]]|].
  apply addDays_later; exact V.
Qed.

Lemma addDays_calendar_witness :
  let tp := mkDate 2024 2 28 in
  validDate tp /\ inClock tp
  /\ clockDay (dayNumber tp + 2) /\ clockDay (dayNumber tp + 2 + -1)
  /\ INT_MIN <= day tp + 2 <= INT_MAX
  /\ (validDate (addDays tp 2) /\ inClock (addDays tp 2)
      /\ dayNumber (addDays tp 2) = dayNumber tp + 2)
  /\ addDays tp 0 = tp
  /\ (INT_MIN <= day (addDays tp 2) + -1 <= INT_MAX
      /\ addDays (addDays tp 2) (-1) = addDays tp (2 + -1)
      /\ inClock (addDays (addDays tp 2) (-1)))
  /\ date_ltb tp (addDays tp 2) = (0 <? 2).
Proof.
  cbv zeta.
  assert (C : inClock (mkDate 2024 2 28)) by (vm_compute; split; discriminate).
  assert (C1 : clockDay (dayNumber (mkDate 2024 2 28) + 2))
    by (vm_compute; split; discriminate).
  assert (C2 : clockDay (dayNumber (mkDate 2024 2 28) + 2 + -1))
    by (vm_compute; split; discriminate).
  split; [reflexivity|]. split; [exact C|]. split; [exact C1|]. split; [exact C2|].
  apply (addDays_calendar (mkDate 2024 2 28) 2 (-1)); [reflexivity | exact C | exact C1 | exact C2].
Defined.

Lemma addMonths_fields (tp : Date) (n : Z) :
  1 <= month tp <= 12 ->
  exists newYear newMonth,
    addMonths tp n
    = mktime newYear newMonth (Z.min (day tp) (daysInMonth newYear newMonth))
    /\ 1 <= newMonth <= 12
    /\ newYear * 12 + newMonth = monthIndex tp + n.
Proof.
  intros Hm. unfold addMonths, monthIndex.
  set (totalMonths := month tp - 1 + n).
  destruct (Z.rem totalMonths 12 + 1 <=? 0) eqn:E.
  - apply Z.leb_le in E.
    exists (year tp + Z.quot totalMonths 12 - 1), (Z.rem totalMonths 12 + 1 + 12).
    split; [reflexivity|].
    subst totalMonths; Z.to_euclidean_division_equations; lia.
  - apply Z.leb_gt in E.
    exists (year tp + Z.quot totalMonths 12), (Z.rem totalMonths 12 + 1).
    split; [reflexivity|].
    subst totalMonths; Z.to_euclidean_division_equations; lia.
Qed.

Lemma addMonths_mkDate (tp : Date) (n : Z) :
  validDate tp ->
  exists ny nm,
    addMonths tp n = mkDate ny nm (Z.min (day tp) (daysInMonth ny nm))
    /\ validDate (addMonths tp n)
    /\ ny * 12 + nm = monthIndex tp + n.
Proof.
  intros V. apply validDate_spec in V. destruct V as [Hm Hd].
  destruct (addMonths_fields tp n Hm) as [ny [nm [E [Hnm Hidx]]]].
  pose proof (daysInMonth_range ny nm Hnm) as B.
  assert (Vr : validDate (mkDate ny nm (Z.min (day tp) (daysInMonth ny nm)))).
  { apply validDate_spec; cbn [year month day]. lia. }
  exists ny, nm. rewrite E, (mktime_calendar _ _ _ Vr).
  split; [reflexivity|]. split; [exact Vr | exact Hidx].
Qed.



Lemma monthIndex_order (a b : Date) :
  1 <= month a <= 12 -> 1 <= month b <= 12 ->
  (monthIndex a < monthIndex b -> date_ltb a b = true)
  /\ (monthIndex a = monthIndex b -> year a = year b /\ month a = month b).
Proof.
  intros Ha Hb. unfold monthIndex. rewrite date_ltb_spec. split; intros H; lia.
Qed.

Lemma nextMonthlyOn_mkDate (from : Date) (d : Z) :
  validDate from -> 1 <= d <= 31 ->
  exists y1 m1,
    nextMonthlyOn from d = mkDate y1 m1 (Z.min d (daysInMonth y1 m1))
    /\ 1 <= m1 <= 12
    /\ (if day from <? d then y1 = year from /\ m1 = month from
        else y1 * 12 + m1 = monthIndex from + 1).
Proof.
  intros V Hd. pose proof V as V'. apply validDate_spec in V'.
  destruct V' as [Hm Hday].
  destruct from as [y m dd]; cbn [year month day] in *.
  unfold nextMonthlyOn, monthIndex; cbn [year month day].
  pose proof (daysInMonth_range y m Hm) as B.
  destruct (dd <? d) eqn:E.
  - apply Z.ltb_lt in E.
    assert (Vr : validDate (mkDate y m (Z.min d (daysInMonth y m))))
      by (apply validDate_spec; cbn [year month day]; lia).
    rewrite (mktime_calendar _ _ _ Vr).
    exists y, m. split; [reflexivity|]. split; [exact Hm | split; reflexivity].
  - apply Z.ltb_ge in E.
    set (m1 := if m + 1 >? 12 then 1 else m + 1).
    set (y1 := if m + 1 >? 12 then y + 1 else y).
    assert (Epair : (if m + 1 >? 12 then (1, y + 1) else (m + 1, y)) = (m1, y1))
      by (subst m1 y1; destruct (m + 1 >? 12); reflexivity).
    rewrite Epair.
    assert (Hm1 : 1 <= m1 <= 12 /\ y1 * 12 + m1 = y * 12 + m + 1).
    { subst m1 y1. destruct (Z.gtb_spec (m + 1) 12); lia. }
    destruct Hm1 as [Hm1 Hidx].
    pose proof (daysInMonth_range y1 m1 Hm1) as B1.
    assert (Vr : validDate (mkDate y1 m1 (Z.min d (daysInMonth y1 m1))))
      by (apply validDate_spec; cbn [year month day]; lia).
    rewrite (mktime_calendar _ _ _ Vr).
    exists y1, m1. split; [reflexivity|]. split; [exact Hm1 | exact Hidx].
Qed.

Lemma nextMonthlyOn_not_earlier (from : Date) (d : Z) :
  validDate from -> 1 <= d <= 31 ->
  validDate (nextMonthlyOn from d) /\ date_ltb (nextMonthlyOn from d) from = false.
Proof.
  intros V Hd.
  destruct (nextMonthlyOn_mkDate from d V Hd) as [y1 [m1 [E [Hm1 S]]]].
  pose proof V as V'. apply validDate_spec in V'. destruct V' as [Hm Hday].
  pose proof (daysInMonth_range y1 m1 Hm1) as B1.
  rewrite E. split.
  - apply validDate_spec; cbn [year month day]; lia.
  - apply date_ltb_false; cbn [year month day]. unfold monthIndex in S.
    destruct (Z.ltb_spec (day from) d) as [L | L].
    + destruct S as [-> ->]. lia.
    + lia.
Qed.

Lemma monthOffset_january (y : Z) : monthOffset y 1 = 0.
Proof. unfold monthOffset. reflexivity. Qed.

(** [nextMonthlyOn] moves a date by at most 31 days. *)
Lemma nextMonthlyOn_within_month (from : Date) (d : Z) :
  validDate from -> 1 <= d <= 31 ->
  dayNumber from <= dayNumber (nextMonthlyOn from d) <= dayNumber from + 31.
Proof.
  intros V Hd.
  destruct (nextMonthlyOn_mkDate from d V Hd) as [y1 [m1 [E [Hm1 S]]]].
  pose proof V as V'. apply validDate_spec in V'. destruct V' as [Hm Hday].
  rewrite E. clear E.
  destruct from as [y m dd]; unfold monthIndex in S; cbn [year month day] in *.
  pose proof (daysInMonth_range y m Hm) as B.
  pose proof (daysInMonth_range y1 m1 Hm1) as B1.
  rewrite !dayNumber_in_year by assumption.
  destruct (Z.ltb_spec dd d) as [C | C].
  - destruct S as [-> ->]. lia.
  - assert (K : (y1 = y /\ m1 = m + 1 /\ m <= 11) \/ (y1 = y + 1 /\ m1 = 1 /\ m = 12))
      by lia.
    destruct K as [[-> [-> M]] | [-> [-> ->]]].
    + rewrite (monthOffset_next y m) by lia. lia.
    + rewrite yearStart_next, monthOffset_january.
      assert (D : daysInMonth y 12 = 31) by reflexivity. lia.
Qed.



Lemma monthsBetweenInclusive_value (s e : Date) :
  monthInRange s -> monthInRange e ->
  date_ltb e s = false ->
  monthsBetweenInclusive s e
  = monthIndex e - monthIndex s + (if day e >=? day s then 1 else 0).
Proof.
  unfold monthInRange. intros Hs He L.
  unfold monthsBetweenInclusive, monthIndex. rewrite L.
  apply date_ltb_false in L.
  destruct (day e >=? day s) eqn:D; [lia|].
  rewrite Z.geb_leb in D; apply Z.leb_gt in D. lia.
Qed.

(** X9.  [monthsBetweenInclusive] is never negative, is 0 exactly when
    the end is before the start, and otherwise counts the month steps
    between the two months plus one when the end day is not below the
    start day. *)
Theorem monthsBetweenInclusive_calendar (s e : Date) :
  monthInRange s -> monthInRange e ->
  0 <= monthsBetweenInclusive s e
  /\ (monthsBetweenInclusive s e = 0 <-> date_ltb e s = true)
  /\ (date_ltb e s = false ->
      monthsBetweenInclusive s e
      = monthIndex e - monthIndex s + (if day e >=? day s then 1 else 0)).
Proof.
  intros Hs He.
  split; [|split; [|apply monthsBetweenInclusive_value; assumption]];
    unfold monthInRange in *.
  - unfold monthsBetweenInclusive. destruct (date_ltb e s) eqn:L; [lia|].
    apply date_ltb_false in L. destruct (day e >=? day s) eqn:D; [lia|].
    rewrite Z.geb_leb in D; apply Z.leb_gt in D. lia.
  - destruct (date_ltb e s) eqn:L.
    + unfold monthsBetweenInclusive; rewrite L. tauto.
    + rewrite (monthsBetweenInclusive_value s e Hs He L). unfold monthIndex.
      apply date_ltb_false in L.
      split; [|intros H; discriminate H].
      destruct (day e >=? day s) eqn:D; [lia|].
      rewrite Z.geb_leb in D; apply Z.leb_gt in D. lia.
Qed.

Lemma monthsBetweenInclusive_calendar_witness :
  let s := mkDate 2024 1 31 in
  let e := mkDate 2024 3 15 in
  monthInRange s /\ monthInRange e
  /\ 0 <= monthsBetweenInclusive s e
  /\ (monthsBetweenInclusive s e = 0 <-> date_ltb e s = true)
  /\ (date_ltb e s = false ->
      monthsBetweenInclusive s e
      = monthIndex e - monthIndex s + (if day e >=? day s then 1 else 0)).
Proof.
  cbv zeta. split; [unfold monthInRange; cbn; lia|]. split; [unfold monthInRange; cbn; lia|].
  apply (monthsBetweenInclusive_calendar (mkDate 2024 1 31) (mkDate 2024 3 15));
    unfold monthInRange; cbn; lia.
Defined.

(** Every apply date of the interest loop is within the target date. *)
Lemma addMonths_within (from upTo : Date) (m : Z) :
  validDate from -> validDate upTo ->
  0 <= m < monthsBetweenInclusive from upTo ->
  date_leb (addMonths from m) upTo = true.
Proof.
  intros Vf Vu Hm.
  destruct (addMonths_mkDate from m Vf) as [ny [nm [E [Vr Hidx]]]].
  pose proof Vf as Vf'. pose proof Vu as Vu'. pose proof Vr as Vr'.
  apply validDate_spec in Vf', Vu', Vr'.
  destruct Vf' as [Mf Df], Vu' as [Mu Du], Vr' as [Mr Dr].
  destruct (date_ltb upTo from) eqn:L.
  - unfold monthsBetweenInclusive in Hm; rewrite L in Hm; lia.
  - rewrite (monthsBetweenInclusive_value from upTo Mf Mu L) in Hm.
    unfold date_leb. apply negb_true_iff, date_ltb_false.
    rewrite E in *. cbn [year month day] in *.
    apply date_ltb_false in L.
    unfold monthIndex in *.
    destruct (day upTo >=? day from) eqn:D.
    + rewrite Z.geb_leb in D; apply Z.leb_le in D. lia.
    + lia.
Qed.

(* ================================================================== *)
(** ** Dates as text *)

Lemma digit_of_digit_char (k : Z) : 0 <= k <= 9 -> digit_of (digit_char k) = Some k.
Proof.
  intros H. unfold digit_of, digit_char.
  rewrite nat_ascii_embedding by lia.
  rewrite Z2Nat.id by lia.
  replace (48 <=? 48 + k) with true by (symmetry; apply Z.leb_le; lia).
  replace (48 + k <=? 57) with true by (symmetry; apply Z.leb_le; lia).
  cbn [andb]; f_equal; lia.
Qed.

Lemma read_fixed_two (n acc : Z) (rest : string) :
  0 <= n <= 99 ->
  read_fixed 2 (two_digits n ++ rest) acc = Some (100 * acc + n, rest).
Proof.
  intros H. unfold two_digits; cbn [append read_fixed].
  rewrite !digit_of_digit_char by (Z.to_euclidean_division_equations; lia).
  f_equal; f_equal. Z.to_euclidean_division_equations; lia.
Qed.

Lemma decimal_four (y : Z) :
  1000 <= y <= 9999 ->
  decimal y
  = String (digit_char (y / 1000))
      (String (digit_char (y / 100 mod 10))
         (String (digit_char (y / 10 mod 10))
            (String (digit_char (y mod 10)) EmptyString))).
Proof.
  intros H. unfold decimal.
  replace (y <? 0) with false by (symmetry; apply Z.ltb_ge; lia).
  cbn [decimal_digits].
  replace (y <? 10) with false by (symmetry; apply Z.ltb_ge; lia).
  replace (y / 10 <? 10) with false
    by (symmetry; apply Z.ltb_ge; Z.to_euclidean_division_equations; lia).
  replace (y / 10 / 10 <? 10) with false
    by (symmetry; apply Z.ltb_ge; Z.to_euclidean_division_equations; lia).
  replace (y / 10 / 10 / 10 <? 10) with true
    by (symmetry; apply Z.ltb_lt; Z.to_euclidean_division_equations; lia).
  replace (y / 10 / 10 / 10 mod 10) with (y / 1000)
    by (Z.to_euclidean_division_equations; lia).
  replace (y / 10 / 10 mod 10) with (y / 100 mod 10)
    by (Z.to_euclidean_division_equations; lia).
  reflexivity.
Qed.

Lemma read_fixed_year (y : Z) (rest : string) :
  1000 <= y <= 9999 ->
  read_fixed 4 (decimal y ++ rest) 0 = Some (y, rest).
Proof.
  intros H. rewrite (decimal_four y H). cbn [append read_fixed].
  rewrite !digit_of_digit_char by (Z.to_euclidean_division_equations; lia).
  f_equal; f_equal. Z.to_euclidean_division_equations; lia.
Qed.



Lemma tryParseDate_mktime (s : string) (d : Date) :
  tryParseDate s = Some d -> exists y m dd, d = mktime y m dd.
Proof.
  unfold tryParseDate.
  destruct (read_fixed 4 s 0) as [[y r1]|]; [|discriminate].
  destruct (expect "-" r1) as [r2|]; [|discriminate].
  destruct (read_fixed 2 r2 0) as [[m r3]|]; [|discriminate].
  destruct (expect "-" r3) as [r4|]; [|discriminate].
  destruct (read_fixed 2 r4 0) as [[dd r5]|]; [|discriminate].
  destruct (_ && _); [|discriminate].
  intros H; inversion H; subst. exists y, m, dd; reflexivity.
Qed.



(* ================================================================== *)
(** ** Category balances and the log *)

Lemma find_ensure {V : Type} k k' (v : V) m :
  StrMap.find k' (StrMap.ensure k v m)
  = if StrMap.mem k m then StrMap.find k' m
    else if String.eqb k' k then Some v else StrMap.find k' m.
Proof.
  unfold StrMap.ensure; destruct (StrMap.mem k m); [reflexivity | apply find_put].
Qed.

Lemma get_put {V : Type} (d : V) k k' v m :
  StrMap.get d k' (StrMap.put k v m) = if String.eqb k' k then v else StrMap.get d k' m.
Proof. unfold StrMap.get; rewrite find_put; destruct (String.eqb k' k); reflexivity. Qed.

(** Ensuring a key with the default value does not change what is read. *)
Lemma get_ensure_default {V : Type} (d : V) k k' m :
  StrMap.get d k' (StrMap.ensure k d m) = StrMap.get d k' m.
Proof.
  unfold StrMap.get; rewrite find_ensure.
  destruct (StrMap.mem k m) eqn:M; [reflexivity|].
  destruct (String.eqb k' k) eqn:E; [|reflexivity].
  apply String.eqb_eq in E; subst k'.
  unfold StrMap.mem in M; destruct (StrMap.find k m); [discriminate | reflexivity].
Qed.

Lemma mem_find {V : Type} k (m : list (string * V)) :
  StrMap.mem k m = true <-> exists v, StrMap.find k m = Some v.
Proof.
  unfold StrMap.mem; destruct (StrMap.find k m) as [v|]; split.
  - intros _; exists v; reflexivity.
  - reflexivity.
  - discriminate.
  - intros [v H]; discriminate H.
Qed.

Lemma categorySum_app k l t :
  (categorySum k (l ++ [t])
   == categorySum k l
      + (if String.eqb (normalizeKey (tx_category t)) k then tx_amount t else 0))%Q.
Proof.
  unfold categorySum; rewrite fold_left_app; simpl.
  destruct (String.eqb (normalizeKey (tx_category t)) k); ring.
Qed.

(** One posting under the key [nk]: the name is ensured, the balance of
    [nk] raised by the amount and a transaction with that key appended. *)
Lemma posting_consistent (a a' : Account) (nk disp : string) (t : Transaction) :
  normalizeKey disp = nk ->
  normalizeKey (tx_category t) = nk ->
  (forall k, StrMap.find k (displayNames a')
             = StrMap.find k (StrMap.ensure nk disp (displayNames a))) ->
  (forall k, StrMap.get 0%Q k (categoryBalances a')
             = if String.eqb k nk
               then (StrMap.get 0%Q nk (categoryBalances a) + tx_amount t)%Q
               else StrMap.get 0%Q k (categoryBalances a)) ->
  txs a' = (txs a ++ [t])%list ->
  namesNormalised a /\ balancesMatchLog a ->
  namesNormalised a' /\ balancesMatchLog a'.
Proof.
  intros Hd Ht Hdn Hcb Htx [N B]; split.
  - intros k v Hf. rewrite Hdn, find_ensure in Hf.
    destruct (StrMap.mem nk (displayNames a)); [apply N, Hf|].
    destruct (String.eqb k nk) eqn:E; [|apply N, Hf].
    apply String.eqb_eq in E; inversion Hf; subst; reflexivity.
  - intros k. rewrite Hcb, Htx, categorySum_app, Ht.
    destruct (String.eqb k nk) eqn:E.
    + apply String.eqb_eq in E; subst k. rewrite String.eqb_refl, (B nk); reflexivity.
    + rewrite String.eqb_sym, E, (B k); ring.
Qed.

Lemma get_display_normalised (a : Account) (nk disp : string) :
  namesNormalised a -> normalizeKey disp = nk ->
  normalizeKey (StrMap.get EmptyString nk (StrMap.ensure nk disp (displayNames a))) = nk.
Proof.
  intros N Hd. unfold StrMap.get. rewrite find_ensure, String.eqb_refl.
  destruct (StrMap.mem nk (displayNames a)) eqn:M; [|exact Hd].
  apply mem_find in M; destruct M as [v Hv]. rewrite Hv; apply N, Hv.
Qed.

Lemma addManualTransaction_keeps date amount cat note a :
  namesNormalised a /\ balancesMatchLog a ->
  namesNormalised (addManualTransaction date amount cat note a)
  /\ balancesMatchLog (addManualTransaction date amount cat note a).
Proof.
  intros H. unfold addManualTransaction.
  set (catDisplay := if is_empty cat then "Other" else sanitizeDisplayName cat).
  set (nk := normalizeKey catDisplay).
  eapply (posting_consistent a _ nk catDisplay); try exact H;
    cbn [displayNames categoryBalances txs tx_category tx_amount]; try reflexivity.
  - apply get_display_normalised; [apply H | reflexivity].
  - intros k. rewrite get_put, !get_ensure_default. reflexivity.
Qed.

(** X12.  What a manual posting does: one transaction is appended, with
    the date, amount and note given and the stored display name of the
    category; the balance of that category goes up by the amount and no
    other category balance changes. *)
Theorem addManualTransaction_posting date amount cat note a :
  let nk := normalizeKey (if is_empty cat then "Other" else sanitizeDisplayName cat) in
  let a' := addManualTransaction date amount cat note a in
  (exists name,
      txs a' = (txs a ++ [mkTx date amount name note])%list
      /\ StrMap.find nk (displayNames a') = Some name)
  /\ StrMap.get 0%Q nk (categoryBalances a')
     = (StrMap.get 0%Q nk (categoryBalances a) + amount)%Q
  /\ (forall k, k <> nk ->
                StrMap.get 0%Q k (categoryBalances a') = StrMap.get 0%Q k (categoryBalances a)).
Proof.
  intros nk a'. subst a'. unfold addManualTransaction. fold nk.
  cbn [displayNames categoryBalances txs].
  split; [|split].
  - assert (M : StrMap.mem nk (StrMap.ensure nk
                  (if is_empty cat then "Other" else sanitizeDisplayName cat)
                  (displayNames a)) = true) by apply mem_ensure_same.
    apply mem_find in M. destruct M as [v Hv].
    exists v; split; [|exact Hv]. unfold StrMap.get; rewrite Hv; reflexivity.
  - rewrite get_put, String.eqb_refl, get_ensure_default; reflexivity.
  - intros k Hk. apply String.eqb_neq in Hk.
    rewrite get_put, Hk, get_ensure_default; reflexivity.
Qed.

Lemma ledgerConsistent_posting (a a' : Account) (nk disp : string) (t : Transaction) :
  ledgerStep a a' ->
  normalizeKey disp = nk ->
  normalizeKey (tx_category t) = nk ->
  (forall k, StrMap.find k (displayNames a')
             = StrMap.find k (StrMap.ensure nk disp (displayNames a))) ->
  (forall k, StrMap.get 0%Q k (categoryBalances a')
             = if String.eqb k nk
               then (StrMap.get 0%Q nk (categoryBalances a) + tx_amount t)%Q
               else StrMap.get 0%Q k (categoryBalances a)) ->
  txs a' = (txs a ++ [t])%list ->
  ledgerConsistent a -> ledgerConsistent a'.
Proof.
  intros S Hd Ht Hdn Hcb Htx [N NB]. split.
  - eapply ledgerStep_nested; eassumption.
  - apply (posting_consistent a a' nk disp t); assumption.
Qed.

(** A key that has a display name: ensuring it again changes nothing. *)
Lemma ensure_present {V : Type} k (v : V) m : StrMap.mem k m = true -> StrMap.ensure k v m = m.
Proof. unfold StrMap.ensure; intros ->; reflexivity. Qed.

Lemma named_key_normalised (a : Account) (k v : string) :
  namesNormalised a -> StrMap.find k (displayNames a) = Some v ->
  normalizeKey (if is_empty v then k else v) = k.
Proof.
  intros N Hv. pose proof (N k v Hv) as E.
  destruct v as [|c r]; simpl; [|exact E].
  simpl in E. subst k. reflexivity.
Qed.

Lemma addManualTransaction_consistent date amount cat note a :
  ledgerConsistent a -> ledgerConsistent (addManualTransaction date amount cat note a).
Proof.
  intros [N NB]; split.
  - eapply ledgerStep_nested; [apply addManualTransaction_step | exact N].
  - apply addManualTransaction_keeps, NB.
Qed.

Lemma allocateShare_consistent date amount note total a p :
  ledgerConsistent a -> StrMap.mem (fst p) (allocationPct a) = true ->
  ledgerConsistent (allocateShare date amount note total a p).
Proof.
  intros C Hp. pose proof C as [[Cov _] [N _]].
  destruct (Cov (fst p) Hp) as [Hdn _].
  pose proof Hdn as Hdn'. apply mem_find in Hdn'. destruct Hdn' as [v Hv].
  pose proof (allocateShare_step date amount note total a p) as S.
  unfold allocateShare in *.
  rewrite (ensure_present _ EmptyString _ Hdn) in *.
  match goal with |- ledgerConsistent (mkAccount _ (_ ++ [?t]) _ _ _ _ _ _) =>
    apply (ledgerConsistent_posting a _ (fst p) v t) end; try assumption.
  - apply (N _ _ Hv).
  - cbn [tx_category]. unfold StrMap.get; rewrite Hv.
    apply (named_key_normalised a); assumption.
  - intros k; cbn [displayNames]. rewrite (ensure_present _ _ _ Hdn); reflexivity.
  - intros k; cbn [categoryBalances tx_amount]. apply get_put.
  - reflexivity.
Qed.

Lemma allocateShares_consistent date amount note total l :
  forall a,
    ledgerConsistent a ->
    Forall (fun p => StrMap.mem (fst p) (allocationPct a) = true) l ->
    ledgerConsistent (fold_left (allocateShare date amount note total) l a).
Proof.
  induction l as [|p l IH]; intros a C F; simpl; [exact C|].
  inversion F as [|p' l' Hp Hl]; subst.
  apply IH; [apply allocateShare_consistent; assumption|].
  eapply Forall_impl; [|exact Hl]. intros q Hq; exact Hq.
Qed.

Lemma entries_are_members {V : Type} (m : list (string * V)) :
  Forall (fun p => StrMap.mem (fst p) m = true) m.
Proof.
  induction m as [|[k v] r IH]; constructor.
  - cbn [fst]. rewrite mem_cons, String.eqb_refl; reflexivity.
  - eapply Forall_impl; [|exact IH]. intros p Hp.
    rewrite mem_cons, Hp; apply orb_true_r.
Qed.

Lemma allocateAmount_consistent date amount note a :
  ledgerConsistent a -> ledgerConsistent (allocateAmount date amount note a).
Proof.
  intros C. unfold allocateAmount.
  destruct (Qle_bool (totalPct (allocationPct a)) epsilon) eqn:E.
  - pose proof (allocateAmount_step date amount note a) as S.
    unfold allocateAmount in S; rewrite E in S.
    match goal with |- ledgerConsistent (mkAccount _ (_ ++ [?t]) _ _ _ _ _ _) =>
      apply (ledgerConsistent_posting a _ (normalizeKey "Other") "Other" t) end;
      try assumption; cbn [displayNames categoryBalances txs tx_category tx_amount];
      try reflexivity.
    + apply get_display_normalised; [apply C | reflexivity].
    + intros k; apply get_put.
  - apply allocateShares_consistent; [exact C | apply entries_are_members].
Qed.

Lemma fireOnce_consistent s a : ledgerConsistent a -> ledgerConsistent (snd (fireOnce s a)).
Proof.
  intros C; unfold fireOnce; cbn [snd].
  destruct (autoAllocate s && negb (Qle_bool (sched_amount s) 0)).
  - apply allocateAmount_consistent, C.
  - apply addManualTransaction_consistent, C.
Qed.

Lemma fireLoop_consistent n upTo :
  forall s a, ledgerConsistent a -> ledgerConsistent (snd (fireLoop n upTo s a)).
Proof.
  induction n as [|n IH]; intros s a C; cbn [fireLoop]; [exact C|].
  destruct (date_leb (nextDate s) upTo); [|exact C].
  pose proof (fireOnce_consistent s a C) as H1.
  destruct (fireOnce s a) as [s' a']; cbn [snd] in H1. apply IH, H1.
Qed.

Lemma processScheduleList_consistent upTo ss :
  forall a, ledgerConsistent a -> ledgerConsistent (snd (processScheduleList upTo ss a)).
Proof.
  induction ss as [|s r IH]; intros a C; cbn [processScheduleList]; [exact C|].
  assert (H1 : ledgerConsistent (snd (processSchedule upTo s a))).
  { unfold processSchedule; destruct (scheduleSkipped s);
      [exact C | apply fireLoop_consistent, C]. }
  destruct (processSchedule upTo s a) as [s' a']; cbn [snd] in H1.
  pose proof (IH a' H1) as H2.
  destruct (processScheduleList upTo r a') as [r' a'']; exact H2.
Qed.

Lemma processSchedulesUpTo_consistent upTo a :
  ledgerConsistent a -> ledgerConsistent (processSchedulesUpTo upTo a).
Proof.
  intros C. unfold processSchedulesUpTo.
  pose proof (processScheduleList_consistent upTo (schedules a) a C) as H.
  destruct (processScheduleList upTo (schedules a) a) as [ss a']; exact H.
Qed.

Lemma interestMonth_consistent ie fromDate rate m a w :
  ledgerConsistent a ->
  StrMap.mem (categoryNormalized ie) (displayNames a) = true ->
  ledgerConsistent (fst (interestMonth ie fromDate rate m (a, w))).
Proof.
  intros C Hn. pose proof (interestMonth_step ie fromDate rate m a w Hn) as S.
  unfold interestMonth in *.
  destruct (Qle_bool _ 0); [exact C|].
  destruct (negb (Qeq_bool _ 0)); [|exact C].
  pose proof Hn as Hn'. apply mem_find in Hn'. destruct Hn' as [v Hv].
  destruct C as [N [NN B]].
  cbn [fst] in *.
  match goal with |- ledgerConsistent (mkAccount _ (_ ++ [?t]) _ _ _ _ _ _) =>
    apply (ledgerConsistent_posting a _ (categoryNormalized ie) v t) end;
    try assumption; cbn [displayNames categoryBalances txs tx_category tx_amount].
  - apply (NN _ _ Hv).
  - rewrite Hn. unfold StrMap.get; rewrite Hv. apply (NN _ _ Hv).
  - intros k. rewrite (ensure_present _ _ _ Hn); reflexivity.
  - intros k; apply get_put.
  - reflexivity.
  - split; [exact N | split; assumption].
Qed.

Lemma interestMonths_consistent n ie fromDate rate :
  forall m a w,
    ledgerConsistent a ->
    StrMap.mem (categoryNormalized ie) (displayNames a) = true ->
    ledgerConsistent (fst (interestMonths n ie fromDate rate m (a, w))).
Proof.
  induction n as [|n IH]; intros m a w C Hn; cbn [interestMonths]; [exact C|].
  pose proof (interestMonth_consistent ie fromDate rate m a w C Hn) as H1.
  pose proof (interestMonth_step ie fromDate rate m a w Hn) as [_ [D _]].
  destruct (interestMonth ie fromDate rate m (a, w)) as [a1 w1]; cbn [fst] in *.
  apply IH; [exact H1 | apply D, Hn].
Qed.

Lemma interestRules_consistent upTo im :
  forall a w,
    ledgerConsistent a ->
    Forall (fun p => StrMap.mem (categoryNormalized (snd p)) (displayNames a) = true) im ->
    ledgerConsistent (fst (snd (interestRules upTo im (a, w)))).
Proof.
  induction im as [|[k ie] r IH]; intros a w C Hn; cbn [interestRules]; [exact C|].
  inversion Hn as [|p l Hie Hr]; subst; cbn [snd] in Hie.
  assert (H1 : ledgerConsistent (fst (snd (interestRule upTo ie (a, w))))).
  { unfold interestRule.
    destruct (date_gtb (startDate ie) upTo); [exact C|].
    destruct (_ <=? 0); [exact C|].
    cbn [fst snd]; apply interestMonths_consistent; assumption. }
  pose proof (interestRule_step upTo ie a w Hie) as [_ [D _]].
  destruct (interestRule upTo ie (a, w)) as [ie' [a1 w1]]; cbn [fst snd] in *.
  assert (Hr1 : Forall (fun p => StrMap.mem (categoryNormalized (snd p))
                                   (displayNames a1) = true) r)
    by (eapply rulesNamed_grow; eassumption).
  pose proof (IH a1 w1 H1 Hr1) as H2.
  destruct (interestRules upTo r (a1, w1)) as [r' st'']; exact H2.
Qed.

Lemma applyInterestUpTo_consistent upTo a :
  ledgerConsistent a -> ledgerConsistent (applyInterestUpTo upTo a).
Proof.
  intros C. split; [apply applyInterestUpTo_nested, C|].
  pose proof C as [[_ [_ R]] _].
  unfold applyInterestUpTo.
  destruct (interestMap a) as [|e r] eqn:IM; [apply C|].
  unfold rulesNamed in R; rewrite IM in R.
  pose proof (interestRules_consistent upTo (e :: r) a (txs a) C R) as H.
  destruct (interestRules upTo (e :: r) (a, txs a)) as [im [a' w']]; cbn [fst snd] in H.
  destruct H as [_ H]. exact H.
Qed.

Lemma setAllocation_keeps newAlloc a :
  namesNormalised a /\ balancesMatchLog a ->
  namesNormalised (setAllocation newAlloc a) /\ balancesMatchLog (setAllocation newAlloc a).
Proof.
  unfold setAllocation.
  match goal with |- _ -> namesNormalised (fold_left ?f _ ?a0) /\ _ =>
    intros H; assert (H0 : namesNormalised a0 /\ balancesMatchLog a0) by exact H;
    clear H; generalize dependent a0; set (step := f) end.
  induction newAlloc as [|p l IH]; intros a0 H0; simpl; [exact H0|].
  apply IH. destruct H0 as [N B]. subst step; split.
  - intros k v; cbn [displayNames]. rewrite find_ensure.
    destruct (StrMap.mem _ (displayNames a0)); [apply N|].
    destruct (String.eqb k _) eqn:E; [|apply N].
    apply String.eqb_eq in E. intros Hv; inversion Hv; subst; reflexivity.
  - intros k; cbn [categoryBalances txs]. rewrite get_ensure_default. apply B.
Qed.

Lemma setAllocation_consistent newAlloc a :
  ledgerConsistent a -> ledgerConsistent (setAllocation newAlloc a).
Proof.
  intros [N NB]; split; [apply setAllocation_nested, N | apply setAllocation_keeps, NB].
Qed.

(** X13.  From a state in which the category maps are nested, every
    display name normalises to its key and every category balance is the
    sum of the transactions of its key, each of [addManualTransaction],
    [allocateAmount], [setAllocation], [processSchedulesUpTo] and
    [applyInterestUpTo] ends in such a state again: the category
    balances never drift from the log. *)
Theorem ledger_operations_keep_category_balances :
  forall a : Account,
    ledgerConsistent a ->
    (forall date amount cat note,
        ledgerConsistent (addManualTransaction date amount cat note a))
    /\ (forall date amount note, ledgerConsistent (allocateAmount date amount note a))
    /\ (forall newAlloc, ledgerConsistent (setAllocation newAlloc a))
    /\ (forall upTo, ledgerConsistent (processSchedulesUpTo upTo a))
    /\ (forall upTo, ledgerConsistent (applyInterestUpTo upTo a)).
Proof.
  intros a C.
  split; [|split; [|split; [|split]]]; intros.
  - apply addManualTransaction_consistent, C.
  - apply allocateAmount_consistent, C.
  - apply setAllocation_consistent, C.
  - apply processSchedulesUpTo_consistent, C.
  - apply applyInterestUpTo_consistent, C.
Qed.

Lemma newAccount_consistent : ledgerConsistent newAccount.
Proof.
  split; [exact newAccount_nested|]. split.
  - intros k v. change (displayNames newAccount)
      with [("emergency", "Emergency"); ("entertainment", "Entertainment");
            ("other", "Other"); ("saving", "Saving")].
    cbn [StrMap.find].
    repeat match goal with
           | |- context [String.eqb k ?s] =>
               destruct (String.eqb_spec k s) as [-> | _];
               [intros H; inversion H; reflexivity|]
           end.
    intros H; discriminate H.
  - intros k. change (categoryBalances newAccount)
      with [("emergency", 0%Q); ("entertainment", 0%Q); ("other", 0%Q); ("saving", 0%Q)].
    change (txs newAccount) with (@nil Transaction).
    unfold StrMap.get; cbn [StrMap.find].
    repeat (destruct (String.eqb k _); [reflexivity|]). reflexivity.
Qed.

Lemma ledger_operations_keep_category_balances_witness :
  ledgerConsistent newAccount
  /\ ((forall date amount cat note,
          ledgerConsistent (addManualTransaction date amount cat note newAccount))
      /\ (forall date amount note,
             ledgerConsistent (allocateAmount date amount note newAccount))
      /\ (forall newAlloc, ledgerConsistent (setAllocation newAlloc newAccount))
      /\ (forall upTo, ledgerConsistent (processSchedulesUpTo upTo newAccount))
      /\ (forall upTo, ledgerConsistent (applyInterestUpTo upTo newAccount))).
Proof.
  split.
  - exact newAccount_consistent.
  - apply (ledger_operations_keep_category_balances newAccount).
    exact newAccount_consistent.
Defined.

(* ================================================================== *)
(** ** Categories and allocations *)

(** X14.  [ensureCategoryExists] puts the key of the name into all three
    category maps, keeps every entry that was there, leaves the log and
    the balance alone, and keeps the three maps in agreement when they
    were. *)
Theorem ensureCategoryExists_all_maps (raw : string) (a : Account) :
  let nk := categoryKey raw in
  let a' := ensureCategoryExists raw a in
  (StrMap.mem nk (displayNames a') = true
   /\ StrMap.mem nk (categoryBalances a') = true
   /\ StrMap.mem nk (allocationPct a') = true)
  /\ (forall k v, StrMap.find k (displayNames a) = Some v ->
                  StrMap.find k (displayNames a') = Some v)
  /\ (forall k v, StrMap.find k (categoryBalances a) = Some v ->
                  StrMap.find k (categoryBalances a') = Some v)
  /\ (forall k v, StrMap.find k (allocationPct a) = Some v ->
                  StrMap.find k (allocationPct a') = Some v)
  /\ txs a' = txs a /\ balance a' = balance a
  /\ (categoryMapsAgree a -> categoryMapsAgree a').
Proof.
  intros nk a'. subst a' nk. unfold ensureCategoryExists, categoryKey.
  cbn [displayNames categoryBalances allocationPct txs balance].
  assert (K : forall (V : Type) (d : V) (m : list (string * V)) k k' v,
             StrMap.find k m = Some v -> StrMap.find k (StrMap.ensure k' d m) = Some v).
  { intros V d m k k' v H. rewrite find_ensure.
    destruct (StrMap.mem k' m) eqn:M; [exact H|].
    destruct (String.eqb k k') eqn:E; [|exact H].
    apply String.eqb_eq in E; subst k'.
    unfold StrMap.mem in M; rewrite H in M; discriminate M. }
  split; [repeat split; apply mem_ensure_same|].
  split; [intros k v; apply K|]. split; [intros k v; apply K|].
  split; [intros k v; apply K|]. split; [reflexivity|]. split; [reflexivity|].
  intros Ag k. cbn [displayNames categoryBalances allocationPct].
  rewrite !mem_ensure. destruct (Ag k) as [E1 E2].
  rewrite E1, E2; split; reflexivity.
Qed.

Lemma setAllocation_fold_keys (l : StrMap.t Q) :
  forall a0 k,
    StrMap.mem k
      (allocationPct
         (fold_left
            (fun a p =>
               let dk := sanitizeDisplayName (fst p) in
               let nk := normalizeKey dk in
               mkAccount (balance a) (txs a) (schedules a)
                 (StrMap.put nk (snd p) (allocationPct a))
                 (StrMap.ensure nk 0%Q (categoryBalances a))
                 (StrMap.ensure nk dk (displayNames a))
                 (interestMap a) (settings a))
            l a0))
    = existsb (fun p => String.eqb k (categoryKey (fst p))) l
      || StrMap.mem k (allocationPct a0).
Proof.
  induction l as [|p l IH]; intros a0 k; cbn [fold_left existsb]; [reflexivity|].
  rewrite IH; cbn [allocationPct]. rewrite mem_put. unfold categoryKey.
  destruct (String.eqb k (normalizeKey (sanitizeDisplayName (fst p))));
    destruct (existsb _ l); reflexivity.
Qed.

Lemma setAllocation_fold_rest (l : StrMap.t Q) :
  forall a0,
    let a' :=
      fold_left
        (fun a p =>
           let dk := sanitizeDisplayName (fst p) in
           let nk := normalizeKey dk in
           mkAccount (balance a) (txs a) (schedules a)
             (StrMap.put nk (snd p) (allocationPct a))
             (StrMap.ensure nk 0%Q (categoryBalances a))
             (StrMap.ensure nk dk (displayNames a))
             (interestMap a) (settings a))
        l a0 in
    txs a' = txs a0 /\ balance a' = balance a0 /\ schedules a' = schedules a0
    /\ interestMap a' = interestMap a0
    /\ (forall k, StrMap.get 0%Q k (categoryBalances a')
                  = StrMap.get 0%Q k (categoryBalances a0)).
Proof.
  induction l as [|p l IH]; intros a0; cbn [fold_left].
  - repeat split; reflexivity.
  - destruct (IH (mkAccount (balance a0) (txs a0) (schedules a0)
                    (StrMap.put (normalizeKey (sanitizeDisplayName (fst p))) (snd p)
                       (allocationPct a0))
                    (StrMap.ensure (normalizeKey (sanitizeDisplayName (fst p))) 0%Q
                       (categoryBalances a0))
                    (StrMap.ensure (normalizeKey (sanitizeDisplayName (fst p)))
                       (sanitizeDisplayName (fst p)) (displayNames a0))
                    (interestMap a0) (settings a0))) as [T [B [S [I G]]]].
    cbn [txs balance schedules interestMap categoryBalances] in *.
    repeat split; try assumption.
    intros k; rewrite G, get_ensure_default; reflexivity.
Qed.

(** X15.  After [setAllocation] the allocation map has exactly the keys
    of the names given (the previous allocations are gone); the log, the
    balance, the schedules, the interest rules and every category
    balance are as before. *)
Theorem setAllocation_replaces (newAlloc : StrMap.t Q) (a : Account) :
  let a' := setAllocation newAlloc a in
  (forall k, StrMap.mem k (allocationPct a')
             = existsb (fun p => String.eqb k (categoryKey (fst p))) newAlloc)
  /\ txs a' = txs a /\ balance a' = balance a /\ schedules a' = schedules a
  /\ interestMap a' = interestMap a
  /\ (forall k, StrMap.get 0%Q k (categoryBalances a')
                = StrMap.get 0%Q k (categoryBalances a)).
Proof.
  intros a'; subst a'; unfold setAllocation. split.
  - intros k. rewrite setAllocation_fold_keys. cbn [allocationPct].
    apply orb_false_r.
  - apply (setAllocation_fold_rest newAlloc
             (mkAccount (balance a) (txs a) (schedules a) []
                (categoryBalances a) (displayNames a) (interestMap a) (settings a))).
Qed.

(** X16.  [allocateAmount] always posts, whatever the sign of the
    amount and whatever the percentages.  When the percentages add up to
    at most the threshold it posts the whole amount, unsplit, in one
    transaction under the display name of "Other"; otherwise it posts
    one share [amount * (percent / totalPct)] per allocation entry, in
    key order.  Every posting carries the given date, at least one is
    made, and the total it leaves is the total it found with the posted
    amounts added to it one after the other. *)
Theorem allocateAmount_posts_in_order
    (a : Account) (date : Date) (amount : Q) (note : string) :
  let a' := allocateAmount date amount note a in
  exists added : list Transaction,
    posted a a' added
    /\ added <> []
    /\ Forall (fun t => tx_date t = date) added
    /\ (if Qle_bool (totalPct (allocationPct a)) epsilon
        then exists name,
               added = [mkTx date amount name (note ++ " (auto alloc fallback)")]
               /\ StrMap.find (normalizeKey "Other") (displayNames a') = Some name
        else Forall2
               (fun p t =>
                  tx_amount t = (amount * (snd p / totalPct (allocationPct a)))%Q
                  /\ tx_category t = displayOrKey (fst p) (displayNames a))
               (allocationPct a) added).
Proof.
  cbv zeta.
  destruct (allocateAmount_posted date amount note a) as [added P].
  exists added. split; [exact P|].
  destruct P as [T _]. revert T. unfold allocateAmount.
  destruct (Qle_bool (totalPct (allocationPct a)) epsilon) eqn:E.
  - cbn [txs displayNames]. intros T. apply app_inv_head in T. subst added.
    split; [discriminate|]. split; [repeat constructor|].
    assert (M : StrMap.mem (normalizeKey "Other")
                  (StrMap.ensure (normalizeKey "Other") "Other" (displayNames a)) = true)
      by apply mem_ensure_same.
    apply mem_find in M. destruct M as [v Hv].
    exists v. split; [|exact Hv]. unfold StrMap.get; rewrite Hv; reflexivity.
  - intros T.
    destruct (allocateShares_txs date amount note (totalPct (allocationPct a))
                (displayNames a) (allocationPct a) a (fun k => eq_refl))
      as [added2 [HT HF]].
    rewrite HT in T. apply app_inv_head in T. subst added2.
    split; [|split].
    + intros N. subst added. inversion HF as [HA|]; subst.
      rewrite <- HA in E. vm_compute in E. discriminate E.
    + clear - HF. induction HF as [|p t l l' H HF IH]; constructor;
        [apply H | exact IH].
    + eapply Forall2_impl; [|exact HF]. intros p t [_ [H1 H2]]; split; assumption.
Qed.

(* ================================================================== *)
(** ** Schedule processing *)

Lemma date_ltb_leb (a b : Date) : date_ltb a b = true -> date_leb a b = true.
Proof.
  intros H. unfold date_leb. apply negb_true_iff, date_ltb_false.
  apply date_ltb_spec in H. lia.
Qed.

Lemma date_leb_trans (a b c : Date) :
  date_leb a b = true -> date_leb b c = true -> date_leb a c = true.
Proof.
  unfold date_leb. rewrite !negb_true_iff, !date_ltb_false. lia.
Qed.

Lemma sameScheduleRule_refl s : sameScheduleRule s s.
Proof. repeat split. Qed.

Lemma sameScheduleRule_trans s1 s2 s3 :
  sameScheduleRule s1 s2 -> sameScheduleRule s2 s3 -> sameScheduleRule s1 s3.
Proof.
  unfold sameScheduleRule. intros [A1 [A2 [A3 [A4 [A5 A6]]]]] [B1 [B2 [B3 [B4 [B5 B6]]]]].
  repeat split; congruence.
Qed.

Lemma scheduleSkipped_same s s' :
  sameScheduleRule s s' -> scheduleSkipped s' = scheduleSkipped s.
Proof. intros [A1 [A2 _]]. unfold scheduleSkipped. rewrite A1, A2; reflexivity. Qed.

(** One firing of a schedule past the gate moves [nextDate] to a
    calendar date that is not earlier. *)
Lemma fireOnce_schedule s a :
  scheduleSkipped s = false -> validDate (nextDate s) ->
  let s' := fst (fireOnce s a) in
  sameScheduleRule s s' /\ validDate (nextDate s')
  /\ date_leb (nextDate s) (nextDate s') = true.
Proof.
  intros G V. unfold fireOnce; cbn [fst]. unfold scheduleSkipped in G.
  split; [repeat split|]. cbn [set_nextDate nextDate].
  destruct (sched_type s).
  - apply Z.leb_gt in G.
    destruct (addDays_dayNumber (nextDate s) (param s) V) as [Va _].
    split; [exact Va|]. apply date_ltb_leb. rewrite (addDays_later _ _ V).
    apply Z.ltb_lt; lia.
  - apply orb_false_iff in G. destruct G as [G1 G2].
    apply Z.ltb_ge in G1. rewrite Z.gtb_ltb in G2. apply Z.ltb_ge in G2.
    destruct (nextMonthlyOn_not_earlier (nextDate s) (param s) V ltac:(lia))
      as [Vr L].
    split; [exact Vr|]. unfold date_leb; rewrite L; reflexivity.
Qed.

Lemma fireLoop_schedule n upTo :
  forall s a,
    scheduleSkipped s = false -> validDate (nextDate s) ->
    let s' := fst (fireLoop n upTo s a) in
    sameScheduleRule s s' /\ validDate (nextDate s')
    /\ date_leb (nextDate s) (nextDate s') = true.
Proof.
  induction n as [|n IH]; intros s a G V; cbn [fireLoop].
  - cbn [fst]. split; [apply sameScheduleRule_refl|]. split; [exact V | apply date_leb_refl].
  - destruct (date_leb (nextDate s) upTo).
    + destruct (fireOnce_schedule s a G V) as [R1 [V1 L1]].
      destruct (fireOnce s a) as [s1 a1]; cbn [fst] in *.
      assert (G1 : scheduleSkipped s1 = false)
        by (rewrite (scheduleSkipped_same s s1 R1); exact G).
      destruct (IH s1 a1 G1 V1) as [R2 [V2 L2]].
      split; [eapply sameScheduleRule_trans; eassumption|].
      split; [exact V2 | eapply date_leb_trans; eassumption].
    + cbn [fst]. split; [apply sameScheduleRule_refl|].
      split; [exact V | apply date_leb_refl].
Qed.

Lemma fireLoop_not_due n upTo s a :
  date_leb (nextDate s) upTo = false -> fireLoop n upTo s a = (s, a).
Proof. intros H; destruct n; cbn [fireLoop]; [reflexivity | rewrite H; reflexivity]. Qed.

Lemma processSchedule_not_due upTo s a :
  scheduleDue upTo s = false -> processSchedule upTo s a = (s, a).
Proof.
  unfold scheduleDue, processSchedule. destruct (scheduleSkipped s); [reflexivity|].
  cbn [negb andb]. apply fireLoop_not_due.
Qed.

Lemma fireLoop_same n upTo :
  forall s a, sameScheduleRule s (fst (fireLoop n upTo s a)).
Proof.
  induction n as [|n IH]; intros s a; cbn [fireLoop]; [apply sameScheduleRule_refl|].
  destruct (date_leb (nextDate s) upTo); [|apply sameScheduleRule_refl].
  assert (R1 : sameScheduleRule s (fst (fireOnce s a))) by (unfold fireOnce; repeat split).
  destruct (fireOnce s a) as [s1 a1]; cbn [fst] in R1.
  eapply sameScheduleRule_trans; [exact R1 | apply IH].
Qed.

(** A firing of a schedule that is due keeps its dates within the
    clock. *)
Lemma fireOnce_in_clock upTo s a :
  validDate upTo -> scheduleSkipped s = false -> validDate (nextDate s) ->
  date_leb (nextDate s) upTo = true ->
  scheduleInClock upTo s -> scheduleInClock upTo (fst (fireOnce s a)).
Proof.
  intros Vu G V L [C B]. unfold fireOnce; cbn [fst].
  unfold scheduleInClock; cbn [set_nextDate nextDate sched_type param].
  split; [|exact B].
  rewrite (date_leb_dayNumber _ _ V Vu) in L. apply Z.leb_le in L.
  unfold scheduleSkipped in G. unfold inClock, clockDay in *.
  destruct (sched_type s).
  - apply Z.leb_gt in G.
    destruct (addDays_dayNumber (nextDate s) (param s) V) as [_ D]. rewrite D. lia.
  - apply orb_false_iff in G. destruct G as [G1 G2].
    apply Z.ltb_ge in G1. rewrite Z.gtb_ltb in G2. apply Z.ltb_ge in G2.
    pose proof (nextMonthlyOn_within_month (nextDate s) (param s) V ltac:(lia)). lia.
Qed.

Lemma fireLoop_in_clock n upTo :
  forall s a,
    validDate upTo -> scheduleSkipped s = false -> validDate (nextDate s) ->
    scheduleInClock upTo s -> scheduleInClock upTo (fst (fireLoop n upTo s a)).
Proof.
  induction n as [|n IH]; intros s a Vu G V C; cbn [fireLoop]; [exact C|].
  destruct (date_leb (nextDate s) upTo) eqn:L; [|exact C].
  pose proof (fireOnce_in_clock upTo s a Vu G V L C) as C1.
  destruct (fireOnce_schedule s a G V) as [R1 [V1 _]].
  destruct (fireOnce s a) as [s1 a1]; cbn [fst] in *.
  apply IH; try assumption.
  rewrite (scheduleSkipped_same s s1 R1); exact G.
Qed.

Lemma processSchedule_schedule upTo s a :
  validDate upTo ->
  let s' := fst (processSchedule upTo s a) in
  sameScheduleRule s s'
  /\ (scheduleDue upTo s = false -> s' = s)
  /\ (validDate (nextDate s) -> scheduleInClock upTo s ->
      validDate (nextDate s') /\ scheduleInClock upTo s'
      /\ date_leb (nextDate s) (nextDate s') = true).
Proof.
  intros Vu. cbv zeta. split; [|split].
  - unfold processSchedule. destruct (scheduleSkipped s);
      [apply sameScheduleRule_refl | apply fireLoop_same].
  - intros H. rewrite (processSchedule_not_due upTo s a H); reflexivity.
  - intros V C. unfold processSchedule. destruct (scheduleSkipped s) eqn:G.
    + split; [exact V | split; [exact C | apply date_leb_refl]].
    + destruct (fireLoop_schedule GUARD_LIMIT upTo s a G V) as [_ [V' L']].
      split; [exact V'|]. split; [|exact L'].
      apply fireLoop_in_clock; assumption.
Qed.

Lemma processScheduleList_schedules upTo ss :
  forall a,
    validDate upTo ->
    Forall2
      (fun s s' =>
         sameScheduleRule s s'
         /\ (scheduleDue upTo s = false -> s' = s)
         /\ (validDate (nextDate s) -> scheduleInClock upTo s ->
             validDate (nextDate s') /\ scheduleInClock upTo s'
             /\ date_leb (nextDate s) (nextDate s') = true))
      ss (fst (processScheduleList upTo ss a)).
Proof.
  induction ss as [|s r IH]; intros a Vu; cbn [processScheduleList]; [constructor|].
  pose proof (processSchedule_schedule upTo s a Vu) as H1.
  destruct (processSchedule upTo s a) as [s' a']; cbn [fst] in H1.
  pose proof (IH a' Vu) as H2.
  destruct (processScheduleList upTo r a') as [r' a'']; cbn [fst] in *.
  constructor; assumption.
Qed.



Lemma processScheduleList_not_due upTo ss :
  forall a,
    forallb (fun s => negb (scheduleDue upTo s)) ss = true ->
    processScheduleList upTo ss a = (ss, a).
Proof.
  induction ss as [|s r IH]; intros a H; cbn [processScheduleList]; [reflexivity|].
  cbn [forallb] in H. apply andb_true_iff in H. destruct H as [H1 H2].
  apply negb_true_iff in H1.
  rewrite (processSchedule_not_due upTo s a H1), (IH a H2); reflexivity.
Qed.

(** X18.  When no schedule is both valid and due, [processSchedulesUpTo]
    changes nothing at all: no transaction, no balance, no schedule. *)
Theorem processSchedulesUpTo_nothing_due (upTo : Date) (a : Account) :
  forallb (fun s => negb (scheduleDue upTo s)) (schedules a) = true ->
  processSchedulesUpTo upTo a = a.
Proof.
  intros H. unfold processSchedulesUpTo.
  rewrite (processScheduleList_not_due upTo (schedules a) a H).
  destruct a; reflexivity.
Qed.

Lemma processSchedulesUpTo_nothing_due_witness :
  forallb (fun s => negb (scheduleDue (mkDate 2024 1 30) s)) (schedules monthEndScenario) = true
  /\ processSchedulesUpTo (mkDate 2024 1 30) monthEndScenario = monthEndScenario.
Proof.
  split; [reflexivity|].
  apply (processSchedulesUpTo_nothing_due (mkDate 2024 1 30) monthEndScenario).
  reflexivity.
Defined.

(** *** The guard bounds the work *)

Lemma allocateShares_length date amount note total l :
  forall a,
    List.length (txs (fold_left (allocateShare date amount note total) l a))
    = (List.length (txs a) + List.length l)%nat.
Proof.
  induction l as [|p l IH]; intros a; cbn [fold_left List.length]; [lia|].
  rewrite IH. cbn [allocateShare txs]. rewrite length_app; cbn [List.length]. lia.
Qed.

Lemma fireOnce_length s a :
  (List.length (txs (snd (fireOnce s a))) <= List.length (txs a) + postsPerFiring a)%nat
  /\ allocationPct (snd (fireOnce s a)) = allocationPct a.
Proof.
  split.
  - unfold fireOnce, postsPerFiring; cbn [snd].
    destruct (autoAllocate s && negb (Qle_bool (sched_amount s) 0)).
    + unfold allocateAmount. destruct (Qle_bool _ epsilon).
      * cbn [txs]. rewrite length_app; cbn [List.length]. lia.
      * rewrite allocateShares_length. lia.
    + unfold addManualTransaction; cbn [txs]. rewrite length_app; cbn [List.length]. lia.
  - destruct (fireOnce_step s a) as [A _]; exact A.
Qed.

Lemma fireLoop_length n upTo :
  forall s a,
    (List.length (txs (snd (fireLoop n upTo s a)))
     <= List.length (txs a) + n * postsPerFiring a)%nat
    /\ allocationPct (snd (fireLoop n upTo s a)) = allocationPct a.
Proof.
  induction n as [|n IH]; intros s a; cbn [fireLoop]; [cbn [snd]; split; [lia | reflexivity]|].
  destruct (date_leb (nextDate s) upTo); [|cbn [snd]; split; [lia | reflexivity]].
  destruct (fireOnce_length s a) as [L1 A1].
  destruct (fireOnce s a) as [s1 a1]; cbn [snd] in *.
  destruct (IH s1 a1) as [L2 A2].
  assert (P : postsPerFiring a1 = postsPerFiring a) by (unfold postsPerFiring; rewrite A1; reflexivity).
  rewrite P in L2. split; [cbn [Nat.mul]; lia | congruence].
Qed.

Lemma processScheduleList_length upTo ss :
  forall a,
    (List.length (txs (snd (processScheduleList upTo ss a)))
     <= List.length (txs a) + List.length ss * (GUARD_LIMIT * postsPerFiring a))%nat
    /\ allocationPct (snd (processScheduleList upTo ss a)) = allocationPct a.
Proof.
  induction ss as [|s r IH]; intros a; cbn [processScheduleList].
  - cbn [snd List.length]; split; [lia | reflexivity].
  - assert (H1 : (List.length (txs (snd (processSchedule upTo s a)))
                  <= List.length (txs a) + GUARD_LIMIT * postsPerFiring a)%nat
                 /\ allocationPct (snd (processSchedule upTo s a)) = allocationPct a).
    { unfold processSchedule. destruct (scheduleSkipped s);
        [cbn [snd]; split; [lia | reflexivity] | apply fireLoop_length]. }
    destruct H1 as [L1 A1].
    destruct (processSchedule upTo s a) as [s' a']; cbn [snd] in *.
    destruct (IH a') as [L2 A2].
    assert (P : postsPerFiring a' = postsPerFiring a)
      by (unfold postsPerFiring; rewrite A1; reflexivity).
    rewrite P in L2.
    destruct (processScheduleList upTo r a') as [r' a'']; cbn [snd] in *.
    split; [cbn [List.length Nat.mul]; lia | congruence].
Qed.

(** X19.  The guard bounds the work of one call: every schedule fires at
    most 10000 times, so [processSchedulesUpTo] appends at most
    (number of schedules) x 10000 x (transactions per firing)
    transactions, where a firing posts one transaction or one per
    allocation entry. *)
Theorem processSchedulesUpTo_bounded (upTo : Date) (a : Account) :
  (List.length (txs (processSchedulesUpTo upTo a))
   <= List.length (txs a)
      + List.length (schedules a) * (GUARD_LIMIT * postsPerFiring a))%nat
  /\ Z.of_nat GUARD_LIMIT = 10000.
Proof.
  split; [|reflexivity].
  unfold processSchedulesUpTo.
  destruct (processScheduleList_length upTo (schedules a) a) as [L _].
  destruct (processScheduleList upTo (schedules a) a) as [ss a']; exact L.
Qed.

(* ================================================================== *)
(** ** Day-interval schedules are brought up to date *)

Lemma firingsDue_step (upTo : Date) (s : Schedule) :
  validDate upTo -> validDate (nextDate s) -> 0 < param s ->
  0 <= firingsDue upTo s
  /\ (date_leb (nextDate s) upTo = true ->
      firingsDue upTo (set_nextDate s (addDays (nextDate s) (param s)))
      = firingsDue upTo s - 1)
  /\ (date_leb (nextDate s) upTo = false -> firingsDue upTo s = 0)
  /\ (firingsDue upTo s <= 0 -> date_leb (nextDate s) upTo = false).
Proof.
  intros Vu V Hp.
  destruct (addDays_dayNumber (nextDate s) (param s) V) as [Va Da].
  unfold firingsDue. cbn [set_nextDate nextDate param].
  pose proof (date_leb_dayNumber (nextDate s) upTo V Vu) as L.
  pose proof (date_leb_dayNumber (addDays (nextDate s) (param s)) upTo Va Vu) as La.
  rewrite L, La, Da.
  destruct (Z.leb_spec (dayNumber (nextDate s)) (dayNumber upTo)) as [C | C].
  - assert (Q0 : 0 <= (dayNumber upTo - dayNumber (nextDate s)) / param s)
      by (apply Z.div_pos; lia).
    split; [lia|]. split; [|split; [intros H; discriminate H | intros H; lia]].
    intros _.
    destruct (Z.leb_spec (dayNumber (nextDate s) + param s) (dayNumber upTo)) as [C' | C'].
    + replace (dayNumber upTo - dayNumber (nextDate s))
        with ((dayNumber upTo - (dayNumber (nextDate s) + param s)) + 1 * param s) by ring.
      rewrite Z.div_add by lia. ring.
    + rewrite Z.div_small by lia. ring.
  - split; [lia|]. split; [intros H; discriminate H|]. split; reflexivity.
Qed.

Lemma fireLoop_every_days (n : nat) (upTo : Date) :
  forall s a,
    validDate upTo -> sched_type s = EveryXDays -> 0 < param s ->
    validDate (nextDate s) -> firingsDue upTo s <= Z.of_nat n ->
    let s' := fst (fireLoop n upTo s a) in
    nextDate s' = addDays (nextDate s) (firingsDue upTo s * param s)
    /\ date_leb (nextDate s') upTo = false.
Proof.
  induction n as [|n IH]; intros s a Vu T Hp V Hk; cbn [fireLoop].
  - destruct (firingsDue_step upTo s Vu V Hp) as [K0 [_ [_ K3]]].
    cbn [fst]. assert (K : firingsDue upTo s = 0) by lia.
    rewrite K, Z.mul_0_l, (addDays_zero _ V). split; [reflexivity | apply K3; lia].
  - destruct (firingsDue_step upTo s Vu V Hp) as [K0 [K1 [K2 K3]]].
    destruct (date_leb (nextDate s) upTo) eqn:L.
    + unfold fireOnce. rewrite T.
      set (s1 := set_nextDate s (addDays (nextDate s) (param s))).
      destruct (addDays_dayNumber (nextDate s) (param s) V) as [Va _].
      specialize (K1 eq_refl). fold s1 in K1.
      match goal with
      | |- context [fireLoop n upTo s1 ?acc] =>
          destruct (IH s1 acc Vu T Hp Va ltac:(lia)) as [N D]
      end.
      cbv zeta in *. split; [|exact D].
      rewrite N, K1. change (nextDate s1) with (addDays (nextDate s) (param s)).
      change (param s1) with (param s).
      rewrite (addDays_add _ _ _ V). f_equal. ring.
    + cbn [fst]. rewrite (K2 eq_refl), Z.mul_0_l, (addDays_zero _ V).
      split; [reflexivity | exact L].
Qed.

Lemma processSchedule_every_days (upTo : Date) (s : Schedule) (a : Account) :
  validDate upTo ->
  (scheduleSkipped s = false -> dayScheduleInGuard upTo s) ->
  let s' := fst (processSchedule upTo s a) in
  (scheduleSkipped s = false ->
   nextDate s' = addDays (nextDate s) (firingsDue upTo s * param s)
   /\ inClock (nextDate s'))
  /\ scheduleDue upTo s' = false.
Proof.
  intros Vu H. cbv zeta. unfold processSchedule.
  destruct (scheduleSkipped s) eqn:G.
  - cbn [fst]. split; [intros X; discriminate X|].
    unfold scheduleDue; rewrite G; reflexivity.
  - destruct (H eq_refl) as [T [V [C K]]].
    assert (Hp : 0 < param s).
    { unfold scheduleSkipped in G. rewrite T in G. apply Z.leb_gt in G. exact G. }
    destruct (fireLoop_every_days GUARD_LIMIT upTo s a Vu T Hp V K) as [N D].
    pose proof (fireLoop_in_clock GUARD_LIMIT upTo s a Vu G V C) as [C' _].
    split; [intros _; split; [exact N | exact C']|].
    unfold scheduleDue. rewrite D. apply andb_false_r.
Qed.

Lemma processScheduleList_every_days (upTo : Date) (ss : list Schedule) :
  forall a,
    validDate upTo ->
    Forall (fun s => scheduleSkipped s = false -> dayScheduleInGuard upTo s) ss ->
    Forall2
      (fun s s' =>
         (scheduleSkipped s = false ->
          nextDate s' = addDays (nextDate s) (firingsDue upTo s * param s)
          /\ inClock (nextDate s'))
         /\ scheduleDue upTo s' = false)
      ss (fst (processScheduleList upTo ss a)).
Proof.
  induction ss as [|s r IH]; intros a Vu F; cbn [processScheduleList]; [constructor|].
  inversion F as [|x l Hs Hr]; subst.
  pose proof (processSchedule_every_days upTo s a Vu Hs) as H1.
  destruct (processSchedule upTo s a) as [s' a']; cbn [fst] in H1.
  pose proof (IH a' Vu Hr) as H2.
  destruct (processScheduleList upTo r a') as [r' a'']; cbn [fst] in *.
  constructor; assumption.
Qed.



(* ================================================================== *)
(** ** Interest is posted within the target date *)

Lemma addMonths_not_earlier (from : Date) (m : Z) :
  validDate from -> 0 <= m -> date_leb from (addMonths from m) = true.
Proof.
  intros V Hm.
  destruct (addMonths_mkDate from m V) as [ny [nm [E [Vr Hidx]]]].
  pose proof V as V'. pose proof Vr as Vr'. rewrite E in Vr'.
  apply validDate_spec in V', Vr'. cbn [year month day] in Vr'.
  destruct V' as [Mf Df], Vr' as [Mr Dr].
  unfold date_leb. apply negb_true_iff, date_ltb_false.
  rewrite E; cbn [year month day]. unfold monthIndex in Hidx.
  assert (C : (ny = year from /\ nm = month from)
              \/ year from < ny \/ (ny = year from /\ month from < nm)) by lia.
  destruct C as [[-> ->] | C]; lia.
Qed.

Lemma monthlyRateOf_nonneg (ie : InterestEntry) :
  (0 <= ratePct ie)%Q -> (0 <= monthlyRateOf ie)%Q.
Proof.
  intros H. unfold monthlyRateOf, Qdiv.
  assert (A : (0 <= ratePct ie * / 100)%Q).
  { apply Qmult_le_0_compat; [exact H | discriminate]. }
  destruct (monthly ie); [exact A|].
  apply Qmult_le_0_compat; [exact A | discriminate].
Qed.

Lemma interestMonth_postings (upTo : Date) (ie : InterestEntry) (m : Z) a w :
  validDate (interestFrom ie) -> validDate upTo ->
  0 <= m < monthsBetweenInclusive (interestFrom ie) upTo ->
  exists added,
    txs (fst (interestMonth ie (interestFrom ie) (monthlyRateOf ie) m (a, w)))
    = (txs a ++ added)%list
    /\ Forall (interestPosting upTo ie) added.
Proof.
  intros Vf Vu Hm. unfold interestMonth.
  destruct (Qle_bool _ 0) eqn:B; [exists []; rewrite app_nil_r; split; [reflexivity | constructor]|].
  destruct (negb (Qeq_bool _ 0)) eqn:Z0;
    [|exists []; rewrite app_nil_r; split; [reflexivity | constructor]].
  eexists; split; [reflexivity|]. constructor; [|constructor].
  unfold interestPosting; cbn [tx_note tx_date tx_amount].
  split; [reflexivity|].
  destruct (addMonths_mkDate (interestFrom ie) m Vf) as [_ [_ [_ [Vr _]]]].
  split; [exact Vr|].
  split; [apply addMonths_not_earlier; [exact Vf | lia]|].
  split; [apply addMonths_within; assumption|].
  apply negb_true_iff in Z0. apply Qeq_bool_neq in Z0.
  split; [exact Z0|]. intros R.
  assert (Bp : (0 < categoryBalanceAt (categoryNormalized ie)
                      (addMonths (interestFrom ie) m) w)%Q).
  { apply Qnot_le_lt. intros L. apply Qle_bool_iff in L. rewrite L in B; discriminate B. }
  pose proof (monthlyRateOf_nonneg ie R) as Rn.
  apply Qle_lt_or_eq in Rn. destruct Rn as [Rp | Rz].
  - apply Qmult_lt_0_compat; assumption.
  - exfalso. apply Z0. rewrite <- Rz. ring.
Qed.

Lemma interestMonths_postings (upTo : Date) (ie : InterestEntry) (n : nat) :
  forall m a w,
    validDate (interestFrom ie) -> validDate upTo ->
    0 <= m -> m + Z.of_nat n <= monthsBetweenInclusive (interestFrom ie) upTo ->
    exists added,
      txs (fst (interestMonths n ie (interestFrom ie) (monthlyRateOf ie) m (a, w)))
      = (txs a ++ added)%list
      /\ Forall (interestPosting upTo ie) added.
Proof.
  induction n as [|n IH]; intros m a w Vf Vu H0 Hn; cbn [interestMonths].
  - exists []; rewrite app_nil_r; split; [reflexivity | constructor].
  - destruct (interestMonth_postings upTo ie m a w Vf Vu ltac:(lia)) as [l1 [T1 F1]].
    destruct (interestMonth ie (interestFrom ie) (monthlyRateOf ie) m (a, w)) as [a1 w1].
    cbn [fst] in T1.
    destruct (IH (m + 1) a1 w1 Vf Vu ltac:(lia) ltac:(lia)) as [l2 [T2 F2]].
    exists (l1 ++ l2)%list. rewrite T2, T1, app_assoc. split; [reflexivity|].
    apply Forall_app; split; assumption.
Qed.

Lemma interestRule_postings (upTo : Date) (ie : InterestEntry) a w :
  validDate upTo -> ruleDatesValid ie ->
  exists added,
    txs (fst (snd (interestRule upTo ie (a, w)))) = (txs a ++ added)%list
    /\ Forall (interestPosting upTo ie) added.
Proof.
  intros Vu [Vs Vl]. unfold interestRule.
  destruct (date_gtb (startDate ie) upTo);
    [exists []; rewrite app_nil_r; split; [reflexivity | constructor]|].
  destruct (Z.leb_spec (monthsBetweenInclusive (interestFrom ie) upTo) 0) as [M | M];
    [exists []; rewrite app_nil_r; split; [reflexivity | constructor]|].
  cbn [snd]. fold (monthlyRateOf ie).
  assert (Vf : validDate (interestFrom ie)).
  { destruct (interestFrom_cases ie) as [[-> _] | [-> _]]; assumption. }
  apply interestMonths_postings; try assumption; lia.
Qed.

Lemma interestRules_postings (upTo : Date) (im : StrMap.t InterestEntry) :
  forall a w,
    validDate upTo -> Forall (fun p => ruleDatesValid (snd p)) im ->
    exists added,
      txs (fst (snd (interestRules upTo im (a, w)))) = (txs a ++ added)%list
      /\ Forall (fun t => exists p, In p im /\ interestPosting upTo (snd p) t) added.
Proof.
  induction im as [|[k ie] r IH]; intros a w Vu F; cbn [interestRules].
  - exists []; rewrite app_nil_r; split; [reflexivity | constructor].
  - inversion F as [|x l Hie Hr]; subst. cbn [snd] in Hie.
    destruct (interestRule_postings upTo ie a w Vu Hie) as [l1 [T1 F1]].
    destruct (interestRule upTo ie (a, w)) as [ie' [a1 w1]]. cbn [fst snd] in T1.
    destruct (IH a1 w1 Vu Hr) as [l2 [T2 F2]].
    destruct (interestRules upTo r (a1, w1)) as [r' [a2 w2]]. cbn [fst snd] in *.
    exists (l1 ++ l2)%list. rewrite T2, T1, app_assoc. split; [reflexivity|].
    apply Forall_app; split.
    + eapply Forall_impl; [|exact F1]. intros t Ht. exists (k, ie); split; [left; reflexivity | exact Ht].
    + eapply Forall_impl; [|exact F2]. intros t [p [Hin Ht]].
      exists p; split; [right; exact Hin | exact Ht].
Qed.

(** X21.  Interest is never posted in the future.  When the target date
    and the dates of the rules are calendar dates, [applyInterestUpTo]
    only appends to the log, and every transaction it appends belongs to
    one of the rules: it carries the note of that rule, is dated between
    the rule's anchor date and the target date, has an amount that is not
    zero, and a positive one when the rate is not negative. *)
Theorem applyInterestUpTo_postings (upTo : Date) (a : Account) :
  validDate upTo ->
  Forall (fun p => ruleDatesValid (snd p)) (interestMap a) ->
  exists added : list Transaction,
    txs (applyInterestUpTo upTo a) = (txs a ++ added)%list
    /\ Forall
         (fun t => exists p, In p (interestMap a) /\ interestPosting upTo (snd p) t)
         added.
Proof.
  intros Vu F. unfold applyInterestUpTo.
  destruct (interestMap a) as [|e r] eqn:IM.
  - exists []; rewrite app_nil_r; split; [reflexivity | constructor].
  - destruct (interestRules_postings upTo (e :: r) a (txs a) Vu F) as [added [T P]].
    destruct (interestRules upTo (e :: r) (a, txs a)) as [im [a1 w1]]. cbn [fst snd] in T.
    exists added; split; [exact T | exact P].
Qed.

Lemma applyInterestUpTo_postings_witness :
  let upTo := mkDate 2024 3 1 in
  validDate upTo
  /\ Forall (fun p => ruleDatesValid (snd p)) (interestMap twoRuleScenario)
  /\ exists added : list Transaction,
      txs (applyInterestUpTo upTo twoRuleScenario) = (txs twoRuleScenario ++ added)%list
      /\ Forall
           (fun t => exists p, In p (interestMap twoRuleScenario)
                               /\ interestPosting upTo (snd p) t)
           added.
Proof.
  cbv zeta.
  assert (F : Forall (fun p => ruleDatesValid (snd p)) (interestMap twoRuleScenario)).
  { repeat constructor. }
  split; [reflexivity|]. split; [exact F|].
  apply (applyInterestUpTo_postings (mkDate 2024 3 1) twoRuleScenario); [reflexivity | exact F].
Defined.

(* ================================================================== *)
(** ** What a loaded store looks like *)

Lemma loadLine_set_balance today q l line :
  loadLine today (set_ld_balance q l) line = set_ld_balance q (loadLine today l line).
Proof.
  destruct l as [sec acc sb hb].
  unfold loadLine, set_ld_balance. cbn [ld_sec ld_acc savedBalance hadSavedBalance].
  destruct (String.eqb line "SETTINGS"); [reflexivity|].
  destruct (String.eqb line "INTERESTS"); [reflexivity|].
  destruct (String.eqb line "ALLOCATIONS"); [reflexivity|].
  destruct (String.eqb line "CATEGORIES"); [reflexivity|].
  destruct (String.eqb line "SCHEDULES"); [reflexivity|].
  destruct (String.eqb line "TXS"); [reflexivity|].
  destruct (has_balance_prefix line).
  - destruct (stod _); reflexivity.
  - destruct sec; cbn [ld_sec ld_acc savedBalance hadSavedBalance]; try reflexivity.
    + unfold loadInterestLine.
      destruct (splitEscaped line) as [|p0 [|p1 [|p2 [|p3 [|p4 r]]]]]; try reflexivity.
      destruct (stod p1); reflexivity.
    + unfold loadAllocLine.
      destruct (splitEscaped line) as [|p0 [|p1 r]]; try reflexivity.
      destruct (stod p1); reflexivity.
    + unfold loadCategoryLine.
      destruct (splitEscaped line) as [|p0 [|p1 r]]; try reflexivity.
      destruct (stod p1); reflexivity.
    + unfold loadScheduleLine.
      destruct (splitEscaped line) as [|p0 [|p1 [|p2 [|p3 [|p4 [|p5 [|p6 r]]]]]]];
        try reflexivity.
      destruct (stoi p1); [|reflexivity]. destruct (stod p2); [|reflexivity].
      destruct (tryParseDate p4); [|reflexivity].
      destruct (scheduleSkipped _); reflexivity.
    + unfold loadTxLine.
      destruct (splitEscaped line) as [|p0 [|p1 [|p2 [|p3 r]]]]; try reflexivity.
      destruct (tryParseDate p0); [|reflexivity]. destruct (stod p1); reflexivity.
Qed.

Lemma loadLines_set_balance today q lines :
  forall l,
    fold_left (loadLine today) lines (set_ld_balance q l)
    = set_ld_balance q (fold_left (loadLine today) lines l).
Proof.
  induction lines as [|line r IH]; intros l; cbn [fold_left]; [reflexivity|].
  rewrite loadLine_set_balance. apply IH.
Qed.

Lemma reconcile_set_balance q l : reconcile (set_ld_balance q l) = reconcile l.
Proof. reflexivity. Qed.

(** X22.  A successful load replaces the account: what [loadFromFile]
    returns depends on the store alone, not on anything the account held
    before (the total included). *)
Theorem loadFromFile_replaces_account
    (fs : FileSystem) (today : Date) (filename : string) (a b : Account) :
  fst (loadFromFile fs today filename a) = true ->
  loadFromFile fs today filename b = loadFromFile fs today filename a.
Proof.
  unfold loadFromFile. destruct (openStore fs filename) as [lines|]; [|discriminate].
  intros _. f_equal.
  assert (E : loadStart b = set_ld_balance (balance b) (loadStart a)) by reflexivity.
  rewrite E, loadLines_set_balance, reconcile_set_balance. reflexivity.
Qed.

Lemma loadFromFile_replaces_account_witness :
  fst (loadFromFile cancellingFs (mkDate 2024 6 1) "finance_save.txt" emptyAccount) = true
  /\ loadFromFile cancellingFs (mkDate 2024 6 1) "finance_save.txt" interestScenario
     = loadFromFile cancellingFs (mkDate 2024 6 1) "finance_save.txt" emptyAccount.
Proof.
  split; [reflexivity|].
  apply (loadFromFile_replaces_account cancellingFs (mkDate 2024 6 1) "finance_save.txt"
           emptyAccount interestScenario).
  reflexivity.
Defined.

(** *** Dates and schedules of a loaded store *)

Lemma wellLoaded_line today l line :
  wellLoaded today (ld_acc l) -> wellLoaded today (ld_acc (loadLine today l line)).
Proof.
  intros W. unfold loadLine.
  destruct (String.eqb line "SETTINGS"); [exact W|].
  destruct (String.eqb line "INTERESTS"); [exact W|].
  destruct (String.eqb line "ALLOCATIONS"); [exact W|].
  destruct (String.eqb line "CATEGORIES"); [exact W|].
  destruct (String.eqb line "SCHEDULES"); [exact W|].
  destruct (String.eqb line "TXS"); [exact W|].
  destruct (has_balance_prefix line).
  - destruct (stod _); exact W.
  - destruct W as [S [T I]].
    destruct (ld_sec l); cbn [ld_acc]; try (split; [exact S | split; [exact T | exact I]]).
    + unfold loadInterestLine.
      destruct (splitEscaped line) as [|p0 [|p1 [|p2 [|p3 [|p4 r]]]]];
        try (split; [exact S | split; [exact T | exact I]]).
      destruct (stod p1); [|split; [exact S | split; [exact T | exact I]]].
      split; [exact S|]. split; [exact T|]. cbn [interestMap].
      apply Forall_put; [|exact I]. cbn [fst snd categoryNormalized startDate lastAppliedDate].
      split; [reflexivity|]. intros Vt.
      assert (Vs : validDate (match tryParseDate p3 with Some d => d | None => today end)).
      { destruct (tryParseDate p3) eqn:E; [destruct (tryParseDate_mktime _ _ E) as [? [? [? ->]]]; apply mktime_valid | exact Vt]. }
      split; [exact Vs|].
      destruct (tryParseDate p4) eqn:E; [destruct (tryParseDate_mktime _ _ E) as [? [? [? ->]]]; apply mktime_valid | exact Vs].
    + unfold loadAllocLine.
      destruct (splitEscaped line) as [|p0 [|p1 r]];
        try (split; [exact S | split; [exact T | exact I]]).
      destruct (stod p1); split; try exact S; split; try exact T; exact I.
    + unfold loadCategoryLine.
      destruct (splitEscaped line) as [|p0 [|p1 r]];
        try (split; [exact S | split; [exact T | exact I]]).
      destruct (stod p1); split; try exact S; split; try exact T; exact I.
    + unfold loadScheduleLine.
      destruct (splitEscaped line) as [|p0 [|p1 [|p2 [|p3 [|p4 [|p5 [|p6 r]]]]]]];
        try (split; [exact S | split; [exact T | exact I]]).
      destruct (stoi p1); [|split; [exact S | split; [exact T | exact I]]].
      destruct (stod p2); [|split; [exact S | split; [exact T | exact I]]].
      destruct (tryParseDate p4) eqn:E; [|split; [exact S | split; [exact T | exact I]]].
      destruct (scheduleSkipped _) eqn:G; [split; [exact S | split; [exact T | exact I]]|].
      split; [|split; [exact T | exact I]].
      cbn [set_schedules schedules]. apply Forall_app; split; [exact S|].
      constructor; [|constructor]. split; [exact G|].
      cbn [nextDate]. destruct (tryParseDate_mktime _ _ E) as [? [? [? ->]]]; apply mktime_valid.
    + unfold loadTxLine.
      destruct (splitEscaped line) as [|p0 [|p1 [|p2 [|p3 r]]]];
        try (split; [exact S | split; [exact T | exact I]]).
      destruct (tryParseDate p0) eqn:E; [|split; [exact S | split; [exact T | exact I]]].
      destruct (stod p1); [|split; [exact S | split; [exact T | exact I]]].
      split; [exact S|]. split; [|exact I]. cbn [txs].
      apply Forall_app; split; [exact T|]. constructor; [|constructor].
      cbn [tx_date]. destruct (tryParseDate_mktime _ _ E) as [? [? [? ->]]]; apply mktime_valid.
Qed.

Lemma wellLoaded_lines today lines :
  forall l,
    wellLoaded today (ld_acc l) ->
    wellLoaded today (ld_acc (fold_left (loadLine today) lines l)).
Proof.
  induction lines as [|line r IH]; intros l W; cbn [fold_left]; [exact W|].
  apply IH, wellLoaded_line, W.
Qed.

Lemma reconcile_fields l :
  txs (reconcile l) = txs (ld_acc l)
  /\ schedules (reconcile l) = schedules (ld_acc l)
  /\ interestMap (reconcile l) = interestMap (ld_acc l)
  /\ allocationPct (reconcile l) = allocationPct (ld_acc l).
Proof.
  unfold reconcile.
  destruct (fold_left recomputeStep _ _) as [rc dn].
  destruct (fold_left completeStep _ _) as [dn' cb'].
  repeat split.
Qed.

(** X23.  After a successful load every schedule passes the validation
    gate of [processSchedulesUpTo] and has a calendar next date, every
    transaction has a calendar date, and every interest rule is stored
    under the key of its category, with calendar dates when the clock
    reading is one. *)
Theorem loadFromFile_well_loaded
    (fs : FileSystem) (today : Date) (filename : string) (a a' : Account) :
  loadFromFile fs today filename a = (true, a') -> wellLoaded today a'.
Proof.
  unfold loadFromFile. destruct (openStore fs filename) as [lines|]; [|discriminate].
  intros H; inversion H; subst a'; clear H.
  assert (W0 : wellLoaded today (ld_acc (loadStart a))).
  { unfold wellLoaded, loadStart; cbn [ld_acc schedules txs interestMap].
    repeat split; constructor. }
  pose proof (wellLoaded_lines today lines (loadStart a) W0) as W.
  destruct (reconcile_fields (fold_left (loadLine today) lines (loadStart a)))
    as [T [S [I _]]].
  unfold wellLoaded. rewrite T, S, I. exact W.
Qed.

Lemma loadFromFile_well_loaded_witness :
  let r := loadFromFile fullFs (mkDate 2024 6 1) "finance_save.txt" emptyAccount in
  r = (true, snd r)
  /\ List.length (schedules (snd r)) = 1%nat
  /\ wellLoaded (mkDate 2024 6 1) (snd r).
Proof.
  cbv zeta. split; [vm_compute; reflexivity|]. split; [vm_compute; reflexivity|].
  apply (loadFromFile_well_loaded fullFs (mkDate 2024 6 1) "finance_save.txt" emptyAccount).
  vm_compute; reflexivity.
Defined.

(** *** Category balances of a loaded store *)

Lemma recompute_get (k : string) (l : list Transaction) :
  forall rc dn,
    StrMap.get 0%Q k (fst (fold_left recomputeStep l (rc, dn)))
    = fold_left
        (fun acc t =>
           if String.eqb (normalizeKey (tx_category t)) k then (acc + tx_amount t)%Q else acc)
        l (StrMap.get 0%Q k rc)
    /\ StrMap.mem k (fst (fold_left recomputeStep l (rc, dn)))
       = StrMap.mem k rc || hasTransactions k l.
Proof.
  induction l as [|t r IH]; intros rc dn; cbn [fold_left hasTransactions existsb].
  - split; [reflexivity | rewrite orb_false_r; reflexivity].
  - set (nk := normalizeKey (tx_category t)).
    assert (E : recomputeStep (rc, dn) t
                = (StrMap.put nk
                     (StrMap.get 0%Q nk (StrMap.ensure nk 0%Q rc) + tx_amount t)%Q
                     (StrMap.ensure nk 0%Q rc),
                   StrMap.ensure nk (tx_category t) dn)) by reflexivity.
    rewrite E. subst nk. destruct (IH
      (StrMap.put (normalizeKey (tx_category t))
         (StrMap.get 0%Q (normalizeKey (tx_category t))
            (StrMap.ensure (normalizeKey (tx_category t)) 0%Q rc) + tx_amount t)%Q
         (StrMap.ensure (normalizeKey (tx_category t)) 0%Q rc))
      (StrMap.ensure (normalizeKey (tx_category t)) (tx_category t) dn)) as [G M].
    fold (hasTransactions k r). split.
    + etransitivity; [exact G|]. f_equal. rewrite get_put, !get_ensure_default.
      destruct (String.eqb_spec k (normalizeKey (tx_category t))) as [-> | N].
      * rewrite String.eqb_refl; reflexivity.
      * apply not_eq_sym, String.eqb_neq in N. rewrite N; reflexivity.
    + etransitivity; [exact M|].
      rewrite mem_put, mem_ensure, (String.eqb_sym k).
      destruct (String.eqb (normalizeKey (tx_category t)) k), (StrMap.mem k rc); reflexivity.
Qed.

Lemma find_ensure_present {V : Type} k k0 (v : V) m :
  StrMap.mem k m = true -> StrMap.find k (StrMap.ensure k0 v m) = StrMap.find k m.
Proof.
  intros M. rewrite find_ensure. destruct (StrMap.mem k0 m) eqn:M0; [reflexivity|].
  destruct (String.eqb_spec k k0) as [-> | _]; [congruence | reflexivity].
Qed.

Lemma keepStored_find (k : string) (cb : StrMap.t Q) :
  forall rc,
    StrMap.mem k rc = true ->
    StrMap.find k (fold_left (fun rc p => StrMap.ensure (fst p) (snd p) rc) cb rc)
    = StrMap.find k rc.
Proof.
  induction cb as [|p r IH]; intros rc M; cbn [fold_left]; [reflexivity|].
  rewrite IH by (apply mem_ensure_mono, M). apply find_ensure_present, M.
Qed.

Lemma completeStep_find (k : string) (l : StrMap.t Q) :
  forall dn cb,
    StrMap.mem k cb = true ->
    StrMap.find k (snd (fold_left completeStep l (dn, cb))) = StrMap.find k cb.
Proof.
  induction l as [|p r IH]; intros dn cb M; cbn [fold_left]; [reflexivity|].
  assert (E : completeStep (dn, cb) p
              = (StrMap.ensure (fst p) (fst p) dn, StrMap.ensure (fst p) 0%Q cb))
    by reflexivity.
  rewrite E, IH by (apply mem_ensure_mono, M).
  apply find_ensure_present, M.
Qed.

Lemma reconcile_category (l : LoadState) (k : string) :
  hasTransactions k (txs (ld_acc l)) = true ->
  StrMap.get 0%Q k (categoryBalances (reconcile l)) = categorySum k (txs (ld_acc l)).
Proof.
  intros H. unfold reconcile.
  pose proof (recompute_get k (txs (ld_acc l)) [] (displayNames (ld_acc l))) as GM.
  destruct (fold_left recomputeStep (txs (ld_acc l)) ([], displayNames (ld_acc l)))
    as [rc dn] eqn:F.
  assert (G : StrMap.get 0%Q k rc = categorySum k (txs (ld_acc l))).
  { change rc with (fst (rc, dn)). rewrite <- F. exact (proj1 GM). }
  assert (M : StrMap.mem k rc = true).
  { change rc with (fst (rc, dn)). rewrite <- F.
    etransitivity; [exact (proj2 GM)|]. rewrite H. reflexivity. }
  clear GM F.
  pose proof (keepStored_find k (categoryBalances (ld_acc l)) rc M) as K.
  set (rc' := fold_left (fun rc p => StrMap.ensure (fst p) (snd p) rc)
                (categoryBalances (ld_acc l)) rc) in *.
  assert (M' : StrMap.mem k rc' = true).
  { unfold StrMap.mem in *. rewrite K. exact M. }
  pose proof (completeStep_find k (allocationPct (ld_acc l)) dn rc' M') as C.
  destruct (fold_left completeStep (allocationPct (ld_acc l)) (dn, rc')) as [dn' cb'] eqn:F.
  assert (C' : StrMap.find k cb' = StrMap.find k rc').
  { first [exact C | change cb' with (snd (dn', cb')); rewrite <- F; exact C]. }
  cbn [categoryBalances].
  rewrite <- G. unfold StrMap.get. rewrite C', K. reflexivity.
Qed.

(** X24.  A successful load recomputes from the log.  Every category
    that has a transaction in the store ends with the sum of its
    transactions as its balance, whatever the [CATEGORIES] section says,
    and the total is the sum of all transactions whenever that sum is not
    zero. *)
Theorem loadFromFile_recomputes_from_log
    (fs : FileSystem) (today : Date) (filename : string) (a a' : Account) :
  loadFromFile fs today filename a = (true, a') ->
  (forall k, hasTransactions k (txs a') = true ->
             StrMap.get 0%Q k (categoryBalances a') = categorySum k (txs a'))
  /\ (~ (sumAmounts (txs a') == 0)%Q -> balance a' = sumAmounts (txs a')).
Proof.
  unfold loadFromFile. destruct (openStore fs filename) as [lines|]; [|discriminate].
  intros H; inversion H; subst a'; clear H.
  set (l := fold_left (loadLine today) lines (loadStart a)).
  destruct (reconcile_balance l) as [T B]. rewrite T. split.
  - intros k Hk. apply reconcile_category, Hk.
  - intros N. rewrite B.
    destruct (Qeq_bool (sumAmounts (txs (ld_acc l))) 0) eqn:E; [|reflexivity].
    exfalso; apply N, Qeq_bool_iff, E.
Qed.

Lemma loadFromFile_recomputes_from_log_witness :
  let r := loadFromFile fullFs (mkDate 2024 6 1) "finance_save.txt" emptyAccount in
  r = (true, snd r)
  /\ hasTransactions "saving" (txs (snd r)) = true
  /\ StrMap.get 0%Q "saving" (categoryBalances (snd r)) = categorySum "saving" (txs (snd r))
  /\ (Qred (categorySum "saving" (txs (snd r))) = 150%Q).
Proof.
  cbv zeta.
  assert (E : loadFromFile fullFs (mkDate 2024 6 1) "finance_save.txt" emptyAccount
              = (true, snd (loadFromFile fullFs (mkDate 2024 6 1) "finance_save.txt"
                              emptyAccount))) by (vm_compute; reflexivity).
  split; [exact E|]. split; [vm_compute; reflexivity|].
  split; [|vm_compute; reflexivity].
  apply (proj1 (loadFromFile_recomputes_from_log fullFs (mkDate 2024 6 1)
                  "finance_save.txt" emptyAccount _ E)).
  vm_compute; reflexivity.
Defined.
